(** * zDAW: clip launcher and warp engine

    A shallow embedding of the session clip launcher ([ClipLauncher]), the
    time-stretch engine ([WarpEngine]) and the time-base helpers of
    [types.ts], with the properties of the specification stated and settled
    against it. *)

From Stdlib Require Import ZArith QArith Qround Qabs Qpower Lia Lqa Bool List String.
From stdpp Require Import base tactics option list.
Import ListNotations.

Local Open Scope Z_scope.

(** ** JavaScript numbers

    A [number] is modelled as an exact rational or one of the three IEEE
    special values; every finite result is kept in lowest terms ([Qred]),
    which does not change its value.  The operations of this module do not
    round; [Binary64] below gives the rounded ones, and the time-base
    conversions are embedded there a second time, with the rounding of
    each operation.  The sign of zero is not modelled. *)
Module JS.

Inductive num : Type :=
  | Fin (q : Q)
  | PInf
  | NInf
  | NaN.

Definition ofZ (z : Z) : num := Fin (inject_Z z).
Definition ofNat (n : nat) : num := ofZ (Z.of_nat n).

Definition isFinite (a : num) : bool :=
  match a with Fin _ => true | _ => false end.

(** Sign of a rational: -1, 0 or 1. *)
Definition Qsgn (q : Q) : Z := Z.sgn (Qnum q).

Definition neg (a : num) : num :=
  match a with
  | Fin q => Fin (Qred (- q))
  | PInf => NInf
  | NInf => PInf
  | NaN => NaN
  end.

Definition add (a b : num) : num :=
  match a with
  | NaN => NaN
  | Fin x => match b with Fin y => Fin (Qred (x + y)) | other => other end
  | PInf => match b with NInf | NaN => NaN | _ => PInf end
  | NInf => match b with PInf | NaN => NaN | _ => NInf end
  end.

Definition sub (a b : num) : num := add a (neg b).

(** An infinity of sign [s] (a zero sign gives NaN, as [0 * Infinity]). *)
Definition infOfSign (s : Z) : num :=
  match s with Z0 => NaN | Zpos _ => PInf | Zneg _ => NInf end.

Definition sgn (a : num) : option Z :=
  match a with
  | Fin q => Some (Qsgn q)
  | PInf => Some 1
  | NInf => Some (-1)
  | NaN => None
  end.

Definition mul (a b : num) : num :=
  match a with
  | NaN => NaN
  | Fin x =>
      match b with
      | Fin y => Fin (Qred (x * y))
      | PInf => infOfSign (Qsgn x)
      | NInf => infOfSign (- Qsgn x)
      | NaN => NaN
      end
  | PInf => match sgn b with Some s => infOfSign s | None => NaN end
  | NInf => match sgn b with Some s => infOfSign (- s) | None => NaN end
  end.

Definition div (a b : num) : num :=
  match a with
  | NaN => NaN
  | Fin x =>
      match b with
      | Fin y => if Qeq_bool y 0 then infOfSign (Qsgn x) else Fin (Qred (x / y))
      | PInf | NInf => Fin 0
      | NaN => NaN
      end
  | PInf =>
      match b with
      | Fin y => if Qle_bool 0 y then PInf else NInf
      | _ => NaN
      end
  | NInf =>
      match b with
      | Fin y => if Qle_bool 0 y then NInf else PInf
      | _ => NaN
      end
  end.

(** [Math.floor], [Math.ceil], [Math.abs]. *)
Definition floor (a : num) : num :=
  match a with Fin q => ofZ (Qfloor q) | other => other end.

Definition ceil (a : num) : num :=
  match a with Fin q => ofZ (Qceiling q) | other => other end.

Definition abs (a : num) : num :=
  match a with
  | Fin q => Fin (Qabs q)
  | PInf | NInf => PInf
  | NaN => NaN
  end.

(** Comparisons; each one is false as soon as an operand is NaN. *)
Definition lt (a b : num) : bool :=
  match a, b with
  | NaN, _ | _, NaN => false
  | Fin x, Fin y => negb (Qle_bool y x)
  | NInf, NInf => false
  | NInf, _ => true
  | _, PInf => match a with PInf => false | _ => true end
  | _, _ => false
  end.

Definition le (a b : num) : bool :=
  match a, b with
  | NaN, _ | _, NaN => false
  | Fin x, Fin y => Qle_bool x y
  | NInf, _ => true
  | _, PInf => true
  | _, _ => false
  end.

Definition gt (a b : num) : bool := lt b a.
Definition ge (a b : num) : bool := le b a.

(** Strict equality [===] on numbers. *)
Definition eqb (a b : num) : bool :=
  match a, b with
  | Fin x, Fin y => Qeq_bool x y
  | PInf, PInf | NInf, NInf => true
  | _, _ => false
  end.

(** [Math.max] and [Math.min] of two numbers: NaN if either is. *)
Definition max (a b : num) : num :=
  match a, b with
  | NaN, _ | _, NaN => NaN
  | _, _ => if lt a b then b else a
  end.

Definition min (a b : num) : num :=
  match a, b with
  | NaN, _ | _, NaN => NaN
  | _, _ => if lt b a then b else a
  end.

(** Truncation toward zero, used by the remainder. *)
Definition Qtrunc (q : Q) : Z :=
  if Qle_bool 0 q then Qfloor q else Qceiling q.

(** The [%] operator: the remainder has the sign of the dividend. *)
Definition rem (a b : num) : num :=
  match a, b with
  | Fin x, Fin y =>
      if Qeq_bool y 0 then NaN
      else Fin (Qred (x - y * inject_Z (Qtrunc (x / y))))
  | Fin x, (PInf | NInf) => Fin x
  | _, _ => NaN
  end.

(** [x || d] on numbers: 0 and NaN are falsy. *)
Definition orElse (a d : num) : num :=
  match a with
  | Fin q => if Qeq_bool q 0 then d else a
  | NaN => d
  | _ => a
  end.

(** An integer index held in a number, if it is one. *)
Definition toIndex (a : num) : option Z :=
  match a with
  | Fin q => if Qeq_bool (inject_Z (Qfloor q)) q then Some (Qfloor q) else None
  | _ => None
  end.

(** ** Typed arrays ([Float32Array])

    Reading outside the array gives [undefined], which every use in the
    source feeds to arithmetic, where it becomes NaN; writing outside the
    array is ignored. *)
Abbreviation f32array := (list num).

Definition getZ (a : f32array) (i : Z) : num :=
  if (0 <=? i) && (i <? Z.of_nat (length a))
  then nth (Z.to_nat i) a NaN else NaN.

Definition aget (a : f32array) (i : num) : num :=
  match toIndex i with Some z => getZ a z | None => NaN end.

Definition aset (a : f32array) (i : num) (v : num) : f32array :=
  match toIndex i with
  | Some z =>
      if (0 <=? z) && (z <? Z.of_nat (length a))
      then <[Z.to_nat z := v]> a else a
  | None => a
  end.

(** ** Outcomes of a call

    A call returns, throws, or is still running when the fuel given to its
    loops is used up. *)
Inductive outcome (A : Type) : Type :=
  | Ret (a : A)
  | Throw
  | Timeout.
Arguments Ret {A} a.
Arguments Throw {A}.
Arguments Timeout {A}.

Definition bind {A B : Type} (m : outcome A) (k : A -> outcome B) : outcome B :=
  match m with
  | Ret a => k a
  | Throw => Throw
  | Timeout => Timeout
  end.

(** What one pass over a loop decides: go round again, or leave. *)
Inductive ctl (S : Type) : Type :=
  | Next (s : S)
  | Done (s : S).
Arguments Next {S} s.
Arguments Done {S} s.

(** A [while]/[for] loop: [step] tests the condition and runs the body once;
    [fuel] bounds the number of passes. *)
Fixpoint iterate {S : Type} (fuel : nat) (step : S -> outcome (ctl S)) (s : S)
  : outcome S :=
  match fuel with
  | O => Timeout
  | Datatypes.S fuel' =>
      match step s with
      | Ret (Next s') => iterate fuel' step s'
      | Ret (Done s') => Ret s'
      | Throw => Throw
      | Timeout => Timeout
      end
  end.

(** [for (const x of xs)] with a body that may throw or time out. *)
Fixpoint forEach {A S : Type} (xs : list A) (body : S -> A -> outcome S) (s : S)
  : outcome S :=
  match xs with
  | [] => Ret s
  | x :: xs' => bind (body s x) (forEach xs' body)
  end.

(** [Math.round]: the nearest integer, a tie going up. *)
Definition round (a : num) : num :=
  match a with Fin q => ofZ (Qfloor (q + (1 # 2))) | other => other end.

End JS.

Notation "m >>= k" := (JS.bind m k) (at level 50, left associativity).

(** ** types.ts: time base and launch quantization *)
Module Types.
Import JS.

(** [beatsToSeconds]: [(beats / bpm) * 60]. *)
Definition beatsToSeconds (beats bpm : num) : num :=
  mul (div beats bpm) (ofZ 60).

(** [secondsToBeats]: [(seconds / 60) * bpm]. *)
Definition secondsToBeats (seconds bpm : num) : num :=
  mul (div seconds (ofZ 60)) bpm.

Inductive LaunchQuantization : Type :=
  | QNone | Q1_32 | Q1_16 | Q1_8 | Q1_4 | Q1_2
  | Q1Bar | Q2Bars | Q4Bars | Q8Bars | QGlobal.

Inductive LegatoMode : Type := LegatoOff | Legato | LegatoImmediate.

Inductive ClipState : Type :=
  | Stopped | Playing | Recording | Triggered | Stopping.

(** [launchQuantizationToBeats]; the [bpm] argument is not used. *)
Definition launchQuantizationToBeats (q : LaunchQuantization) (bpm : num) : num :=
  match q with
  | QNone => ofZ 0
  | Q1_32 => Fin (1 # 8)
  | Q1_16 => Fin (1 # 4)
  | Q1_8 => Fin (1 # 2)
  | Q1_4 => ofZ 1
  | Q1_2 => ofZ 2
  | Q1Bar => ofZ 4
  | Q2Bars => ofZ 8
  | Q4Bars => ofZ 16
  | Q8Bars => ofZ 32
  | QGlobal => ofZ 4
  end.

(** [getNextQuantizedBeat]: the next multiple of the grid at or after
    [currentBeat]; the beat itself when the grid is 0. *)
Definition getNextQuantizedBeat (currentBeat : num) (quantization : LaunchQuantization)
    (bpm : num) : num :=
  let q := launchQuantizationToBeats quantization bpm in
  if eqb q (ofZ 0) then currentBeat
  else mul (ceil (div currentBeat q)) q.

(** [quantize]: [Math.round(beat / grid) * grid]. *)
Definition quantize (beat grid : num) : num :=
  mul (round (div beat grid)) grid.

(** A number that is a whole multiple of [g]. *)
Definition multipleOf (g : Q) (x : num) : Prop :=
  exists (r : Q) (k : Z), x = Fin r /\ (r == inject_Z k * g)%Q.

End Types.

(** ** Binary64 arithmetic

    The four operations as JavaScript performs them: the exact result,
    rounded to the nearest binary64 number. *)
Module Binary64.
Import JS.
Local Open Scope Q_scope.

(** The integer part of the binary logarithm of a positive rational. *)
Definition ilog2 (q : Q) : Z :=
  let k := (Z.log2 (Qnum q) - Z.log2 (Zpos (Qden q)))%Z in
  if Qle_bool (2 ^ k) q then k else (k - 1)%Z.

(** The integer nearest to [x], a tie going to the even one. *)
Definition nearestEven (x : Q) : Z :=
  let f := Qfloor x in
  match Qcompare (x - inject_Z f) (1 # 2) with
  | Lt => f
  | Gt => (f + 1)%Z
  | Eq => if Z.even f then f else (f + 1)%Z
  end.

(** The exponent of the last of the 53 bits that hold [q]; it stops at
    -1074, where the subnormal numbers begin. *)
Definition ulpExp (q : Q) : Z := Z.max (ilog2 (Qabs q) - 52) (-1074).

(** Rounding of a rational to the nearest binary64 number, a tie to the
    even significand; a result of magnitude 2^1024 or more is an infinity. *)
Definition round64 (q : Q) : num :=
  if Qeq_bool q 0 then Fin 0
  else
    let e := ulpExp q in
    let r := inject_Z (nearestEven (q / 2 ^ e)) * 2 ^ e in
    if Qle_bool (2 ^ 1024) (Qabs r) then (if Qle_bool 0 q then PInf else NInf)
    else Fin (Qred r).

(** The result of an operation: the exact result, rounded. *)
Definition rnd (a : num) : num :=
  match a with Fin q => round64 q | other => other end.

Definition add (a b : num) : num := rnd (JS.add a b).
Definition sub (a b : num) : num := rnd (JS.sub a b).
Definition mul (a b : num) : num := rnd (JS.mul a b).
Definition div (a b : num) : num := rnd (JS.div a b).

(** [beatsToSeconds] and [secondsToBeats] of types.ts, each operation
    rounded. *)
Definition beatsToSeconds (beats bpm : num) : num :=
  mul (div beats bpm) (ofZ 60).

Definition secondsToBeats (seconds bpm : num) : num :=
  mul (div seconds (ofZ 60)) bpm.

(** [getNextQuantizedBeat] and [quantize] of types.ts, each operation
    rounded. *)
Definition getNextQuantizedBeat (currentBeat : num)
    (quantization : Types.LaunchQuantization) (bpm : num) : num :=
  let q := Types.launchQuantizationToBeats quantization bpm in
  if eqb q (ofZ 0) then currentBeat
  else mul (ceil (div currentBeat q)) q.

Definition quantize (beat grid : num) : num :=
  mul (round (div beat grid)) grid.

(** A binary64 number of moderate size: a significand of 53 bits times a
    power of two between [2^-1000] and [2^900]; 0 is one of them. *)
Definition moderate (q : Q) : Prop :=
  exists m e : Z, (Z.abs m < 2 ^ 53)%Z /\ (-1000 <= e <= 900)%Z /\
                  (q == inject_Z m * 2 ^ e)%Q.

End Binary64.

(** ** audio/WarpEngine.ts

    Durations, stretch ratios, grain and hop sizes and output lengths are
    computed with the rounded operations of [Binary64], as they decide
    how many frames are read and written.  Sample values are kept exact:
    the rounding of a [Float32Array] store is not modelled. *)
Module WarpEngine.
Import JS Types.

Inductive WarpMode : Type :=
  | ModeBeats | ModeTones | ModeTexture | ModeComplex | ModeRepitch | ModeOff.

Record WarpMarker : Type := mkMarker {
  markerId : string;
  sampleTime : num;
  beatTime : num
}.

Record WarpSettings : Type := mkSettings {
  enabled : bool;
  mode : WarpMode;
  originalBPM : num;
  markers : list WarpMarker;
  transientSensitivity : num;
  grainSize : num;
  preservePitch : bool
}.

(** The host's [AudioBuffer]: sample rate, frame count, one array per
    channel. *)
Record AudioBuffer : Type := mkBuffer {
  sampleRate : num;
  bufLength : Z;
  channelData : list f32array
}.

(** [buffer.duration]: frames over sample rate, a binary64 number. *)
Definition duration (b : AudioBuffer) : num :=
  Binary64.div (ofZ (bufLength b)) (sampleRate b).

Definition numberOfChannels (b : AudioBuffer) : nat :=
  length (channelData b).

Record GrainWindow : Type := mkWindow {
  data : f32array;
  size : num
}.

(** The fields of a [WarpEngine] that the stretch paths read. *)
Record Engine : Type := mkEngine {
  sourceBuffer : option AudioBuffer;
  settings : WarpSettings;
  grainWindows : list (Z * GrainWindow)
}.

(** The settings a new engine starts with. *)
Definition defaultSettings : WarpSettings :=
  {| enabled := true; mode := ModeBeats; originalBPM := ofZ 120;
     markers := []; transientSensitivity := Fin (1 # 2);
     grainSize := ofZ 50; preservePitch := true |}.

(** [initializeGrainWindows]: one Hann window per size.  The coefficient
    [0.5 * (1 - cos(2 pi i / (size - 1)))] is not rational; [hann size i]
    stands for it. *)
Definition initializeGrainWindows (hann : Z -> Z -> Q) : list (Z * GrainWindow) :=
  map (fun sz : Z =>
         (sz, {| data := map (fun i : nat => Fin (hann sz (Z.of_nat i)))
                             (seq 0 (Z.to_nat sz));
                 size := ofZ sz |}))
      [256; 512; 1024; 2048; 4096].

(** The constructor. *)
Definition newEngine (hann : Z -> Z -> Q) : Engine :=
  {| sourceBuffer := None; settings := defaultSettings;
     grainWindows := initializeGrainWindows hann |}.

Definition setWarpMode (e : Engine) (m : WarpMode) : Engine :=
  let s := settings e in
  {| sourceBuffer := sourceBuffer e;
     settings := {| enabled := enabled s; mode := m; originalBPM := originalBPM s;
                    markers := markers s;
                    transientSensitivity := transientSensitivity s;
                    grainSize := grainSize s; preservePitch := preservePitch s |};
     grainWindows := grainWindows e |}.

(** [setSettings], given every field (the source merges a partial record
    into the current one). *)
Definition setSettings (e : Engine) (s : WarpSettings) : Engine :=
  {| sourceBuffer := sourceBuffer e; settings := s; grainWindows := grainWindows e |}.

(** Loading a buffer; the transient detection that [setSourceBuffer] runs
    when there are no markers takes square roots and is left to the caller:
    [detected] is the marker list it produced. *)
Definition setSourceBuffer (e : Engine) (b : AudioBuffer) (detected : list WarpMarker)
  : Engine :=
  let s := settings e in
  {| sourceBuffer := Some b;
     settings :=
       match markers s with
       | [] => {| enabled := enabled s; mode := mode s; originalBPM := originalBPM s;
                  markers := detected;
                  transientSensitivity := transientSensitivity s;
                  grainSize := grainSize s; preservePitch := preservePitch s |}
       | _ :: _ => s
       end;
     grainWindows := grainWindows e |}.

(** Ascending insertion sort, for [sort((a, b) => a - b)]. *)
Fixpoint insertZ (x : Z) (l : list Z) : list Z :=
  match l with
  | [] => [x]
  | y :: l' => if x <? y then x :: l else y :: insertZ x l'
  end.

Definition sortZ (l : list Z) : list Z := fold_right insertZ [] l.

Fixpoint mapGet {V : Type} (m : list (Z * V)) (k : Z) : option V :=
  match m with
  | [] => None
  | (k', v) :: m' => if k' =? k then Some v else mapGet m' k
  end.

(** [getGrainWindow]: the precomputed window whose size is closest to the
    one asked for ([None] is [undefined], when the table is empty); the
    two differences are rounded as binary64 rounds them. *)
Definition getGrainWindow (e : Engine) (sz : num) : option GrainWindow :=
  let sizes := sortZ (map fst (grainWindows e)) in
  match sizes with
  | [] => None
  | s0 :: _ =>
      let closest :=
        fold_left
          (fun c s =>
             if lt (abs (Binary64.sub (ofZ s) sz)) (abs (Binary64.sub (ofZ c) sz))
             then s else c)
          sizes s0 in
      mapGet (grainWindows e) closest
  end.

(** Reading [window.size] and [window.data]: a TypeError on [undefined]. *)
Definition windowOf (w : option GrainWindow) : outcome GrainWindow :=
  match w with Some g => Ret g | None => Throw end.

Definition len (a : f32array) : num := ofNat (length a).

(** [output.fill(0)]. *)
Definition fillZero (a : f32array) : f32array := map (fun _ => ofZ 0) a.

(** The peak scan that ends each stretch:
    [maxVal = Math.max(maxVal, Math.abs(output[i]))]. *)
Definition peak (a : f32array) : num :=
  fold_left (fun m x => max m (abs x)) a (ofZ 0).

(** [if (maxVal > 1) output[i] /= maxVal]. *)
Definition normalizeClip (a : f32array) : f32array :=
  let maxVal := peak a in
  if gt maxVal (ofZ 1) then map (fun x => div x maxVal) a else a.

(** [if (maxVal > 0.01) output[i] *= 1 / maxVal]. *)
Definition normalizeFull (a : f32array) : f32array :=
  let maxVal := peak a in
  if gt maxVal (Fin (1 # 100))
  then let norm := div (ofZ 1) maxVal in map (fun x => mul x norm) a
  else a.

(** The grain size in samples and the input hop, shared by both granular
    stretches.  The quotient and the product are rounded as binary64
    rounds them before the floor is taken; a quarter of a whole number of
    samples needs no rounding. *)
Definition grainSamples (e : Engine) : num :=
  floor (Binary64.mul (Binary64.div (grainSize (settings e)) (ofZ 1000)) (ofZ 44100)).

Definition hopInOf (gs : num) : num := floor (mul gs (Fin (1 # 4))).

Section Granular.
Variable fuel : nat.
Variable e : Engine.

(** One grain of [granularStretch]: the inner [for] loop. *)
Definition grainStep (input : f32array) (gs inStart outputPos : num)
    (window : option GrainWindow) (st : Z * f32array)
  : outcome (ctl (Z * f32array)) :=
  let '(i, output) := st in
  if lt (ofZ i) gs && lt (add outputPos (ofZ i)) (len output) then
    let inIdx := min (add inStart (ofZ i)) (sub (len input) (ofZ 1)) in
    windowOf window >>= fun w =>
    let winIdx := floor (mul (div (ofZ i) gs) (size w)) in
    let k := add outputPos (ofZ i) in
    Ret (Next (i + 1,
               aset output k
                 (add (aget output k) (mul (aget input inIdx) (aget (data w) winIdx)))))
  else Ret (Done st).

(** The [while] loop of [granularStretch]; the state is
    [(inputPos, outputPos, output)]. *)
Definition granularStep (input : f32array) (gs hopIn hopOut : num)
    (window : option GrainWindow) (st : num * num * f32array)
  : outcome (ctl (num * num * f32array)) :=
  let '(inputPos, outputPos, output) := st in
  if lt outputPos (sub (len output) gs) then
    let inStart := floor inputPos in
    if ge inStart (sub (len input) gs) then Ret (Done st)
    else
      iterate fuel (grainStep input gs inStart outputPos window) (0, output)
      >>= fun r =>
      Ret (Next (add inputPos hopIn, add outputPos hopOut, snd r))
  else Ret (Done st).

(** The synthesis part of [granularStretch], before normalization. *)
Definition granularSynth (input output : f32array) (ratio : num) : outcome f32array :=
  let gs := grainSamples e in
  let hopIn := hopInOf gs in
  let hopOut := floor (Binary64.mul hopIn ratio) in
  let window := getGrainWindow e gs in
  iterate fuel (granularStep input gs hopIn hopOut window)
          (ofZ 0, ofZ 0, fillZero output)
  >>= fun r => Ret (snd r).

(** [granularStretch(input, output, ratio)]; the result is the new
    content of [output]. *)
Definition granularStretch (input output : f32array) (ratio : num) : outcome f32array :=
  granularSynth input output ratio >>= fun out => Ret (normalizeClip out).

(** [Math.random()] is an oracle: its [k]-th call returns [rnd k]. *)
Variable rnd : nat -> Q.

(** One grain of [textureGranularStretch]. *)
Definition textureGrainStep (input : f32array) (gs inStart outputPos ampVar : num)
    (window : option GrainWindow) (st : Z * f32array)
  : outcome (ctl (Z * f32array)) :=
  let '(i, output) := st in
  if lt (ofZ i) gs && lt (add outputPos (ofZ i)) (len output) then
    windowOf window >>= fun w =>
    let winIdx := floor (mul (div (ofZ i) gs) (size w)) in
    let k := add outputPos (ofZ i) in
    Ret (Next (i + 1,
               aset output k
                 (add (aget output k)
                      (mul (mul (aget input (add inStart (ofZ i)))
                                (aget (data w) winIdx))
                           ampVar))))
  else Ret (Done st).

(** The [while] loop of [textureGranularStretch]; the state is
    [(outputPos, output, calls made to Math.random)]. *)
Definition textureStep (input : f32array) (gs hopOut : num)
    (window : option GrainWindow) (st : num * f32array * nat)
  : outcome (ctl (num * f32array * nat)) :=
  let '(outputPos, output, k) := st in
  let inputLength := len input in
  if lt outputPos (sub (len output) gs) then
    let jitter := mul (mul (sub (Fin (rnd k)) (Fin (1 # 2))) gs) (ofZ 2) in
    let inStart :=
      floor (rem (add (mul (div outputPos (len output)) inputLength) jitter)
                 (sub inputLength gs)) in
    if lt inStart (ofZ 0) || ge inStart (sub inputLength gs) then
      Ret (Next (add outputPos hopOut, output, S k))
    else
      let ampVar := add (Fin (4 # 5)) (mul (Fin (rnd (S k))) (Fin (2 # 5))) in
      iterate fuel (textureGrainStep input gs inStart outputPos ampVar window)
              (0, output)
      >>= fun r =>
      Ret (Next (add outputPos hopOut, snd r, S (S k)))
  else Ret (Done st).

Definition textureSynth (input output : f32array) (ratio : num) (k : nat)
  : outcome (f32array * nat) :=
  let gs := grainSamples e in
  let hopIn := hopInOf gs in
  let hopOut := floor (Binary64.mul hopIn ratio) in
  let window := getGrainWindow e gs in
  iterate fuel (textureStep input gs hopOut window) (ofZ 0, fillZero output, k)
  >>= fun r => Ret (snd (fst r), snd r).

(** [textureGranularStretch(input, output, ratio)], started after [k]
    calls to [Math.random]; returns the new [output] and the call count. *)
Definition textureGranularStretch (input output : f32array) (ratio : num) (k : nat)
  : outcome (f32array * nat) :=
  textureSynth input output ratio k >>= fun r =>
  Ret (normalizeClip (fst r), snd r).

(** One frame of [phaseVocoderStretch]. *)
Definition frameStep (input : f32array) (fftSize inStart outputPos : num)
    (window : option GrainWindow) (st : Z * f32array)
  : outcome (ctl (Z * f32array)) :=
  let '(i, output) := st in
  if lt (ofZ i) fftSize && lt (add outputPos (ofZ i)) (len output) then
    windowOf window >>= fun w =>
    let winIdx := floor (mul (div (ofZ i) fftSize) (size w)) in
    let k := add outputPos (ofZ i) in
    Ret (Next (i + 1,
               aset output k
                 (add (aget output k)
                      (mul (aget input (add inStart (ofZ i)))
                           (aget (data w) winIdx)))))
  else Ret (Done st).

Definition vocoderStep (input : f32array) (fftSize hopIn hopOut : num)
    (window : option GrainWindow) (st : num * num * f32array)
  : outcome (ctl (num * num * f32array)) :=
  let '(inputPos, outputPos, output) := st in
  if lt outputPos (sub (len output) fftSize) then
    let inStart := floor inputPos in
    if ge inStart (sub (len input) fftSize) then Ret (Done st)
    else
      iterate fuel (frameStep input fftSize inStart outputPos window) (0, output)
      >>= fun r =>
      Ret (Next (add inputPos hopIn, add outputPos hopOut, snd r))
  else Ret (Done st).

(** [phaseVocoderStretch(input, output, ratio)]: overlap-add with frames
    of 2048 samples. *)
Definition phaseVocoderStretch (input output : f32array) (ratio : num)
  : outcome f32array :=
  let fftSize := ofZ 2048 in
  let hopIn := div fftSize (ofZ 4) in
  let hopOut := floor (Binary64.mul hopIn ratio) in
  let window := getGrainWindow e fftSize in
  iterate fuel (vocoderStep input fftSize hopIn hopOut window)
          (ofZ 0, ofZ 0, fillZero output)
  >>= fun r => Ret (normalizeFull (snd r)).

End Granular.

(** ** Host objects used by [process] *)

(** [AudioContext.createBuffer(channels, length, sampleRate)], after the Web
    Audio API: zero-filled channels; a channel count or a length that is
    not a positive integer is refused with an exception. *)
Definition createBuffer (channels : nat) (length : num) (rate : num)
  : outcome AudioBuffer :=
  match toIndex length with
  | Some n =>
      if (1 <=? n) && (1 <=? Z.of_nat channels) then
        Ret {| sampleRate := rate; bufLength := n;
               channelData := repeat (repeat (ofZ 0) (Z.to_nat n)) channels |}
      else Throw
  | None => Throw
  end.

(** [new Float32Array(n)]: NaN counts as 0, a negative or infinite length
    is a RangeError. *)
Definition newFloat32Array (n : num) : outcome f32array :=
  match n with
  | NaN => Ret []
  | Fin q => if Qle_bool 0 (inject_Z (Qtrunc q))
             then Ret (repeat (ofZ 0) (Z.to_nat (Qtrunc q))) else Throw
  | _ => Throw
  end.

(** A relative index of [slice], clamped into [0, length]. *)
Definition clampIndex (n : nat) (i : num) : Z :=
  match i with
  | NaN => 0
  | NInf => 0
  | PInf => Z.of_nat n
  | Fin q =>
      let r := Qtrunc q in
      if r <? 0 then Z.max (Z.of_nat n + r) 0 else Z.min r (Z.of_nat n)
  end.

(** [array.slice(start, end)]. *)
Definition slice (a : f32array) (start stop : num) : f32array :=
  let k := clampIndex (length a) start in
  let final := clampIndex (length a) stop in
  firstn (Z.to_nat (Z.max (final - k) 0)) (skipn (Z.to_nat k) a).

(** ** The stretch modes *)
Section Process.
Variable fuel : nat.
Variable rnd : nat -> Q.
Variable e : Engine.

(** The copy loop of beats mode:
    [for (j = 0; j < targetLength && outputPos + j < outputLength; j++)]. *)
Definition copyStep (segmentOut : f32array) (targetLength outputPos outputLength : num)
    (st : Z * f32array) : outcome (ctl (Z * f32array)) :=
  let '(j, outputData) := st in
  if lt (ofZ j) targetLength && lt (add outputPos (ofZ j)) outputLength then
    Ret (Next (j + 1, aset outputData (add outputPos (ofZ j)) (aget segmentOut (ofZ j))))
  else Ret (Done st).

(** One marker pair of beats mode; the state is [(outputPos, outputData)]. *)
Definition segmentBody (rate stretchRatio outputLength : num) (inputData : f32array)
    (st : num * f32array) (pair : WarpMarker * WarpMarker)
  : outcome (num * f32array) :=
  let '(outputPos, outputData) := st in
  let '(startMarker, endMarker) := pair in
  let inputStart := floor (Binary64.mul (sampleTime startMarker) rate) in
  let inputEnd := floor (Binary64.mul (sampleTime endMarker) rate) in
  let inputLength := Binary64.sub inputEnd inputStart in
  let targetStart :=
    Binary64.beatsToSeconds (Binary64.mul (beatTime startMarker) stretchRatio)
      (originalBPM (settings e)) in
  let targetEnd :=
    Binary64.beatsToSeconds (Binary64.mul (beatTime endMarker) stretchRatio)
      (originalBPM (settings e)) in
  let targetLength := floor (Binary64.mul (Binary64.sub targetEnd targetStart) rate) in
  let segmentIn := slice inputData inputStart inputEnd in
  newFloat32Array targetLength >>= fun segmentOut0 =>
  granularStretch fuel e segmentIn segmentOut0 (Binary64.div targetLength inputLength)
  >>= fun segmentOut =>
  iterate fuel (copyStep segmentOut targetLength outputPos outputLength) (0, outputData)
  >>= fun r =>
  Ret (add outputPos targetLength, snd r).

(** Consecutive pairs [(markers[i], markers[i + 1])]. *)
Fixpoint pairs (ms : list WarpMarker) : list (WarpMarker * WarpMarker) :=
  match ms with
  | a :: ((b :: _) as tl) => (a, b) :: pairs tl
  | _ => []
  end.

(** The body of the channel loop of beats mode: the new content of the
    output channel. *)
Definition beatsChannel (rate stretchRatio outputLength : num)
    (inputData outputData : f32array) : outcome f32array :=
  let ms := markers (settings e) in
  if (length ms <? 2)%nat then
    granularStretch fuel e inputData outputData stretchRatio
  else
    forEach (pairs ms) (segmentBody rate stretchRatio outputLength inputData)
            (ofZ 0, outputData)
    >>= fun r => Ret (snd r).

(** Runs [body] on every channel pair of source and output buffer, in
    channel order, and stores the results in the output buffer. *)
Definition eachChannel (src out : AudioBuffer)
    (body : f32array -> f32array -> outcome f32array) : outcome AudioBuffer :=
  forEach (seq 0 (numberOfChannels src))
          (fun (chans : list f32array) (ch : nat) =>
             body (nth ch (channelData src) []) (nth ch chans [])
             >>= fun o => Ret (<[ch := o]> chans))
          (channelData out)
  >>= fun chans =>
  Ret {| sampleRate := sampleRate out; bufLength := bufLength out;
         channelData := chans |}.

Definition processBeatsMode (targetDuration stretchRatio : num) : outcome AudioBuffer :=
  match sourceBuffer e with
  | None => Throw
  | Some src =>
      let rate := sampleRate src in
      let channels := numberOfChannels src in
      let outputLength := floor (Binary64.mul targetDuration rate) in
      createBuffer channels outputLength rate >>= fun outputBuffer =>
      eachChannel src outputBuffer (beatsChannel rate stretchRatio outputLength)
  end.

Definition processTonesMode (targetDuration stretchRatio : num) : outcome AudioBuffer :=
  match sourceBuffer e with
  | None => Throw
  | Some src =>
      let rate := sampleRate src in
      let channels := numberOfChannels src in
      let outputLength := floor (Binary64.mul targetDuration rate) in
      createBuffer channels outputLength rate >>= fun outputBuffer =>
      eachChannel src outputBuffer
        (fun inputData outputData =>
           phaseVocoderStretch fuel e inputData outputData stretchRatio)
  end.

(** Texture mode threads the count of [Math.random] calls through the
    channels. *)
Definition processTextureMode (targetDuration stretchRatio : num) : outcome AudioBuffer :=
  match sourceBuffer e with
  | None => Throw
  | Some src =>
      let rate := sampleRate src in
      let channels := numberOfChannels src in
      let outputLength := floor (Binary64.mul targetDuration rate) in
      createBuffer channels outputLength rate >>= fun outputBuffer =>
      forEach (seq 0 channels)
              (fun (st : list f32array * nat) (ch : nat) =>
                 textureGranularStretch fuel e rnd
                   (nth ch (channelData src) []) (nth ch (fst st) []) stretchRatio (snd st)
                 >>= fun r => Ret (<[ch := fst r]> (fst st), snd r))
              (channelData outputBuffer, O)
      >>= fun st =>
      Ret {| sampleRate := sampleRate outputBuffer; bufLength := bufLength outputBuffer;
             channelData := fst st |}
  end.

Definition processComplexMode (targetDuration stretchRatio : num) : outcome AudioBuffer :=
  processTonesMode targetDuration stretchRatio.

Definition processRepitchMode (targetDuration stretchRatio : num) : outcome AudioBuffer :=
  match sourceBuffer e with
  | None => Throw
  | Some src => Ret src
  end.

(** [process(targetDuration)]: [Ret None] is the promise resolved with
    [null], [Throw] a rejected promise. *)
Definition process (targetDuration : num) : outcome (option AudioBuffer) :=
  match sourceBuffer e with
  | None => Ret None
  | Some src =>
      if negb (enabled (settings e)) then Ret (Some src)
      else
        let sourceDuration := duration src in
        let stretchRatio := Binary64.div targetDuration sourceDuration in
        match mode (settings e) with
        | ModeBeats =>
            processBeatsMode targetDuration stretchRatio >>= fun b => Ret (Some b)
        | ModeTones =>
            processTonesMode targetDuration stretchRatio >>= fun b => Ret (Some b)
        | ModeTexture =>
            processTextureMode targetDuration stretchRatio >>= fun b => Ret (Some b)
        | ModeComplex =>
            processComplexMode targetDuration stretchRatio >>= fun b => Ret (Some b)
        | ModeRepitch =>
            processRepitchMode targetDuration stretchRatio >>= fun b => Ret (Some b)
        | ModeOff => Ret (Some src)
        end
  end.

End Process.

(** ** Warp map *)


(** The marker loop of [sampleToBeat]: the first pair of neighbours that
    brackets [t], interpolated. *)
Fixpoint sampleToBeatLoop (ms : list WarpMarker) (t : num) : option num :=
  match ms with
  | a :: ((b :: _) as tl) =>
      if ge t (sampleTime a) && le t (sampleTime b) then
        let sampleRange := sub (sampleTime b) (sampleTime a) in
        let beatRange := sub (beatTime b) (beatTime a) in
        let u := div (sub t (sampleTime a)) sampleRange in
        Some (add (beatTime a) (mul u beatRange))
      else sampleToBeatLoop tl t
  | _ => None
  end.

Definition sampleToBeat (e : Engine) (t : num) : num :=
  let ms := markers (settings e) in
  if (length ms <? 2)%nat then secondsToBeats t (originalBPM (settings e))
  else
    match sampleToBeatLoop ms t with
    | Some b => b
    | None =>
        match last (A := WarpMarker) ms with
        | Some l =>
            add (beatTime l)
                (secondsToBeats (sub t (sampleTime l)) (originalBPM (settings e)))
        | None => NaN
        end
    end.




(** ** Markers *)

Definition setMarkers (e : Engine) (ms : list WarpMarker) : Engine :=
  let s := settings e in
  {| sourceBuffer := sourceBuffer e;
     settings := {| enabled := enabled s; mode := mode s; originalBPM := originalBPM s;
                    markers := ms;
                    transientSensitivity := transientSensitivity s;
                    grainSize := grainSize s; preservePitch := preservePitch s |};
     grainWindows := grainWindows e |}.

(** The comparator of [addMarker] says that [a] goes after [b]:
    [a.sampleTime - b.sampleTime > 0]. *)
Definition comesAfter (a b : WarpMarker) : bool :=
  gt (sub (sampleTime a) (sampleTime b)) (ofZ 0).

(** [markers.sort((a, b) => a.sampleTime - b.sampleTime)].  The host's sort
    is stable, so with a consistent comparator its result is the one of
    this insertion sort. *)
Fixpoint insertMarker (x : WarpMarker) (l : list WarpMarker) : list WarpMarker :=
  match l with
  | [] => [x]
  | y :: l' => if comesAfter x y then y :: insertMarker x l' else x :: l
  end.

Definition sortMarkers (l : list WarpMarker) : list WarpMarker :=
  fold_right insertMarker [] l.

(** [addMarker(sampleTime, beatTime)]; [id] is what [generateId()] returns.
    The result is the engine and the marker handed back. *)
Definition addMarker (e : Engine) (id : string) (st bt : num) : Engine * WarpMarker :=
  let marker := {| markerId := id; sampleTime := st; beatTime := bt |} in
  (setMarkers e (sortMarkers (markers (settings e) ++ [marker])), marker).

Definition removeMarker (e : Engine) (id : string) : Engine :=
  setMarkers e
    (List.filter (fun m => negb (String.eqb (markerId m) id)) (markers (settings e))).

(** ** Transient detection *)
Section Transients.
(** [Math.sqrt] on the non-negative rationals is not rational; [sqrt]
    stands for it. *)
Variable sqrt : Q -> Q.
(** [generateId()]: the [k]-th call that [autoDetectMarkers] makes returns
    [ids k]. *)
Variable ids : nat -> string.

Definition msqrt (a : num) : num :=
  match a with
  | Fin q => if Qle_bool 0 q then Fin (sqrt q) else NaN
  | PInf => PInf
  | _ => NaN
  end.

(** The energy of the 512-sample frame that starts at [i]. *)
Definition frameEnergy (data : f32array) (i : Z) : num :=
  let energy :=
    fold_left (fun e (j : nat) =>
                 let x := getZ data (i + Z.of_nat j) in add e (mul x x))
              (seq 0 512) (ofZ 0) in
  msqrt (div energy (ofZ 512)).

(** The values of [i] in [for (i = 0; i < limit; i += 128)]; [fuel] bounds
    their number. *)
Fixpoint frameStarts (fuel : nat) (i limit : Z) : list Z :=
  match fuel with
  | O => []
  | S fuel' => if i <? limit then i :: frameStarts fuel' (i + 128) limit else []
  end.

(** One pass of the loop of [detectTransients]; the state is
    [(transients, previousEnergy, lastTransientFrame)]. *)
Definition detectStep (data : f32array) (rate threshold minFrames : num)
    (st : list num * num * num) (i : Z) : list num * num * num :=
  let '(transients, previousEnergy, lastTransientFrame) := st in
  let energy := frameEnergy data i in
  let flux := max (ofZ 0) (sub energy previousEnergy) in
  let frameIndex := floor (div (ofZ i) (ofZ 128)) in
  if gt flux threshold && gt (sub frameIndex lastTransientFrame) minFrames
  then (transients ++ [div (ofZ i) rate], energy, frameIndex)
  else (transients, energy, lastTransientFrame).

(** [detectTransients(data, sampleRate)]. *)
Definition detectTransients (e : Engine) (data : f32array) (rate : num) : list num :=
  let threshold := mul (Fin (1 # 10)) (transientSensitivity (settings e)) in
  let minFrames := floor (div (mul rate (Fin (1 # 20))) (ofZ 128)) in
  fst (fst (fold_left (detectStep data rate threshold minFrames)
                      (frameStarts (length data) 0 (Z.of_nat (length data) - 512))
                      ([ofZ 0], ofZ 0, ofZ 0))).

(** [autoDetectMarkers()]: one marker per transient of the first channel. *)
Definition autoDetectMarkers (e : Engine) : Engine :=
  match sourceBuffer e with
  | None => e
  | Some b =>
      let data := nth 0 (channelData b) [] in
      let transients := detectTransients e data (sampleRate b) in
      setMarkers e
        (imap (fun index time =>
                 {| markerId := ids index; sampleTime := time;
                    beatTime := secondsToBeats time (originalBPM (settings e)) |})
              transients)
  end.

End Transients.

(** ** Notions used by the properties *)

(** A sample that is a number: neither NaN nor infinite. *)
Definition finite (x : num) : Prop := exists q, x = Fin q.

(** A sample of absolute value at most 1. *)
Definition within1 (x : num) : Prop := exists q, x = Fin q /\ (Qabs q <= 1)%Q.

(** A number that is the integer [z]. *)
Definition intValued (x : num) (z : Z) : Prop :=
  exists q, x = Fin q /\ (q == inject_Z z)%Q.

(** A window as the constructor builds them: [size] is the length of
    [data], which is not empty and holds numbers. *)
Definition windowOk (w : GrainWindow) : Prop :=
  size w = ofNat (length (data w)) /\ (0 < length (data w))%nat /\ Forall finite (data w).

(** Every window of the engine's table is as built. *)
Definition windowsOk (e : Engine) : Prop :=
  forall k w, In (k, w) (grainWindows e) -> windowOk w.

(** Window coefficients within [-1, 1], as the Hann coefficients are. *)
Definition unitWindows (e : Engine) : Prop :=
  forall k w, In (k, w) (grainWindows e) -> Forall within1 (data w).

(** What the read indices of one grain rest on: a positive finite grain
    size and an integer start with a whole grain of input after it. *)
Definition grainFacts (input : f32array) (gs inStart : num) : Prop :=
  exists g s, gs = Fin g /\ (0 < g)%Q /\ intValued inStart s /\ (0 <= s)%Z /\
              (inject_Z s + g < inject_Z (Z.of_nat (length input)))%Q.

(** Markers in order of sample time. *)
Fixpoint inOrder (ms : list WarpMarker) : Prop :=
  match ms with
  | a :: ((b :: _) as tl) => le (sampleTime a) (sampleTime b) = true /\ inOrder tl
  | _ => True
  end.

(** Strictly increasing rationals. *)
Fixpoint ascending (xs : list Q) : Prop :=
  match xs with
  | a :: ((b :: _) as tl) => (a < b)%Q /\ ascending tl
  | _ => True
  end.

(** A marker position given by two rationals. *)
Definition finPoint (p : Q * Q) : num * num := (Fin (fst p), Fin (snd p)).

(** The markers [ms] sit at the rational positions [pts]. *)
Definition placed (ms : list WarpMarker) (pts : list (Q * Q)) : Prop :=
  map (fun m => (sampleTime m, beatTime m)) ms = map finPoint pts.

(** What is left of the input for the overlap-add loops: frames from the
    read position to the end. *)
Definition framesLeft (input : f32array) (st : num * num * f32array) : nat :=
  match fst (fst st) with
  | Fin q => Z.to_nat (Z.of_nat (length input) - Qfloor q)
  | _ => O
  end.

(** Times in seconds, each more than 50 ms after the one before. *)
Fixpoint spaced (ts : list num) : Prop :=
  match ts with
  | a :: ((b :: _) as tl) =>
      (exists x y, a = Fin x /\ b = Fin y /\ (x + (1 # 20) < y)%Q) /\ spaced tl
  | _ => True
  end.

End WarpEngine.

(** ** ClipLauncher: the session clip scheduler *)
Module ClipLauncher.
Import JS Types.

Inductive ClipType : Type := Audio | Midi.

Inductive FollowActionType : Type :=
  | FANone | FAStop | FAPlayAgain | FAPrevious | FANext
  | FAFirst | FALast | FAAny | FAOther | FAJump.

Record FollowAction : Type := mkFollowAction {
  action : FollowActionType;
  chance : num;
  jumpTarget : option string
}.

Record FollowActionPair : Type := mkFollowPair {
  actionA : FollowAction;
  actionB : FollowAction;
  time : num;
  linked : bool
}.

(** The fields of a [Clip] that the launcher reads.  Regions and notes only
    feed the host's audio nodes and MIDI output, which are not modelled. *)
Record Clip : Type := mkClip {
  clipId : string;
  clipType : ClipType;
  duration : num;
  loopEnabled : option bool;
  loopEnd : option num;
  legato : option LegatoMode;
  followAction : option FollowActionPair
}.

(** A [ScheduledClip] object.  Its audio sources and scheduled MIDI events
    belong to the host side and are left out. *)
Record ScheduledClip : Type := mkScheduled {
  trackId : string;
  slotIndex : Z;
  clip : Clip;
  state : ClipState;
  launchTime : num;
  stopTime : option num;
  loopCount : Z
}.

Inductive ClipLauncherEvent : Type :=
  | ClipStarted (track : string) (slot : Z)
  | ClipStopped (track : string) (slot : Z)
  | ClipLooped (track : string) (slot : Z) (count : Z)
  | FollowActionFired (track : string) (slot : Z) (a : FollowAction).

Inductive TransportState : Type :=
  | TStopped | TPlaying | TRecording | TPaused.

(** A [Map<string, ScheduledClip>]: entries in insertion order, each value
    a reference into the heap of [ScheduledClip] objects. *)
Definition jsmap : Type := list (string * nat).

Fixpoint mapGet (m : jsmap) (k : string) : option nat :=
  match m with
  | [] => None
  | (k', v) :: m' => if String.eqb k' k then Some v else mapGet m' k
  end.

(** [set]: an existing key keeps its place. *)
Fixpoint mapSet (m : jsmap) (k : string) (v : nat) : jsmap :=
  match m with
  | [] => [(k, v)]
  | (k', v') :: m' =>
      if String.eqb k' k then (k', v) :: m' else (k', v') :: mapSet m' k v
  end.

Definition mapDelete (m : jsmap) (k : string) : jsmap :=
  List.filter (fun kv => negb (String.eqb (fst kv) k)) m.

(** The launcher: the heap of scheduled clips, the three maps of
    [ClipLauncherState], the transport fields, the host clock
    ([context.currentTime]), the events emitted so far and the number of
    calls made to [Math.random]. *)
Record Launcher : Type := mkLauncher {
  heap : list ScheduledClip;
  playing : jsmap;
  triggered : jsmap;
  stopping : jsmap;
  bpm : num;
  globalQuantization : LaunchQuantization;
  transportState : TransportState;
  position : num;
  startTime : num;
  currentTime : num;
  events : list ClipLauncherEvent;
  randomCalls : nat
}.

Definition initial : Launcher :=
  {| heap := []; playing := []; triggered := []; stopping := [];
     bpm := ofZ 120; globalQuantization := Q1Bar; transportState := TStopped;
     position := ofZ 0; startTime := ofZ 0; currentTime := ofZ 0;
     events := []; randomCalls := O |}.

(** Field updates. *)
Definition withHeap (l : Launcher) (h : list ScheduledClip) : Launcher :=
  {| heap := h; playing := playing l; triggered := triggered l;
     stopping := stopping l; bpm := bpm l;
     globalQuantization := globalQuantization l;
     transportState := transportState l; position := position l;
     startTime := startTime l; currentTime := currentTime l;
     events := events l; randomCalls := randomCalls l |}.

Definition withPlaying (l : Launcher) (m : jsmap) : Launcher :=
  {| heap := heap l; playing := m; triggered := triggered l;
     stopping := stopping l; bpm := bpm l;
     globalQuantization := globalQuantization l;
     transportState := transportState l; position := position l;
     startTime := startTime l; currentTime := currentTime l;
     events := events l; randomCalls := randomCalls l |}.

Definition withTriggered (l : Launcher) (m : jsmap) : Launcher :=
  {| heap := heap l; playing := playing l; triggered := m;
     stopping := stopping l; bpm := bpm l;
     globalQuantization := globalQuantization l;
     transportState := transportState l; position := position l;
     startTime := startTime l; currentTime := currentTime l;
     events := events l; randomCalls := randomCalls l |}.

Definition withStopping (l : Launcher) (m : jsmap) : Launcher :=
  {| heap := heap l; playing := playing l; triggered := triggered l;
     stopping := m; bpm := bpm l;
     globalQuantization := globalQuantization l;
     transportState := transportState l; position := position l;
     startTime := startTime l; currentTime := currentTime l;
     events := events l; randomCalls := randomCalls l |}.

Definition withTransport (l : Launcher) (ts : TransportState) (pos start : num)
  : Launcher :=
  {| heap := heap l; playing := playing l; triggered := triggered l;
     stopping := stopping l; bpm := bpm l;
     globalQuantization := globalQuantization l;
     transportState := ts; position := pos;
     startTime := start; currentTime := currentTime l;
     events := events l; randomCalls := randomCalls l |}.

Definition withRandomCalls (l : Launcher) (n : nat) : Launcher :=
  {| heap := heap l; playing := playing l; triggered := triggered l;
     stopping := stopping l; bpm := bpm l;
     globalQuantization := globalQuantization l;
     transportState := transportState l; position := position l;
     startTime := startTime l; currentTime := currentTime l;
     events := events l; randomCalls := n |}.

(** [emit]: the event goes to every listener; the model keeps the stream. *)
Definition emit (l : Launcher) (ev : ClipLauncherEvent) : Launcher :=
  {| heap := heap l; playing := playing l; triggered := triggered l;
     stopping := stopping l; bpm := bpm l;
     globalQuantization := globalQuantization l;
     transportState := transportState l; position := position l;
     startTime := startTime l; currentTime := currentTime l;
     events := events l ++ [ev]; randomCalls := randomCalls l |}.

(** Mutation of one scheduled clip through its reference. *)
Definition setState (s : ClipState) (sc : ScheduledClip) : ScheduledClip :=
  {| trackId := trackId sc; slotIndex := slotIndex sc; clip := clip sc;
     state := s; launchTime := launchTime sc; stopTime := stopTime sc;
     loopCount := loopCount sc |}.

Definition setStopTime (t : option num) (sc : ScheduledClip) : ScheduledClip :=
  {| trackId := trackId sc; slotIndex := slotIndex sc; clip := clip sc;
     state := state sc; launchTime := launchTime sc; stopTime := t;
     loopCount := loopCount sc |}.

Definition incLoopCount (sc : ScheduledClip) : ScheduledClip :=
  {| trackId := trackId sc; slotIndex := slotIndex sc; clip := clip sc;
     state := state sc; launchTime := launchTime sc; stopTime := stopTime sc;
     loopCount := loopCount sc + 1 |}.

Definition mutate (l : Launcher) (r : nat) (f : ScheduledClip -> ScheduledClip)
  : Launcher := withHeap l (alter f r (heap l)).

(** ** Configuration and transport *)

Definition setBPM (l : Launcher) (b : num) : Launcher :=
  {| heap := heap l; playing := playing l; triggered := triggered l;
     stopping := stopping l; bpm := b;
     globalQuantization := globalQuantization l;
     transportState := transportState l; position := position l;
     startTime := startTime l; currentTime := currentTime l;
     events := events l; randomCalls := randomCalls l |}.

Definition setGlobalQuantization (l : Launcher) (q : LaunchQuantization) : Launcher :=
  {| heap := heap l; playing := playing l; triggered := triggered l;
     stopping := stopping l; bpm := bpm l;
     globalQuantization := q;
     transportState := transportState l; position := position l;
     startTime := startTime l; currentTime := currentTime l;
     events := events l; randomCalls := randomCalls l |}.

(** The host moves [context.currentTime]. *)
Definition setClock (l : Launcher) (t : num) : Launcher :=
  {| heap := heap l; playing := playing l; triggered := triggered l;
     stopping := stopping l; bpm := bpm l;
     globalQuantization := globalQuantization l;
     transportState := transportState l; position := position l;
     startTime := startTime l; currentTime := t;
     events := events l; randomCalls := randomCalls l |}.

Definition isTPlaying (ts : TransportState) : bool :=
  match ts with TPlaying => true | _ => false end.

Definition getPosition (l : Launcher) : num :=
  if isTPlaying (transportState l) then
    let elapsed := sub (currentTime l) (startTime l) in
    add (position l) (secondsToBeats elapsed (bpm l))
  else position l.

(** ** Starting and stopping scheduled clips *)

(** [startClip(scheduled)]. *)
Definition startClip (l : Launcher) (r : nat) : Launcher :=
  match heap l !! r with
  | None => l
  | Some sc =>
      let l1 := mutate l r (setState Playing) in
      let l2 := withPlaying l1 (mapSet (playing l1) (trackId sc) r) in
      emit l2 (ClipStarted (trackId sc) (slotIndex sc))
  end.

(** [stopScheduledClip(scheduled)]. *)
Definition stopScheduledClip (l : Launcher) (r : nat) : Launcher :=
  match heap l !! r with
  | None => l
  | Some sc =>
      let l1 := mutate l r (setState Stopped) in
      emit l1 (ClipStopped (trackId sc) (slotIndex sc))
  end.

Definition resolveQ (l : Launcher) (quantization : LaunchQuantization)
  : LaunchQuantization :=
  match quantization with
  | QGlobal => globalQuantization l
  | other => other
  end.

Definition isNone (q : LaunchQuantization) : bool :=
  match q with QNone => true | _ => false end.

Definition isLegato (c : Clip) : bool :=
  match legato c with Some Legato => true | _ => false end.

(** [launchClip(trackId, slotIndex, clip, quantization)]. *)
Definition launchClip (l : Launcher) (track : string) (slot : Z) (c : Clip)
    (quantization : LaunchQuantization) : Launcher :=
  let q := resolveQ l quantization in
  let currentPos := getPosition l in
  let launchT := getNextQuantizedBeat currentPos q (bpm l) in
  let currentlyPlaying := mapGet (playing l) track in
  let scheduled :=
    {| trackId := track; slotIndex := slot; clip := c; state := Triggered;
       launchTime :=
         match currentlyPlaying with
         | Some _ => if isLegato c then currentPos else launchT
         | None => launchT
         end;
       stopTime := None; loopCount := 0 |} in
  let r := length (heap l) in
  let l1 := withHeap l (heap l ++ [scheduled]) in
  let l2 :=
    match currentlyPlaying with
    | Some p =>
        let l' := mutate l1 p (setStopTime (Some launchT)) in
        withStopping l' (mapSet (stopping l') track p)
    | None => l1
    end in
  let l3 := withTriggered l2 (mapSet (triggered l2) track r) in
  if isNone q || le launchT currentPos then startClip l3 r else l3.

(** [stopClip(trackId, quantization)]. *)
Definition stopClip (l : Launcher) (track : string) (quantization : LaunchQuantization)
  : Launcher :=
  let q := resolveQ l quantization in
  let currentPos := getPosition l in
  let stopT := getNextQuantizedBeat currentPos q (bpm l) in
  let l3 :=
    match mapGet (playing l) track with
    | Some p =>
        let l1 := mutate (mutate l p (setState Stopping)) p (setStopTime (Some stopT)) in
        let l2 := withStopping l1 (mapSet (stopping l1) track p) in
        if isNone q || le stopT currentPos then
          let l' := stopScheduledClip l2 p in
          let l'' := withPlaying l' (mapDelete (playing l') track) in
          withStopping l'' (mapDelete (stopping l'') track)
        else l2
    | None => l
    end in
  withTriggered l3 (mapDelete (triggered l3) track).

(** One entry of a scene. *)
Record SceneClip : Type := mkSceneClip {
  sceneTrack : string;
  sceneSlot : Z;
  sceneClip : Clip
}.

(** [launchScene(clips, quantization)]. *)
Definition launchScene (l : Launcher) (clips : list SceneClip)
    (quantization : LaunchQuantization) : Launcher :=
  fold_left
    (fun acc sc => launchClip acc (sceneTrack sc) (sceneSlot sc) (sceneClip sc) quantization)
    clips l.

(** [stopAll(quantization)]; [stopClip] removes at most the entry being
    visited, so the loop sees the entries it started with. *)
Definition stopAll (l : Launcher) (quantization : LaunchQuantization) : Launcher :=
  let l1 := fold_left (fun acc kv => stopClip acc (fst kv) quantization) (playing l) l in
  withTriggered l1 [].

(** [start(position)]. *)
Definition start (l : Launcher) (pos : num) : Launcher :=
  if isTPlaying (transportState l) then l
  else withTransport l TPlaying pos (currentTime l).

(** [stop()]. *)
Definition stop (l : Launcher) : Launcher :=
  let l1 := withTransport l TStopped (position l) (startTime l) in
  let l2 := fold_left (fun acc kv => stopScheduledClip acc (snd kv)) (playing l1) l1 in
  withStopping (withTriggered (withPlaying l2 []) []) [].

(** [pause()]: the transport state changes before the position is read. *)
Definition pause (l : Launcher) : Launcher :=
  let l1 := withTransport l TPaused (position l) (startTime l) in
  withTransport l1 TPaused (getPosition l1) (startTime l1).

(** ** The ticker *)
Section Tick.
(** [Math.random()]: its [k]-th call returns [rnd k]. *)
Variable rnd : nat -> Q.

(** [processFollowAction(scheduled, followAction)]. *)
Definition processFollowAction (l : Launcher) (sc : ScheduledClip)
    (fa : FollowActionPair) : Launcher :=
  let random := Fin (rnd (randomCalls l)) in
  let l1 := withRandomCalls l (S (randomCalls l)) in
  let a := if le random (chance (actionA fa)) then actionA fa else actionB fa in
  match action a with
  | FANone => l1
  | other =>
      let l2 := emit l1 (FollowActionFired (trackId sc) (slotIndex sc) a) in
      match other with
      | FAStop => stopClip l2 (trackId sc) QNone
      | _ => l2
      end
  end.

Definition loopsOn (c : Clip) : bool :=
  match loopEnabled c with Some false => false | _ => true end.

Definition loopEndOf (c : Clip) : num :=
  match loopEnd c with
  | Some x => orElse x (duration c)
  | None => duration c
  end.

(** [processPlayingClip(scheduled, pos, now)], without the MIDI dispatch. *)
Definition processPlayingClip (l : Launcher) (r : nat) (pos : num) : Launcher :=
  match heap l !! r with
  | None => l
  | Some sc =>
      let clipDuration := duration (clip sc) in
      let clipPos := sub pos (launchTime sc) in
      if loopsOn (clip sc) then
        if ge clipPos (mul (loopEndOf (clip sc)) (ofZ (loopCount sc + 1))) then
          let l1 := mutate l r incLoopCount in
          let l2 := emit l1 (ClipLooped (trackId sc) (slotIndex sc) (loopCount sc + 1)) in
          match followAction (clip sc) with
          | Some fa => processFollowAction l2 sc fa
          | None => l2
          end
        else l
      else if ge clipPos clipDuration then
        let l1 := stopScheduledClip l r in
        withPlaying l1 (mapDelete (playing l1) (trackId sc))
      else l
  end.

(** The three loops of [tick]; each visits the entries its map holds when
    the loop starts, and the last one skips an entry that an earlier pass
    has deleted. *)
Definition tickTriggered (pos : num) (l : Launcher) (kv : string * nat) : Launcher :=
  match heap l !! snd kv with
  | None => l
  | Some sc =>
      if ge pos (launchTime sc) then
        let l1 := startClip l (snd kv) in
        withTriggered l1 (mapDelete (triggered l1) (fst kv))
      else l
  end.

Definition tickStopping (pos : num) (l : Launcher) (kv : string * nat) : Launcher :=
  match heap l !! snd kv with
  | None => l
  | Some sc =>
      match stopTime sc with
      | Some t =>
          if ge pos t then
            let l1 := stopScheduledClip l (snd kv) in
            let l2 := withPlaying l1 (mapDelete (playing l1) (fst kv)) in
            withStopping l2 (mapDelete (stopping l2) (fst kv))
          else l
      | None => l
      end
  end.

Definition tickPlaying (pos : num) (l : Launcher) (kv : string * nat) : Launcher :=
  match mapGet (playing l) (fst kv) with
  | Some r => if Nat.eqb r (snd kv) then processPlayingClip l r pos else l
  | None => l
  end.

(** One animation frame of the ticker. *)
Definition tick (l : Launcher) : Launcher :=
  if isTPlaying (transportState l) then
    let pos := getPosition l in
    let l1 := fold_left (tickTriggered pos) (triggered l) l in
    let l2 := fold_left (tickStopping pos) (stopping l1) l1 in
    fold_left (tickPlaying pos) (playing l2) l2
  else l.

(** ** Sequences of calls *)
Inductive call : Type :=
  | CallLaunchClip (track : string) (slot : Z) (c : Clip) (q : LaunchQuantization)
  | CallStopClip (track : string) (q : LaunchQuantization)
  | CallLaunchScene (clips : list SceneClip) (q : LaunchQuantization)
  | CallStopAll (q : LaunchQuantization)
  | CallStart (pos : num)
  | CallStop
  | CallPause
  | CallSetBPM (b : num)
  | CallSetGlobalQuantization (q : LaunchQuantization)
  | Clock (t : num)
  | Tick.

Definition step (l : Launcher) (c : call) : Launcher :=
  match c with
  | CallLaunchClip t s c q => launchClip l t s c q
  | CallStopClip t q => stopClip l t q
  | CallLaunchScene cs q => launchScene l cs q
  | CallStopAll q => stopAll l q
  | CallStart p => start l p
  | CallStop => stop l
  | CallPause => pause l
  | CallSetBPM b => setBPM l b
  | CallSetGlobalQuantization q => setGlobalQuantization l q
  | Clock t => setClock l t
  | Tick => tick l
  end.

Definition run (cs : list call) (l : Launcher) : Launcher := fold_left step cs l.

End Tick.

(** ** Queries *)

Definition ClipState_eqb (a b : ClipState) : bool :=
  match a, b with
  | Stopped, Stopped | Playing, Playing | Recording, Recording
  | Triggered, Triggered | Stopping, Stopping => true
  | _, _ => false
  end.

(** [getClipState(trackId, slotIndex)]. *)
Definition getClipState (l : Launcher) (track : string) (slot : Z) : ClipState :=
  let lookup (m : jsmap) :=
    match mapGet m track with
    | Some r =>
        match heap l !! r with
        | Some sc => if slotIndex sc =? slot then Some sc else None
        | None => None
        end
    | None => None
    end in
  match lookup (playing l) with
  | Some sc => state sc
  | None =>
      match lookup (triggered l) with
      | Some _ => Triggered
      | None =>
          match lookup (stopping l) with
          | Some _ => Stopping
          | None => Stopped
          end
      end
  end.

(** [isPlaying(trackId)]. *)
Definition isPlaying (l : Launcher) (track : string) : bool :=
  match mapGet (playing l) track with Some _ => true | None => false end.

(** The scheduled clips of a track whose [state] field is [s], by
    reference, in order of creation. *)
Definition clipsInState (l : Launcher) (track : string) (s : ClipState) : list nat :=
  List.filter
    (fun r =>
       match heap l !! r with
       | Some sc => String.eqb (trackId sc) track && ClipState_eqb (state sc) s
       | None => false
       end)
    (seq 0 (length (heap l))).


(** ** Notions used by the properties *)

(** The launch beats of all scheduled clips, by reference. *)
Definition launchTimes (l : Launcher) : list num := map launchTime (heap l).

(** The launch beats of the scheduled clips that [launchScene] creates, in
    the order of the scene. *)
Definition sceneLaunchBeats (l : Launcher) (clips : list SceneClip) (q : LaunchQuantization) : list num :=
  skipn (length (heap l)) (launchTimes (launchScene l clips q)).

(** Two launchers agree on everything [getPosition] and the quantization
    read. *)
Definition sameTransport (l l' : Launcher) : Prop :=
  bpm l' = bpm l /\ globalQuantization l' = globalQuantization l /\
  transportState l' = transportState l /\ position l' = position l /\
  startTime l' = startTime l /\ currentTime l' = currentTime l.

(** The launch beat that [launchClip] gives the clip it schedules. *)
Definition launchBeatOf (l : Launcher) (track : string) (c : Clip) (q : LaunchQuantization) : num :=
  match mapGet (playing l) track with
  | Some _ =>
      if isLegato c then getPosition l
      else getNextQuantizedBeat (getPosition l) (resolveQ l q) (bpm l)
  | None => getNextQuantizedBeat (getPosition l) (resolveQ l q) (bpm l)
  end.

(** The launch beat of one clip of a scene, given the position [pos] and
    the boundary both taken when the scene is launched and the launcher
    [before] as it is when the clip's turn comes: the current beat for a
    legato clip whose track has a playing clip at that moment, the shared
    boundary for every other clip. *)
Definition sceneBeat (pos boundary : num) (before : Launcher) (sc : SceneClip) : num :=
  if isLegato (sceneClip sc) && isPlaying before (sceneTrack sc) then pos else boundary.


(** The track of every scheduled clip, by reference. *)
Definition trackIds (l : Launcher) : list string := map trackId (heap l).

(** Every entry of the triggered map sits under the track of its clip. *)
Definition keyed (l : Launcher) : Prop :=
  forall k r, In (k, r) (triggered l) -> trackIds l !! r = Some k.

(** [l'] comes from [l] by calls that schedule nothing new: same clips, no
    new triggered entry, and [clip-started] events only for tracks in [ok]. *)
Definition calm (ok : string -> Prop) (l l' : Launcher) : Prop :=
  trackIds l' = trackIds l /\
  (forall kv, In kv (triggered l') -> In kv (triggered l)) /\
  exists evs, events l' = events l ++ evs /\
              forall k s, In (ClipStarted k s) evs -> ok k.

(** Ticks at the given host clock readings, one after the other. *)
Definition ticksAt (rnd : nat -> Q) (times : list num) (l : Launcher) : Launcher :=
  fold_left (fun acc c => tick rnd (setClock acc c)) times l.

(** The playing map holds at most one entry per track. *)
Definition onePerTrack (l : Launcher) : Prop := NoDup (map fst (playing l)).

(** No restriction on the tracks that may start. *)
Definition anyTrack (k : string) : Prop := True.

(** What a scheduled clip is created with and what no method assigns
    afterwards: its track, slot, clip and launch beat. *)
Definition identity (sc : ScheduledClip) : string * Z * Clip * num :=
  (trackId sc, slotIndex sc, clip sc, launchTime sc).

Definition identities (l : Launcher) : list (string * Z * Clip * num) :=
  map identity (heap l).

(** [l'] comes from [l] by calls that create no scheduled clip, and the
    [clip-started] events emitted on the way satisfy [ok]. *)
Definition quiet (ok : string -> Z -> Prop) (l l' : Launcher) : Prop :=
  identities l' = identities l /\
  exists evs, events l' = events l ++ evs /\
              forall k s, In (ClipStarted k s) evs -> ok k s.

(** No restriction on the clips that may start. *)
Definition anyStart (k : string) (s : Z) : Prop := True.

(** A clip of track [k] and slot [s] that is waiting in the triggered map
    of [l] with its launch beat at or before [pos]. *)
Definition due (l : Launcher) (pos : num) (k : string) (s : Z) : Prop :=
  exists k' r c t, In (k', r) (triggered l) /\ identities l !! r = Some (k, s, c, t) /\
                   ge pos t = true.

(** The [clip-stopped] events for the entries of a map, in map order. *)
Definition stopEvents (ids : list (string * Z * Clip * num)) (m : jsmap)
  : list ClipLauncherEvent :=
  flat_map (fun kv : string * nat =>
              match ids !! snd kv with
              | Some (k, s, _, _) => [ClipStopped k s]
              | None => []
              end) m.

(** In the heap [h], reference [r] is a scheduled clip of track [k]. *)
Definition onTrack (h : list ScheduledClip) (k : string) (r : nat) : Prop :=
  trackId <$> h !! r = Some k.

(** ... and its state is [playing] or [stopping]. *)
Definition live (h : list ScheduledClip) (k : string) (r : nat) : Prop :=
  exists sc, h !! r = Some sc /\ trackId sc = k /\
             (state sc = Playing \/ state sc = Stopping).

(** Every entry of the playing map is a live clip of the track it is
    filed under, and every entry of the stopping map a clip of its track. *)
Definition wellFiled (l : Launcher) : Prop :=
  (forall k r, In (k, r) (playing l) -> live (heap l) k r) /\
  (forall k r, In (k, r) (stopping l) -> onTrack (heap l) k r).

End ClipLauncher.

(** * Concrete inputs

    The engines, buffers, clips and call sequences at which the properties
    below are evaluated. *)
Module Inputs.
Import JS Types.

(** ** Warp engine *)
Section Warp.
Import WarpEngine.

(** A stand-in for the Hann coefficients where a closed engine is needed. *)
Definition flatWindow (sz i : Z) : Q := 1 # 2.

(** The three markers of the inverse-consistency property. *)
Definition threeMarkers : list WarpMarker :=
  [ {| markerId := "m0"; sampleTime := Fin 0; beatTime := Fin 0 |};
    {| markerId := "m1"; sampleTime := Fin 1; beatTime := Fin 2 |};
    {| markerId := "m2"; sampleTime := Fin 2; beatTime := Fin (9 # 2) |} ].

Definition withMarkers (e : Engine) (ms : list WarpMarker) : Engine :=
  let s := settings e in
  setSettings e
    {| enabled := enabled s; mode := mode s; originalBPM := originalBPM s;
       markers := ms; transientSensitivity := transientSensitivity s;
       grainSize := grainSize s; preservePitch := preservePitch s |}.

Definition markedEngine : Engine := withMarkers (newEngine flatWindow) threeMarkers.

(** One second of silence, mono, at 8 frames per second. *)
Definition shortBuffer : AudioBuffer :=
  {| sampleRate := ofZ 8; bufLength := 8; channelData := [repeat (ofZ 0) 8] |}.

Definition disabledEngine : Engine :=
  let e := setSourceBuffer (newEngine flatWindow) shortBuffer [] in
  let s := settings e in
  setSettings e
    {| enabled := false; mode := ModeTexture; originalBPM := originalBPM s;
       markers := markers s; transientSensitivity := transientSensitivity s;
       grainSize := grainSize s; preservePitch := preservePitch s |}.

(** A mono source of 2 646 000 frames at 44.1 kHz: sixty seconds. *)
Definition longSource (samples : f32array) : AudioBuffer :=
  {| sampleRate := ofZ 44100; bufLength := 2646000; channelData := [samples] |}.

(** A new engine (default settings: 50 ms grains) with a source loaded and
    texture mode selected. *)
Definition textureEngine (hann : Z -> Z -> Q) (b : AudioBuffer)
    (detected : list WarpMarker) : Engine :=
  setWarpMode (setSourceBuffer (newEngine hann) b detected) ModeTexture.

(** An engine set to 1 ms grains (44 samples). *)
Definition smallGrains (hann : Z -> Z -> Q) : Engine :=
  setSettings (newEngine hann)
    {| enabled := true; mode := ModeTexture; originalBPM := ofZ 120; markers := [];
       transientSensitivity := Fin (1 # 2); grainSize := ofZ 1; preservePitch := true |}.

(** A mono source of 44 frames of 0.5 at 44.1 kHz: exactly one 1 ms grain. *)
Definition oneGrainSource : AudioBuffer :=
  {| sampleRate := ofZ 44100; bufLength := 44;
     channelData := [repeat (Fin (1 # 2)) 44] |}.

Definition smallGrainsLoaded (hann : Z -> Z -> Q) : Engine :=
  setSourceBuffer (smallGrains hann) oneGrainSource [].

(** The value of [100 / 44100]: a target of 100 frames at 44.1 kHz. *)
Definition shortTarget : num := Binary64.div (ofZ 100) (ofZ 44100).

(** A mono source of 4000 frames of 0.5 at 44.1 kHz. *)
Definition toneSource : AudioBuffer :=
  {| sampleRate := ofZ 44100; bufLength := 4000;
     channelData := [repeat (Fin (1 # 2)) 4000] |}.

(** A new engine with that source loaded, no markers, and the given mode. *)
Definition toneEngine (m : WarpMode) : Engine :=
  setWarpMode (setSourceBuffer (newEngine flatWindow) toneSource []) m.

(** The number 0.06, as binary64 holds it: a target of 2646 frames at
    44.1 kHz. *)
Definition sixtyMs : num := Binary64.rnd (Fin (3 # 50)).

(** Two bursts at full level, of 512 samples each, after 1024 samples of
    silence each; at 8 kHz they begin at 0.128 s and 0.32 s. *)
Definition twoBursts : f32array :=
  repeat (ofZ 0) 1024 ++ repeat (ofZ 1) 512 ++ repeat (ofZ 0) 1024 ++ repeat (ofZ 1) 512.

Definition burstSource : AudioBuffer :=
  {| sampleRate := ofZ 8000; bufLength := 3072; channelData := [twoBursts] |}.

(** A new engine with the bursts loaded and no markers yet. *)
Definition burstEngine : Engine :=
  {| sourceBuffer := Some burstSource; settings := defaultSettings;
     grainWindows := initializeGrainWindows flatWindow |}.

(** A stand-in for [Math.sqrt]: the square root to six decimal places. *)
Definition sqrt6 (q : Q) : Q := Z.sqrt (Qfloor (q * 1000000000000)) # 1000000.

End Warp.

(** ** Sessions *)
Section Session.
Import ClipLauncher.
Local Open Scope string_scope.

Definition noRandom (k : nat) : Q := 0.

(** A sixteen-beat audio clip with nothing optional set. *)
Definition plainClip (name : string) : Clip :=
  {| clipId := name; clipType := Audio; duration := ofZ 16; loopEnabled := None;
     loopEnd := None; legato := None; followAction := None |}.

Definition legatoClip (name : string) : Clip :=
  {| clipId := name; clipType := Audio; duration := ofZ 16; loopEnabled := None;
     loopEnd := None; legato := Some Legato; followAction := None |}.

(** At 60 bpm the host clock reads beats.  Clip A is launched on track "t"
    at beat 0 and a tick follows at beat 1. *)
Definition onePlaying : list call :=
  [ CallSetBPM (ofZ 60); CallStart (ofZ 0);
    CallLaunchClip "t" 0 (plainClip "A") QNone; Clock (ofZ 1); Tick ].

(** A, B and C launched one after the other on the same track, unquantized,
    with a tick after each launch. *)
Definition threeLaunches : list call :=
  onePlaying ++
  [ CallLaunchClip "t" 1 (plainClip "B") QNone; Clock (ofZ 2); Tick;
    CallLaunchClip "t" 2 (plainClip "C") QNone; Clock (ofZ 3); Tick ].

(** A playing; legato clip B launched at beat 1 with 1-bar quantization;
    a tick at beat 2. *)
Definition legatoSwitch : list call :=
  onePlaying ++
  [ CallLaunchClip "t" 1 (legatoClip "B") Q1Bar; Clock (ofZ 2); Tick ].

(** A scene over track "u" (idle) and track "t" (playing), the second clip
    in legato mode. *)
Definition mixedScene : list SceneClip :=
  [ {| sceneTrack := "u"; sceneSlot := 0; sceneClip := plainClip "X" |};
    {| sceneTrack := "t"; sceneSlot := 1; sceneClip := legatoClip "Y" |} ].

(** A clip launched at beat 1 with 1-bar quantization: it waits for beat 4. *)
Definition pendingLaunch : list call :=
  [ CallSetBPM (ofZ 60); CallStart (ofZ 0); Clock (ofZ 1);
    CallLaunchClip "t" 0 (plainClip "A") Q1Bar ].

End Session.

End Inputs.

(** * Properties *)

(** ** Arithmetic on finite numbers *)
Section NumFacts.
Import JS.
Local Open Scope Q_scope.

Lemma Qeq_bool_false_pos (q : Q) : 0 < q -> Qeq_bool q 0 = false.
Proof.
  intros H. destruct (Qeq_bool q 0) eqn:E; [|reflexivity].
  apply Qeq_bool_iff in E. rewrite E in H. exfalso. apply (Qlt_irrefl 0), H.
Qed.

Lemma Qle_bool_true (a b : Q) : a <= b -> Qle_bool a b = true.
Proof. apply Qle_bool_iff. Qed.

Lemma Qle_bool_false (a b : Q) : b < a -> Qle_bool a b = false.
Proof.
  intros H. destruct (Qle_bool a b) eqn:E; [|reflexivity].
  apply Qle_bool_iff in E. lra.
Qed.

Lemma le_Fin (a b : Q) : le (Fin a) (Fin b) = Qle_bool a b.
Proof. reflexivity. Qed.

Lemma ge_Fin (a b : Q) : ge (Fin a) (Fin b) = Qle_bool b a.
Proof. reflexivity. Qed.

Lemma sub_Fin (a b : Q) : sub (Fin a) (Fin b) = Fin (Qred (a + Qred (- b))).
Proof. reflexivity. Qed.


Lemma mul_Fin (a b : Q) : mul (Fin a) (Fin b) = Fin (Qred (a * b)).
Proof. reflexivity. Qed.

Lemma div_Fin (a b : Q) :
  Qeq_bool b 0 = false -> div (Fin a) (Fin b) = Fin (Qred (a / b)).
Proof. intros H. unfold div. rewrite H. reflexivity. Qed.

End NumFacts.


(** ** Binary64 rounding *)
Section Binary64Facts.
Import JS.
Import Binary64.
Local Open Scope Q_scope.

Lemma pow2_positive (e : Z) : 0 < 2 ^ e.
Proof. apply Qpower_0_lt. reflexivity. Qed.

Lemma pow2_Z (n : Z) : (0 <= n)%Z -> 2 ^ n == inject_Z (2 ^ n).
Proof. intros H. rewrite Zpower_Qpower by exact H. reflexivity. Qed.

Lemma pow2_sub (a b : Z) : (0 <= a)%Z -> (0 <= b)%Z ->
  2 ^ (a - b) == inject_Z (2 ^ a) / inject_Z (2 ^ b).
Proof.
  intros Ha Hb. rewrite Qpower_minus by discriminate.
  rewrite (pow2_Z a Ha), (pow2_Z b Hb). reflexivity.
Qed.

(** [ilog2] is the integer part of the binary logarithm. *)
Lemma ilog2_spec (q : Q) : 0 < q -> 2 ^ ilog2 q <= q /\ q < 2 ^ (ilog2 q + 1).
Proof.
  intros Hq. unfold ilog2.
  destruct q as [n d]. cbn [Qnum Qden].
  assert (Hn : (0 < n)%Z) by (unfold Qlt in Hq; cbn in Hq; lia).
  set (a := Z.log2 n). set (b := Z.log2 (Zpos d)).
  assert (Ha : (0 <= a)%Z) by apply Z.log2_nonneg.
  assert (Hb : (0 <= b)%Z) by apply Z.log2_nonneg.
  destruct (Z.log2_spec n Hn) as [Ha1 Ha2]. fold a in Ha1, Ha2.
  destruct (Z.log2_spec (Zpos d) eq_refl) as [Hb1 Hb2]. fold b in Hb1, Hb2.
  assert (Pa : (0 < 2 ^ a)%Z) by (apply Z.pow_pos_nonneg; lia).
  assert (Pb : (0 < 2 ^ b)%Z) by (apply Z.pow_pos_nonneg; lia).
  assert (Sa : (2 ^ Z.succ a = 2 * 2 ^ a)%Z) by (apply Z.pow_succ_r; exact Ha).
  assert (Sb : (2 ^ Z.succ b = 2 * 2 ^ b)%Z) by (apply Z.pow_succ_r; exact Hb).
  assert (Lo : 2 ^ (a - b - 1) <= n # d).
  { replace (a - b - 1)%Z with (a - Z.succ b)%Z by lia.
    rewrite pow2_sub by lia.
    apply Qle_shift_div_r; [change 0 with (inject_Z 0); rewrite <- Zlt_Qlt; lia|].
    unfold Qle. cbn [Qnum Qden inject_Z Qmult]. rewrite Pos.mul_1_r, Z.mul_1_r.
    clear Sa Sb Ha2 Hb1.
    generalize dependent (2 ^ a)%Z. generalize dependent (2 ^ Z.succ b)%Z. intros. nia. }
  assert (Hi : n # d < 2 ^ (a - b + 1)).
  { replace (a - b + 1)%Z with (Z.succ a - b)%Z by lia.
    rewrite pow2_sub by lia.
    apply Qlt_shift_div_l; [change 0 with (inject_Z 0); rewrite <- Zlt_Qlt; lia|].
    unfold Qlt. cbn [Qnum Qden inject_Z Qmult]. rewrite Pos.mul_1_r, Z.mul_1_r.
    clear Sa Sb Ha1 Hb2 Lo.
    generalize dependent (2 ^ b)%Z. generalize dependent (2 ^ Z.succ a)%Z. intros. nia. }
  destruct (Qle_bool (2 ^ (a - b)) (n # d)) eqn:E.
  - apply Qle_bool_iff in E. split; [exact E|exact Hi].
  - split; [exact Lo|].
    replace (a - b - 1 + 1)%Z with (a - b)%Z by lia.
    apply Qnot_le_lt. intros H. apply Qle_bool_iff in H. congruence.
Qed.

(** [nearestEven] is within a half of its argument. *)
Lemma nearestEven_spec (x : Q) :
  x - (1 # 2) <= inject_Z (nearestEven x) /\ inject_Z (nearestEven x) <= x + (1 # 2).
Proof.
  unfold nearestEven.
  pose proof (Qfloor_le x) as H1. pose proof (Qlt_floor x) as H2.
  rewrite inject_Z_plus in H2. change (inject_Z 1) with 1 in H2.
  destruct (Qcompare (x - inject_Z (Qfloor x)) (1 # 2)) eqn:E.
  - apply Qeq_alt in E.
    destruct (Z.even (Qfloor x)); [|rewrite inject_Z_plus; change (inject_Z 1) with 1];
      split; lra.
  - apply Qlt_alt in E. split; lra.
  - apply Qgt_alt in E. rewrite inject_Z_plus. change (inject_Z 1) with 1. split; lra.
Qed.

Lemma nearestEven_nonneg (x : Q) : 0 <= x -> (0 <= nearestEven x)%Z.
Proof.
  intros Hx. assert (H : (0 <= Qfloor x)%Z).
  { change 0%Z with (Qfloor 0). apply Qfloor_resp_le, Hx. }
  unfold nearestEven. destruct (Qcompare _ _); [destruct (Z.even _)| |]; lia.
Qed.

Lemma Qabs_of_positive (q : Q) : 0 < q -> Qabs q = q.
Proof.
  destruct q as [n d]. unfold Qlt. cbn. intros H.
  rewrite Z.abs_eq by lia. reflexivity.
Qed.

(** The spacing of the binary64 numbers around a positive [q]: at most
    [q * 2^-52], or the subnormal spacing. *)
Lemma ulp_bound (q : Q) :
  0 < q -> 2 ^ ulpExp q * (1 # 2) <= 2 ^ (-53) * q + 2 ^ (-1075).
Proof.
  intros Hq. unfold ulpExp. rewrite Qabs_of_positive by exact Hq.
  destruct (ilog2_spec q Hq) as [Hlo _].
  pose proof (pow2_positive (-53)) as Pu. pose proof (pow2_positive (-1075)) as Pt.
  destruct (Z.max_spec (ilog2 q - 52) (-1074)) as [[_ ->]|[_ ->]].
  - change (-1074)%Z with (-1075 + 1)%Z. rewrite Qpower_plus by discriminate.
    change (2 ^ 1) with 2. nra.
  - replace (ilog2 q - 52)%Z with (ilog2 q + (-53 + 1))%Z by lia.
    rewrite !Qpower_plus by discriminate. change (2 ^ 1) with 2.
    set (P := 2 ^ ilog2 q) in *. set (u := 2 ^ (-53)) in *. set (t := 2 ^ (-1075)) in *.
    assert (P * u <= q * u) by (apply Qmult_le_compat_r; [exact Hlo|apply Qlt_le_weak, Pu]).
    nra.
Qed.

(** Rounding a number that is not too large changes it by at most the
    relative error [2^-53] plus the absolute error [2^-1075]. *)
Lemma round64_error (q : Q) :
  0 <= q -> q <= 2 ^ 1023 ->
  exists r, round64 q = Fin r /\ 0 <= r /\
            (1 - 2 ^ (-53)) * q - 2 ^ (-1075) <= r /\
            r <= (1 + 2 ^ (-53)) * q + 2 ^ (-1075).
Proof.
  intros Hq0 Hmax.
  pose proof (pow2_positive (-53)) as Pu. pose proof (pow2_positive (-1075)) as Pt.
  destruct (Qeq_bool q 0) eqn:Ez.
  { exists 0. unfold round64. rewrite Ez. apply Qeq_bool_iff in Ez.
    split; [reflexivity|]. split; [apply Qle_refl|]. rewrite Ez. split; lra. }
  assert (Hq : 0 < q).
  { apply Qle_lteq in Hq0 as [H|H]; [exact H|]. symmetry in H.
    apply Qeq_bool_iff in H. congruence. }
  unfold round64. rewrite Ez. cbv zeta.
  pose proof (ulp_bound q Hq) as Hulp.
  pose proof (pow2_positive (ulpExp q)) as PE.
  set (P := 2 ^ ulpExp q) in *.
  pose proof (nearestEven_spec (q / P)) as [N1 N2].
  pose proof (nearestEven_nonneg (q / P)) as N0.
  set (N := nearestEven (q / P)) in *.
  assert (Hx : q / P * P == q) by (field; lra).
  assert (R1 : (q / P - (1 # 2)) * P <= inject_Z N * P)
    by (apply Qmult_le_compat_r; [exact N1|lra]).
  assert (R2 : inject_Z N * P <= (q / P + (1 # 2)) * P)
    by (apply Qmult_le_compat_r; [exact N2|lra]).
  assert (R0 : 0 <= inject_Z N * P).
  { apply Qmult_le_0_compat; [|lra]. change 0 with (inject_Z 0). rewrite <- Zle_Qle.
    apply N0. apply Qle_shift_div_l; lra. }
  set (r := inject_Z N * P) in *.
  assert (B1 : q - P * (1 # 2) <= r) by nra.
  assert (B2 : r <= q + P * (1 # 2)) by nra.
  assert (T : 2 ^ 1024 == 2 * 2 ^ 1023) by reflexivity.
  assert (T1 : 1 <= 2 ^ 1023) by (apply Qle_bool_imp_le; vm_compute; reflexivity).
  assert (Tu : 2 ^ (-53) <= 1 # 2) by (apply Qle_bool_imp_le; vm_compute; reflexivity).
  assert (Tt : 2 ^ (-1075) <= 1 # 4) by (apply Qle_bool_imp_le; vm_compute; reflexivity).
  set (u := 2 ^ (-53)) in *. set (t := 2 ^ (-1075)) in *. set (K := 2 ^ 1023) in *.
  assert (Hover : Qle_bool (2 ^ 1024) (Qabs r) = false).
  { destruct (Qle_bool (2 ^ 1024) (Qabs r)) eqn:E; [|reflexivity].
    apply Qle_bool_iff in E. rewrite Qabs_pos in E by exact R0. rewrite T in E.
    assert (u * q <= (1 # 2) * K) by nra. lra. }
  rewrite Hover. exists (Qred r). split; [reflexivity|].
  rewrite Qred_correct. split; [exact R0|]. split; lra.
Qed.

Lemma nearestEven_int (x : Q) (k : Z) : x == inject_Z k -> Binary64.nearestEven x = k.
Proof.
  intros E. unfold Binary64.nearestEven.
  assert (F : Qfloor x = k) by (rewrite E; apply Qfloor_Z).
  rewrite F.
  assert (H : Qcompare (x - inject_Z k) (1 # 2) = Lt).
  { apply Qlt_alt. rewrite E. unfold Qminus. rewrite Qplus_opp_r. reflexivity. }
  rewrite H. reflexivity.
Qed.

(** A number with a significand of 53 bits and an exponent in range is a
    binary64 number: rounding leaves it as it is. *)
Lemma round64_exact (q : Q) (m e : Z) :
  q == inject_Z m * 2 ^ e -> (Z.abs m < 2 ^ 53)%Z -> (-1074 <= e)%Z ->
  Qabs q < 2 ^ 1024 ->
  Binary64.round64 q = Fin (Qred q).
Proof.
  intros Hq Hm He Hmax. unfold Binary64.round64.
  destruct (Qeq_bool q 0) eqn:Ez.
  { apply Qeq_bool_iff in Ez. f_equal. symmetry. apply (Qred_complete q 0 Ez). }
  assert (Hne : ~ q == 0).
  { intros H. apply Qeq_bool_iff in H. congruence. }
  cbv zeta.
  assert (Ha : 0 < Qabs q).
  { destruct (Qlt_le_dec 0 (Qabs q)) as [H|H]; [exact H|].
    exfalso. apply Hne. apply Qabs_Qle_condition in H. lra. }
  destruct (ilog2_spec (Qabs q) Ha) as [Hlo _].
  pose proof (pow2_positive e) as Pe.
  assert (Hup : Qabs q < 2 ^ (53 + e)).
  { rewrite Hq, Qabs_Qmult, (Qabs_pos (2 ^ e)) by lra.
    rewrite Qpower_plus by discriminate.
    apply Qmult_lt_compat_r; [exact Pe|].
    change (Qabs (inject_Z m)) with (inject_Z (Z.abs m)).
    change (2 ^ 53) with (inject_Z (2 ^ 53)).
    rewrite <- Zlt_Qlt. exact Hm. }
  assert (HL : (Binary64.ilog2 (Qabs q) < 53 + e)%Z).
  { apply (Qpower_lt_compat_l_inv 2); [|reflexivity].
    eapply Qle_lt_trans; [exact Hlo|exact Hup]. }
  assert (HE : (Binary64.ulpExp q <= e)%Z) by (unfold Binary64.ulpExp; lia).
  pose proof (pow2_positive (Binary64.ulpExp q)) as PE.
  set (E := Binary64.ulpExp q) in *.
  assert (Hx : q / 2 ^ E == inject_Z (m * 2 ^ (e - E))).
  { rewrite Hq, inject_Z_mult, <- pow2_Z by lia.
    rewrite Qpower_minus by discriminate. field. lra. }
  rewrite (nearestEven_int _ _ Hx).
  assert (Hr : inject_Z (m * 2 ^ (e - E)) * 2 ^ E == q).
  { rewrite <- Hx. field. lra. }
  assert (Hover : Qle_bool (2 ^ 1024) (Qabs (inject_Z (m * 2 ^ (e - E)) * 2 ^ E)) = false).
  { apply Qle_bool_false. rewrite Hr. exact Hmax. }
  rewrite Hover. f_equal. apply Qred_complete, Hr.
Qed.

Lemma Qred_inject_Z (z : Z) : Qred (inject_Z z) = inject_Z z.
Proof.
  unfold Qred, inject_Z.
  pose proof (Z.ggcd_gcd z 1) as Hg. pose proof (Z.ggcd_correct_divisors z 1) as Hd.
  destruct (Z.ggcd z 1) as [g [a b]]. cbn [fst snd] in *.
  rewrite Z.gcd_1_r in Hg. subst g. destruct Hd as [Ha Hb].
  rewrite Z.mul_1_l in Ha, Hb. subst a b. reflexivity.
Qed.

Lemma round64_int (z : Z) :
  (Z.abs z < 2 ^ 53)%Z -> Binary64.round64 (inject_Z z) = Fin (inject_Z z).
Proof.
  intros Hz.
  rewrite (round64_exact (inject_Z z) z 0); [| |exact Hz|lia|].
  - rewrite Qred_inject_Z. reflexivity.
  - change (2 ^ 0) with 1. ring.
  - change (Qabs (inject_Z z)) with (inject_Z (Z.abs z)).
    change (2 ^ 1024) with (inject_Z (2 ^ 1024)).
    rewrite <- Zlt_Qlt. eapply Z.lt_trans; [exact Hz|reflexivity].
Qed.

Ltac numeral c := let v := eval vm_compute in c in change c with v in *.

Lemma round64_step (q x : Q) :
  q == x -> 0 <= x -> x <= 2 ^ 1023 ->
  exists r, round64 q = Fin r /\ 0 <= r /\
            (1 - 2 ^ (-53)) * x - 2 ^ (-1075) <= r /\
            r <= (1 + 2 ^ (-53)) * x + 2 ^ (-1075).
Proof.
  intros E H0 H1. rewrite <- E in H0, H1.
  destruct (round64_error q H0 H1) as (r & Hr & R0 & R1 & R2).
  exists r. rewrite <- E. auto.
Qed.

Lemma pow2_facts :
  2 ^ 1023 == 128 * 2 ^ 1016 /\ 2 ^ 1023 == 8388608 * 2 ^ 1000 /\
  1000 <= 2 ^ 1000 /\ 2 ^ (-1075) * 2 ^ 1000 <= 1 /\ 2 ^ (-1075) <= 1 /\
  2 ^ (-1072) == 8 * 2 ^ (-1075) /\
  8 * (2 ^ (-1075) * 2 ^ 1000) + 2 ^ (-1075) <= 1 # 1000000000000.
Proof.
  repeat split; try (apply Qeq_bool_iff; vm_compute; reflexivity);
    apply Qle_bool_iff; vm_compute; reflexivity.
Qed.

(** The round trip in binary64: four roundings, none of which overflows
    on this range; the result is off by at most a relative [2^-50] plus
    what the subnormal range can add. *)
Lemma roundtrip_binary64 (beats bpm : Q) :
  0 <= beats -> 0 < bpm ->
  beats <= 2 ^ 1000 -> bpm <= 2 ^ 1000 -> beats <= 2 ^ 1016 * bpm ->
  exists r,
    Binary64.secondsToBeats (Binary64.beatsToSeconds (Fin beats) (Fin bpm)) (Fin bpm)
    = Fin r /\
    Qabs (r - beats) <= 2 ^ (-50) * beats + 2 ^ (-1072) * bpm + 2 ^ (-1075) /\
    (beats <= 1000000 -> Qabs (r - beats) <= 1 # 1000000000).
Proof.
  intros Hb0 Hp Hb Hp2 Hbp.
  destruct pow2_facts as (F1 & F2 & F3 & F4 & F7 & F5 & F6).
  pose proof (pow2_positive (-1075)) as Hh.
  numeral (2 ^ (-50)).
  set (K := 2 ^ 1016) in *. set (B := 2 ^ 1000) in *. set (M := 2 ^ 1023) in *.
  set (h := 2 ^ (-1075)) in *. set (g := 2 ^ (-1072)) in *.
  set (t := beats / bpm).
  assert (Ht : t * bpm == beats) by (unfold t; field; lra).
  assert (Ht0 : 0 <= t) by (unfold t; apply Qle_shift_div_l; lra).
  assert (Ht1 : t <= K) by (unfold t; apply Qle_shift_div_r; [exact Hp|exact Hbp]).
  unfold Binary64.secondsToBeats, Binary64.beatsToSeconds, Binary64.mul, Binary64.div.
  rewrite div_Fin by (apply Qeq_bool_false_pos, Hp). cbn [rnd].
  destruct (round64_step (Qred (beats / bpm)) t) as (y1 & -> & P1 & L1 & U1);
    [apply Qred_correct|exact Ht0|fold M; lra|].
  unfold ofZ. rewrite mul_Fin. cbn [rnd].
  numeral (2 ^ (-53)). fold h in L1, U1.
  destruct (round64_step (Qred (y1 * inject_Z 60)) (y1 * 60)) as (y2 & -> & P2 & L2 & U2);
    [apply Qred_correct|lra|fold M; lra|].
  rewrite div_Fin by reflexivity. cbn [rnd].
  numeral (2 ^ (-53)). fold h in L2, U2.
  destruct (round64_step (Qred (y2 / inject_Z 60)) (y2 * (1 # 60))) as (y3 & -> & P3 & L3 & U3);
    [rewrite Qred_correct; field|lra|fold M; lra|].
  rewrite mul_Fin. cbn [rnd].
  numeral (2 ^ (-53)). fold h in L3, U3.
  set (u := 1 # 9007199254740992) in *.
  assert (A1 : y3 * bpm <= (1 + u) * (1 + u) * (1 + u) * beats + 4 * h * bpm).
  { rewrite <- Ht.
    assert (E : (1 + u) * (1 + u) * (1 + u) * (t * bpm) + 4 * h * bpm
                == ((1 + u) * (1 + u) * (1 + u) * t + 4 * h) * bpm) by ring.
    rewrite E. apply Qmult_le_compat_r; [|lra]. subst u. lra. }
  assert (A2 : (1 - u) * (1 - u) * (1 - u) * beats - 4 * h * bpm <= y3 * bpm).
  { rewrite <- Ht.
    assert (E : (1 - u) * (1 - u) * (1 - u) * (t * bpm) - 4 * h * bpm
                == ((1 - u) * (1 - u) * (1 - u) * t - 4 * h) * bpm) by ring.
    rewrite E. apply Qmult_le_compat_r; [|lra]. subst u. lra. }
  assert (A3 : h * bpm <= h * B).
  { rewrite !(Qmult_comm h). apply Qmult_le_compat_r; lra. }
  assert (A4 : 0 <= h * bpm) by (apply Qmult_le_0_compat; lra).
  destruct (round64_step (Qred (y3 * bpm)) (y3 * bpm)) as (y4 & -> & P4 & L4 & U4);
    [apply Qred_correct|apply Qmult_le_0_compat; lra|fold M; subst u; lra|].
  exists y4. split; [reflexivity|].
  numeral (2 ^ (-53)). fold u in L4, U4. fold h in L4, U4.
  assert (Eg : g * bpm == 8 * (h * bpm)) by (rewrite F5; ring).
  set (x4 := y3 * bpm) in *. set (hp := h * bpm) in *. set (hB := h * B) in *.
  assert (A1' : x4 <= (1 + u) * (1 + u) * (1 + u) * beats + 4 * hp)
    by (unfold hp; lra).
  assert (A2' : (1 - u) * (1 - u) * (1 - u) * beats - 4 * hp <= x4)
    by (unfold hp; lra).
  assert (Bd : Qabs (y4 - beats) <= (1 # 1125899906842624) * beats + g * bpm + h).
  { rewrite Eg. apply Qabs_Qle_condition. clearbody hp x4. subst u. split; lra. }
  split; [exact Bd|].
  intros Hsmall. eapply Qle_trans; [exact Bd|]. rewrite Eg. lra.
Qed.

End Binary64Facts.

(** ** Operations that do not round *)
Section ExactFacts.
Import JS Types.
Local Open Scope Q_scope.

(** Dividing a moderate binary64 number by a power of two between [2^-20]
    and [2^20], turning the quotient into a whole number and multiplying
    it by the same power of two: neither operation rounds. *)
Lemma scaled_exact (f : Q -> Z) (b : Q) (j : Z) :
  (forall x y, x == y -> f x = f y) ->
  (forall k, f (inject_Z k) = k) ->
  (forall x, Qabs (inject_Z (f x)) <= Qabs x + 1) ->
  Binary64.moderate b -> (-20 <= j <= 20)%Z ->
  Binary64.div (Fin b) (Fin (2 ^ j)) = div (Fin b) (Fin (2 ^ j)) /\
  div (Fin b) (Fin (2 ^ j)) = Fin (Qred (b / 2 ^ j)) /\
  Binary64.mul (ofZ (f (Qred (b / 2 ^ j)))) (Fin (2 ^ j))
  = mul (ofZ (f (Qred (b / 2 ^ j)))) (Fin (2 ^ j)).
Proof.
  intros Hf1 Hf2 Hf3 (m & e & Hm & He & Hb) Hj.
  pose proof (pow2_positive j) as Pj. pose proof (pow2_positive e) as Pe.
  pose proof (pow2_positive (e - j)) as Pej.
  assert (Ediv : div (Fin b) (Fin (2 ^ j)) = Fin (Qred (b / 2 ^ j)))
    by (apply div_Fin, Qeq_bool_false_pos, Pj).
  assert (Hx : Qred (b / 2 ^ j) == inject_Z m * 2 ^ (e - j)).
  { rewrite Qred_correct, Hb, Qpower_minus by discriminate. field. lra. }
  assert (Hm' : Qabs (inject_Z m) < 2 ^ 53).
  { change (Qabs (inject_Z m)) with (inject_Z (Z.abs m)).
    change (2 ^ 53) with (inject_Z (2 ^ 53)). rewrite <- Zlt_Qlt. exact Hm. }
  assert (Hxabs : Qabs (Qred (b / 2 ^ j)) < 2 ^ 53 * 2 ^ (e - j)).
  { rewrite Hx, Qabs_Qmult, (Qabs_pos (2 ^ (e - j))) by lra.
    apply Qmult_lt_compat_r; assumption. }
  assert (Hbig : forall k, (k <= 1000)%Z -> 2 ^ k < 2 ^ 1024).
  { intros k Hk. apply Qpower_lt_compat_l; [lia|reflexivity]. }
  split; [|split; [exact Ediv|]].
  - unfold Binary64.div. rewrite Ediv. cbn [Binary64.rnd].
    rewrite (round64_exact _ m (e - j) Hx Hm); [| lia |].
    + f_equal. apply Qred_complete, Qred_correct.
    + eapply Qlt_trans; [exact Hxabs|]. rewrite <- Qpower_plus by discriminate.
      apply Hbig. lia.
  - set (c := f (Qred (b / 2 ^ j))).
    unfold Binary64.mul, ofZ. rewrite mul_Fin. cbn [Binary64.rnd].
    assert (Hc : (0 <= e - j)%Z /\ inject_Z c * 2 ^ j == inject_Z m * 2 ^ e
                 \/ (Z.abs c < 2 ^ 53)%Z).
    { destruct (Z_le_gt_dec 0 (e - j)) as [Hpos|Hneg].
      - left. split; [exact Hpos|].
        assert (Ec : c = (m * 2 ^ (e - j))%Z).
        { unfold c. rewrite <- (Hf2 (m * 2 ^ (e - j))%Z). apply Hf1.
          rewrite Hx, inject_Z_mult, <- pow2_Z by lia. reflexivity. }
        rewrite Ec, inject_Z_mult, <- pow2_Z by lia.
        rewrite Qpower_minus by discriminate. field. lra.
      - right.
        assert (H52 : 2 ^ 53 * 2 ^ (e - j) <= 2 ^ 52).
        { rewrite <- Qpower_plus by discriminate.
          apply Qpower_le_compat_l; [lia|discriminate]. }
        pose proof (Hf3 (Qred (b / 2 ^ j))) as Hc. fold c in Hc.
        change (Qabs (inject_Z c)) with (inject_Z (Z.abs c)) in Hc.
        assert (Hlt : inject_Z (Z.abs c) < inject_Z (2 ^ 52 + 1)).
        { rewrite inject_Z_plus. change (inject_Z (2 ^ 52)) with (2 ^ 52).
          change (inject_Z 1) with 1. lra. }
        rewrite <- Zlt_Qlt in Hlt. lia. }
    destruct Hc as [[Hpos Hc]|Hc].
    + rewrite (round64_exact _ m e); [| |exact Hm|lia|].
      * f_equal. apply Qred_complete, Qred_correct.
      * rewrite Qred_correct. exact Hc.
      * rewrite Qred_correct, Hc, Qabs_Qmult, (Qabs_pos (2 ^ e)) by lra.
        eapply Qlt_trans; [apply Qmult_lt_compat_r; [exact Pe|exact Hm']|].
        rewrite <- Qpower_plus by discriminate. apply Hbig. lia.
    + rewrite (round64_exact _ c j); [| |exact Hc|lia|].
      * f_equal. apply Qred_complete, Qred_correct.
      * apply Qred_correct.
      * rewrite Qred_correct, Qabs_Qmult, (Qabs_pos (2 ^ j)) by lra.
        assert (Hc' : Qabs (inject_Z c) < 2 ^ 53).
        { change (Qabs (inject_Z c)) with (inject_Z (Z.abs c)).
          change (2 ^ 53) with (inject_Z (2 ^ 53)). rewrite <- Zlt_Qlt. exact Hc. }
        eapply Qlt_trans; [apply Qmult_lt_compat_r; [exact Pj|exact Hc']|].
        rewrite <- Qpower_plus by discriminate. apply Hbig. lia.
Qed.

End ExactFacts.

(** ** Time base *)
Section TimeBaseFacts.
Import JS Types.
Local Open Scope Q_scope.

(** Over exact arithmetic the round trip is the identity. *)
Lemma roundtrip_exact (beats bpm : Q) :
  0 < bpm ->
  exists r, secondsToBeats (beatsToSeconds (Fin beats) (Fin bpm)) (Fin bpm) = Fin r
            /\ r == beats.
Proof.
  intros Hbpm. unfold secondsToBeats, beatsToSeconds, div, mul, ofZ.
  rewrite (Qeq_bool_false_pos bpm Hbpm). cbn [Qeq_bool].
  eexists. split; [reflexivity|].
  rewrite !Qred_correct. field. intros E. rewrite E in Hbpm. apply (Qlt_irrefl 0), Hbpm.
Qed.

(** C8, as amended. Converting beats to seconds and back at the same
    positive tempo gives the beats again exactly over exact arithmetic.  In
    binary64, as long as nothing overflows (beats and tempo up to [2^1000],
    their quotient up to [2^1016]), the result is a number within
    [2^-50 * beats + 2^-1072 * bpm + 2^-1075] of the beats: within 1e-9
    for up to a million beats, not for every beat. *)
Theorem roundtrip_beats_seconds (beats bpm : Q) :
  0 < bpm -> 0 <= beats ->
  (exists r, secondsToBeats (beatsToSeconds (Fin beats) (Fin bpm)) (Fin bpm) = Fin r
             /\ r == beats) /\
  (beats <= 2 ^ 1000 -> bpm <= 2 ^ 1000 -> beats <= 2 ^ 1016 * bpm ->
   exists r,
     Binary64.secondsToBeats (Binary64.beatsToSeconds (Fin beats) (Fin bpm)) (Fin bpm)
     = Fin r /\
     Qabs (r - beats) <= 2 ^ (-50) * beats + 2 ^ (-1072) * bpm + 2 ^ (-1075) /\
     (beats <= 1000000 -> Qabs (r - beats) <= 1 # 1000000000)).
Proof.
  intros Hbpm Hbeats. split; [apply roundtrip_exact, Hbpm|].
  intros H1 H2 H3. apply roundtrip_binary64; assumption.
Qed.

(** 1.9 beats (the binary64 number nearest to it) at 120 bpm: the round
    trip gives 1.8999999999999997, one unit in the last place below. *)
Lemma roundtrip_beats_seconds_witness :
  let beats := 4278419646001971 # 2251799813685248 in
  Binary64.secondsToBeats (Binary64.beatsToSeconds (Fin beats) (Fin 120)) (Fin 120)
  = Fin (8556839292003941 # 4503599627370496) /\
  exists r,
    Binary64.secondsToBeats (Binary64.beatsToSeconds (Fin beats) (Fin 120)) (Fin 120)
    = Fin r /\
    Qabs (r - beats) <= 2 ^ (-50) * beats + 2 ^ (-1072) * 120 + 2 ^ (-1075) /\
    Qabs (r - beats) <= 1 # 1000000000.
Proof.
  intros beats. split; [vm_compute; reflexivity|].
  assert (Hbpm : 0 < 120) by reflexivity.
  assert (Hbeats : 0 <= beats) by discriminate.
  destruct (roundtrip_beats_seconds beats 120 Hbpm Hbeats) as [_ H].
  destruct H as (r & Hr & Hb & Hs);
    try (apply Qle_bool_iff; vm_compute; reflexivity).
  exists r. split; [exact Hr|]. split; [exact Hb|].
  apply Hs. apply Qle_bool_iff. vm_compute. reflexivity.
Defined.

(** 10000000.5 beats at 100 bpm come back as 10000000.500000002: off by
    [2^-29], about 1.86e-9.  And [2^1023] beats at half a beat per minute
    come back as infinity. *)
Lemma roundtrip_exceeds_tolerance :
  Binary64.secondsToBeats (Binary64.beatsToSeconds (Fin (20000001 # 2)) (Fin 100)) (Fin 100)
  = Fin (5368709388435457 # 536870912) /\
  (1 # 1000000000) < Qabs ((5368709388435457 # 536870912) - (20000001 # 2)) /\
  Binary64.secondsToBeats (Binary64.beatsToSeconds (Fin (2 ^ 1023)) (Fin (1 # 2))) (Fin (1 # 2))
  = PInf.
Proof. repeat split; vm_compute; reflexivity. Qed.

End TimeBaseFacts.

(** ** Warp map *)
Section WarpMapFacts.
Import JS Types WarpEngine.
Local Open Scope Q_scope.



End WarpMapFacts.

(** ** Loops and outcomes *)
Section LoopFacts.
Import JS.

Lemma bind_ret_inv {A B} (m : outcome A) (k : A -> outcome B) (b : B) :
  m >>= k = Ret b -> exists a, m = Ret a /\ k a = Ret b.
Proof. destruct m; cbn; intros H; try discriminate. eauto. Qed.

(** An invariant of the loop body holds of the state the loop returns. *)
Lemma iterate_inv {S : Type} (P : S -> Prop) (step : S -> outcome (ctl S)) :
  (forall s s', P s -> step s = Ret (Next s') -> P s') ->
  (forall s s', P s -> step s = Ret (Done s') -> P s') ->
  forall fuel s r, P s -> iterate fuel step s = Ret r -> P r.
Proof.
  intros Hn Hd fuel. induction fuel as [|fuel IH]; intros s r Hs H; cbn in H.
  - discriminate.
  - destruct (step s) as [[s'|s']| |] eqn:E; try discriminate.
    + eapply IH; [|exact H]. eauto.
    + injection H as <-. eauto.
Qed.

Lemma iterate_no_throw {S : Type} (P : S -> Prop) (step : S -> outcome (ctl S)) :
  (forall s s', P s -> step s = Ret (Next s') -> P s') ->
  (forall s, P s -> step s <> Throw) ->
  forall fuel s, P s -> iterate fuel step s <> Throw.
Proof.
  intros Hn Ht fuel. induction fuel as [|fuel IH]; intros s Hs; cbn.
  - discriminate.
  - destruct (step s) as [[s'|s']| |] eqn:E; try discriminate.
    + eauto.
    + exfalso. eapply Ht; eauto.
Qed.

(** A loop whose body never leaves uses up any fuel. *)
Lemma iterate_stuck {S : Type} (P : S -> Prop) (step : S -> outcome (ctl S)) :
  (forall s, P s -> step s = Timeout \/ exists s', step s = Ret (Next s') /\ P s') ->
  forall fuel s, P s -> iterate fuel step s = Timeout.
Proof.
  intros Hs fuel. induction fuel as [|fuel IH]; intros s H; cbn; [reflexivity|].
  destruct (Hs s H) as [->|(s' & -> & H')]; [reflexivity|]. apply IH, H'.
Qed.

Lemma length_aset (a : f32array) (i v : num) : length (aset a i v) = length a.
Proof.
  unfold aset. destruct (toIndex i); [|reflexivity].
  destruct (_ && _); [apply length_insert|reflexivity].
Qed.

Lemma toIndex_ofZ (n : Z) : toIndex (ofZ n) = Some n.
Proof.
  unfold toIndex, ofZ. rewrite Qfloor_Z, Qeq_bool_refl. reflexivity.
Qed.

End LoopFacts.

(** ** process *)
Section ProcessFacts.
Import JS Types WarpEngine Inputs.

(** C9. In complex mode [process] gives what it gives in tones mode: the
    same buffer, exception or non-termination, for every source, target
    duration and fuel. *)
Theorem complex_same_as_tones (fuel : nat) (rnd : nat -> Q) (e : Engine) (d : num) :
  process fuel rnd (setWarpMode e ModeComplex) d
  = process fuel rnd (setWarpMode e ModeTones) d.
Proof. destruct e as [src s gw]. reflexivity. Qed.

(** C10. With a source loaded and warping disabled, [process] returns the
    source buffer itself, whatever the target duration and the mode. *)
Theorem disabled_returns_source (fuel : nat) (rnd : nat -> Q) (e : Engine)
    (b : AudioBuffer) (d : num) :
  sourceBuffer e = Some b -> enabled (settings e) = false ->
  process fuel rnd e d = Ret (Some b).
Proof. intros Hs He. unfold process. rewrite Hs, He. reflexivity. Qed.

Lemma disabled_returns_source_witness :
  process 10 (fun _ => 0%Q) disabledEngine (ofZ 3) = Ret (Some shortBuffer).
Proof. apply disabled_returns_source; reflexivity. Defined.

(** The null half of the contract of [process]: [null] is returned exactly
    when no source buffer is loaded. *)
Lemma process_null_iff (fuel : nat) (rnd : nat -> Q) (e : Engine) (d : num) :
  process fuel rnd e d = Ret None <-> sourceBuffer e = None.
Proof.
  unfold process. split.
  - destruct (sourceBuffer e) as [src|]; [|reflexivity].
    destruct (negb _); [discriminate|].
    destruct (mode (settings e)); intros H; try discriminate;
      apply bind_ret_inv in H as (a & _ & H); discriminate.
  - intros ->. reflexivity.
Qed.

Lemma textureGrain_length fuel input gs inStart outputPos ampVar w out r :
  iterate fuel (textureGrainStep input gs inStart outputPos ampVar (Some w)) (0%Z, out)
  = Ret r ->
  length (snd r) = length out.
Proof.
  apply (iterate_inv (fun st => length (snd st) = length out)); [| |reflexivity].
  - intros [i o] s' Hl. unfold textureGrainStep. destruct (_ && _); cbn; intros [= <-].
    cbn. rewrite length_aset. exact Hl.
  - intros [i o] s' Hl. unfold textureGrainStep. destruct (_ && _); cbn; intros [= <-].
    exact Hl.
Qed.

Lemma textureGrain_no_throw fuel input gs inStart outputPos ampVar w st :
  iterate fuel (textureGrainStep input gs inStart outputPos ampVar (Some w)) st <> Throw.
Proof.
  apply (iterate_no_throw (fun _ => True)); [trivial| |trivial].
  intros [i o] _. unfold textureGrainStep. destruct (_ && _); discriminate.
Qed.

(** With an output hop of 0 the texture loop stays at output position 0. *)
Lemma textureLoop_stuck fuel rnd input gs w (n : nat) :
  lt (ofZ 0) (sub (ofNat n) gs) = true ->
  forall out k, length out = n ->
  iterate fuel (textureStep fuel rnd input gs (ofZ 0) (Some w)) (ofZ 0, out, k) = Timeout.
Proof.
  intros Hlt out k Hl.
  apply (iterate_stuck (fun st => fst (fst st) = ofZ 0 /\ length (snd (fst st)) = n));
    [|split; [reflexivity|exact Hl]].
  intros [[p o] j] [Hp Ho]. cbn in Hp, Ho. subst p.
  unfold textureStep. unfold len. rewrite Ho, Hlt.
  destruct (_ || _).
  - right. eexists. split; [reflexivity|]. split; [reflexivity|exact Ho].
  - match goal with |- context [iterate fuel ?s ?i] =>
      destruct (iterate fuel s i) as [r| |] eqn:E end.
    + right. eexists. split; [reflexivity|]. split; [reflexivity|].
      cbn. apply textureGrain_length in E. cbn in E. congruence.
    + exfalso. eapply textureGrain_no_throw, E.
    + left. reflexivity.
Qed.

(** Texture mode never finishes once the output hop rounds down to 0 while
    the output is longer than a grain. *)
Lemma texture_never_finishes (fuel : nat) (rnd : nat -> Q) (e : Engine)
    (src : AudioBuffer) (w : GrainWindow) (d : num) (n : Z) :
  sourceBuffer e = Some src ->
  enabled (settings e) = true ->
  mode (settings e) = ModeTexture ->
  channelData src <> [] ->
  getGrainWindow e (grainSamples e) = Some w ->
  floor (Binary64.mul (hopInOf (grainSamples e)) (Binary64.div d (duration src))) = ofZ 0 ->
  floor (Binary64.mul d (sampleRate src)) = ofZ n ->
  (1 <= n)%Z ->
  lt (ofZ 0) (sub (ofZ n) (grainSamples e)) = true ->
  process fuel rnd e d = Timeout.
Proof.
  intros Hs He Hm Hc Hw Hh Hlen Hn Hlt.
  unfold process. rewrite Hs, He, Hm. cbn [negb].
  unfold processTextureMode. rewrite Hs, Hlen.
  unfold createBuffer. rewrite toIndex_ofZ.
  unfold numberOfChannels.
  destruct (channelData src) as [|c0 cs] eqn:Ec; [contradiction|].
  replace (1 <=? n)%Z with true by (symmetry; apply Z.leb_le; exact Hn).
  replace (1 <=? Z.of_nat (length (c0 :: cs)))%Z with true
    by (symmetry; apply Z.leb_le; cbn [length]; lia).
  cbn [length andb bind seq forEach channelData repeat nth fst snd].
  unfold textureGranularStretch, textureSynth. rewrite Hh, Hw.
  rewrite (textureLoop_stuck fuel rnd c0 (grainSamples e) w (Z.to_nat n)).
  - reflexivity.
  - unfold ofNat. rewrite Z2Nat.id by lia. exact Hlt.
  - unfold fillZero. rewrite length_map, repeat_length. reflexivity.
Qed.

(** C5. A sixty-second source stretched to 0.06 s in texture mode, with the
    default settings: [process] does not return, whatever the fuel, the
    samples and the random draws. *)
Theorem process_texture_hangs (fuel : nat) (rnd : nat -> Q) (hann : Z -> Z -> Q)
    (samples : f32array) (detected : list WarpMarker) :
  process fuel rnd (textureEngine hann (longSource samples) detected) (Fin (3 # 50))
  = Timeout.
Proof.
  eapply (texture_never_finishes _ _ _ (longSource samples) _ _ 2646).
  - reflexivity.
  - reflexivity.
  - reflexivity.
  - discriminate.
  - vm_compute; reflexivity.
  - vm_compute; reflexivity.
  - vm_compute; reflexivity.
  - lia.
  - vm_compute; reflexivity.
Qed.

(** The lengths that [process] computes on the input of C6: 100 output
    frames, a grain of 44 samples, and an output hop of 24, because the
    stretch ratio is rounded to 2.2727272727272725 and 11 times that to
    24.999999999999996. *)
Lemma texture_input_lengths :
  floor (Binary64.mul shortTarget (ofZ 44100)) = ofZ 100 /\
  grainSamples (smallGrains flatWindow) = ofZ 44 /\
  Binary64.div shortTarget (duration oneGrainSource)
  = Fin (2558863424642327 # 1125899906842624) /\
  floor (Binary64.mul (hopInOf (ofZ 44))
           (Binary64.div shortTarget (duration oneGrainSource))) = ofZ 24.
Proof. repeat split; vm_compute; reflexivity. Qed.

(** C6. Texture stretch of an input that is exactly one grain long (44
    samples at 1 ms grains) into 100 samples: the call completes and 88 of
    the output samples are NaN.  The same through [process]: the 44-frame
    source stretched to 100 frames comes back with 92 NaN samples. *)
Theorem texture_output_nan (rnd : nat -> Q) (hann : Z -> Z -> Q) :
  textureGranularStretch 100 (smallGrains hann) rnd
    (repeat (Fin (1 # 2)) 44) (repeat (ofZ 0) 100) (ofZ 2) 0
  = Ret (repeat NaN 88 ++ repeat (ofZ 0) 12, 6%nat) /\
  process 100 rnd (smallGrainsLoaded hann) shortTarget
  = Ret (Some {| sampleRate := ofZ 44100; bufLength := 100;
                 channelData := [repeat NaN 92 ++ repeat (ofZ 0) 8] |}).
Proof. split; vm_compute; reflexivity. Qed.

End ProcessFacts.

(** ** Granular stretch and normalization *)
Section GranularFacts.
Import JS Types WarpEngine Inputs.
Local Open Scope Q_scope.


Lemma peak_from (a : f32array) :
  Forall finite a ->
  forall m, 0 <= m ->
  exists M, fold_left (fun m x => max m (abs x)) a (Fin m) = Fin M /\ m <= M /\
            Forall (fun x => exists q, x = Fin q /\ Qabs q <= M) a.
Proof.
  induction 1 as [|x a [q ->] Ha IH]; intros m Hm.
  - exists m. split; [reflexivity|]. split; [lra|constructor].
  - cbn [fold_left abs max lt].
    destruct (Qle_bool (Qabs q) m) eqn:E; cbn [negb].
    + destruct (IH m Hm) as (M & HM & Hle & Hall). exists M. split; [exact HM|].
      split; [exact Hle|]. constructor; [|exact Hall].
      exists q. split; [reflexivity|]. apply Qle_bool_iff in E. lra.
    + assert (Hq : m < Qabs q).
      { apply Qnot_le_lt. intros H. apply Qle_bool_iff in H. congruence. }
      destruct (IH (Qabs q)) as (M & HM & Hle & Hall); [lra|].
      exists M. split; [exact HM|]. split; [lra|]. constructor; [|exact Hall].
      exists q. split; [reflexivity|exact Hle].
Qed.

(** The normalization that ends both granular stretches bounds any array
    of numbers by 1. *)
Lemma normalizeClip_within1 (a : f32array) :
  Forall finite a -> Forall within1 (normalizeClip a).
Proof.
  intros Ha. unfold normalizeClip.
  destruct (peak_from a Ha 0) as (M & HM' & HM & Hall); [lra|].
  change (peak a = Fin M) in HM'. rewrite HM'.
  unfold gt, lt, ofZ. destruct (Qle_bool M (inject_Z 1)) eqn:E; cbn [negb].
  - apply Qle_bool_iff in E. eapply Forall_impl; [exact Hall|].
    intros x (q & -> & Hq). exists q. split; [reflexivity|].
    change (inject_Z 1) with 1 in E. lra.
  - assert (H1 : 1 < M).
    { apply Qnot_le_lt. intros H. apply Qle_bool_iff in H.
      change (inject_Z 1) with 1 in E. congruence. }
    apply Forall_map. eapply Forall_impl; [exact Hall|].
    intros x (q & -> & Hq). rewrite div_Fin by (apply Qeq_bool_false_pos; lra).
    eexists. split; [reflexivity|]. rewrite Qred_correct.
    unfold Qdiv. rewrite Qabs_Qmult. rewrite (Qabs_pos (/ M)).
    + apply Qle_shift_div_r; lra.
    + apply Qlt_le_weak, Qinv_lt_0_compat. lra.
Qed.




Lemma intValued_ofZ (z : Z) : intValued (ofZ z) z.
Proof. exists (inject_Z z). split; reflexivity. Qed.

Lemma intValued_add x y a b :
  intValued x a -> intValued y b -> intValued (add x y) (a + b).
Proof.
  intros (p & -> & Hp) (q & -> & Hq). eexists. split; [reflexivity|].
  rewrite Qred_correct, Hp, Hq, inject_Z_plus. reflexivity.
Qed.

Lemma intValued_sub x y a b :
  intValued x a -> intValued y b -> intValued (sub x y) (a - b).
Proof.
  intros (p & -> & Hp) (q & -> & Hq). eexists. split; [reflexivity|].
  rewrite !Qred_correct, Hp, Hq. unfold Z.sub. rewrite inject_Z_plus, inject_Z_opp.
  reflexivity.
Qed.

Lemma intValued_floor x z : intValued x z -> intValued (floor x) z.
Proof.
  intros (q & -> & Hq). exists (inject_Z (Qfloor q)). split; [reflexivity|].
  rewrite Hq, Qfloor_Z. reflexivity.
Qed.

Lemma intValued_min x y a b :
  intValued x a -> intValued y b -> intValued (min x y) (Z.min a b).
Proof.
  intros (p & -> & Hp) (q & -> & Hq). unfold min, lt.
  destruct (Qle_bool p q) eqn:E; cbn [negb].
  - apply Qle_bool_iff in E. rewrite Hp, Hq, <- Zle_Qle in E.
    exists p. split; [reflexivity|]. rewrite Z.min_l by exact E. exact Hp.
  - assert (H : q < p).
    { apply Qnot_le_lt. intros H. apply Qle_bool_iff in H. congruence. }
    rewrite Hp, Hq, <- Zlt_Qlt in H.
    exists q. split; [reflexivity|]. rewrite Z.min_r by lia. exact Hq.
Qed.

Lemma toIndex_intValued x z : intValued x z -> toIndex x = Some z.
Proof.
  intros (q & -> & Hq). unfold toIndex.
  assert (E : Qfloor q = z) by (rewrite Hq; apply Qfloor_Z).
  rewrite E. replace (Qeq_bool (inject_Z z) q) with true; [reflexivity|].
  symmetry. apply Qeq_bool_iff. symmetry. exact Hq.
Qed.

Lemma finite_nth (a : f32array) (n : nat) :
  Forall finite a -> (n < length a)%nat -> finite (nth n a NaN).
Proof.
  intros Ha Hn. rewrite List.Forall_forall in Ha. apply Ha, nth_In, Hn.
Qed.

Lemma aget_finite (a : f32array) x z :
  Forall finite a -> intValued x z -> (0 <= z < Z.of_nat (length a))%Z ->
  finite (aget a x).
Proof.
  intros Ha Hx Hz. unfold aget. rewrite (toIndex_intValued x z Hx). unfold getZ.
  replace (0 <=? z)%Z with true by (symmetry; apply Z.leb_le; lia).
  replace (z <? Z.of_nat (length a))%Z with true by (symmetry; apply Z.ltb_lt; lia).
  cbn [andb]. apply finite_nth; [exact Ha|lia].
Qed.

Lemma finite_add x y : finite x -> finite y -> finite (add x y).
Proof. intros [p ->] [q ->]. eexists. reflexivity. Qed.

Lemma finite_mul x y : finite x -> finite y -> finite (mul x y).
Proof. intros [p ->] [q ->]. eexists. reflexivity. Qed.

Lemma aset_add_finite (out : f32array) k x :
  Forall finite out -> finite x -> Forall finite (aset out k (add (aget out k) x)).
Proof.
  intros Ho Hx. unfold aset, aget. destruct (toIndex k) as [z|]; [|exact Ho].
  unfold getZ. destruct ((0 <=? z)%Z && (z <? Z.of_nat (length out))%Z) eqn:E; [|exact Ho].
  apply andb_true_iff in E as [E1 E2]. apply Z.leb_le in E1. apply Z.ltb_lt in E2.
  apply Forall_insert; [exact Ho|].
  apply finite_add; [|exact Hx]. apply finite_nth; [exact Ho|lia].
Qed.

Lemma lt_ofZ_zero (i : Z) gs : (0 <= i)%Z -> lt (ofZ i) gs = true -> lt (ofZ 0) gs = true.
Proof.
  intros Hi. destruct gs as [g| | |]; cbn; try (intros; assumption || reflexivity).
  intros H. apply negb_true_iff in H. apply negb_true_iff.
  apply Qle_bool_false. apply Qnot_le_lt. intros Hg.
  assert (Qle_bool g (inject_Z i) = true); [|congruence].
  apply Qle_bool_iff. apply Qle_trans with (inject_Z 0); [exact Hg|].
  rewrite <- Zle_Qle. exact Hi.
Qed.


Lemma winIdx_in_range (i : Z) (g : Q) (w : GrainWindow) :
  windowOk w -> (0 <= i)%Z -> inject_Z i < g ->
  exists z, intValued (floor (mul (div (ofZ i) (Fin g)) (size w))) z /\
            (0 <= z < Z.of_nat (length (data w)))%Z.
Proof.
  intros (Hs & Hn & _) Hi Hg. rewrite Hs.
  assert (Hi' : 0 <= inject_Z i) by (change 0 with (inject_Z 0); rewrite <- Zle_Qle; exact Hi).
  assert (Hg0 : 0 < g) by lra.
  unfold ofNat, ofZ. rewrite div_Fin by (apply Qeq_bool_false_pos; exact Hg0).
  rewrite mul_Fin. cbn [floor]. eexists. split; [apply intValued_ofZ|].
  set (n := Z.of_nat (length (data w))).
  assert (Hn' : 0 < inject_Z n).
  { change 0 with (inject_Z 0). rewrite <- Zlt_Qlt. unfold n. lia. }
  assert (Hr : 0 <= inject_Z i / g) by (apply Qle_shift_div_l; lra).
  assert (Hr1 : inject_Z i / g < 1) by (apply Qlt_shift_div_r; lra).
  split.
  - change 0%Z with (Qfloor 0). apply Qfloor_resp_le.
    rewrite !Qred_correct. apply Qmult_le_0_compat; lra.
  - rewrite Zlt_Qlt. eapply Qle_lt_trans; [apply Qfloor_le|].
    rewrite !Qred_correct.
    assert (H : inject_Z i / g * inject_Z n < 1 * inject_Z n)
      by (apply Qmult_lt_compat_r; assumption).
    rewrite Qmult_1_l in H. exact H.
Qed.

Lemma grainLoop_finite fuel (input : f32array) gs inStart outputPos window :
  Forall finite input ->
  (forall w, window = Some w -> windowOk w) ->
  (lt (ofZ 0) gs = true -> grainFacts input gs inStart) ->
  forall st r, (0 <= fst st)%Z -> Forall finite (snd st) ->
  iterate fuel (grainStep input gs inStart outputPos window) st = Ret r ->
  Forall finite (snd r).
Proof.
  intros Hin Hw Hf st r Hi Ho Hr.
  assert (H : (0 <= fst r)%Z /\ Forall finite (snd r)); [|apply H].
  revert Hr. apply (iterate_inv (fun st => (0 <= fst st)%Z /\ Forall finite (snd st)));
    [| |split; assumption].
  - intros [i o] s' [Hi' Ho']. cbn [fst snd] in Hi', Ho'. unfold grainStep.
    destruct (lt (ofZ i) gs && lt (add outputPos (ofZ i)) (len o)) eqn:E; [|discriminate].
    apply andb_true_iff in E as [E _].
    destruct window as [w|]; [|discriminate]. cbn [windowOf bind].
    intros [= <-]. cbn [fst snd]. split; [lia|].
    destruct (Hf (lt_ofZ_zero i gs Hi' E)) as (g & s & -> & Hg & Hs & Hs0 & Hlen).
    assert (Hig : inject_Z i < g).
    { cbn in E. apply negb_true_iff in E. apply Qnot_le_lt. intros H.
      apply Qle_bool_iff in H. congruence. }
    apply aset_add_finite; [exact Ho'|]. apply finite_mul.
    + apply (aget_finite input _ (Z.min (s + i) (Z.of_nat (length input) - 1))).
      * exact Hin.
      * apply intValued_min.
        -- apply intValued_add; [exact Hs|apply intValued_ofZ].
        -- apply (intValued_sub (ofZ (Z.of_nat (length input))) (ofZ 1));
             apply intValued_ofZ.
      * assert (Hl : (s < Z.of_nat (length input))%Z).
        { rewrite Zlt_Qlt. lra. }
        lia.
    + destruct (winIdx_in_range i g w (Hw w eq_refl) Hi' Hig) as (z & Hz & Hrange).
      apply (aget_finite (data w) _ z); [apply (Hw w eq_refl)|exact Hz|exact Hrange].
  - intros [i o] s' [Hi' Ho']. unfold grainStep.
    destruct (_ && _); [destruct window; discriminate|].
    intros [= <-]. split; assumption.
Qed.

Lemma lt_NInf_false x : lt x NInf = false.
Proof. destruct x; reflexivity. Qed.

Lemma granularLoop_finite fuel (input : f32array) gs hopOut window :
  Forall finite input ->
  (forall w, window = Some w -> windowOk w) ->
  forall st r,
  Forall finite (snd st) ->
  (forall g, gs = Fin g -> 0 < g -> exists p, intValued (fst (fst st)) p /\ (0 <= p)%Z) ->
  iterate fuel (granularStep fuel input gs (hopInOf gs) hopOut window) st = Ret r ->
  Forall finite (snd r).
Proof.
  intros Hin Hw st r Ho Hp Hr.
  set (P := fun st : num * num * f32array =>
              Forall finite (snd st) /\
              (forall g, gs = Fin g -> 0 < g ->
                 exists p, intValued (fst (fst st)) p /\ (0 <= p)%Z)).
  assert (H : P r); [|apply H].
  revert Hr. apply (iterate_inv P); [| |split; assumption].
  - intros [[inputPos outputPos] o] s' [Ho' Hp']. cbn [fst snd] in Ho', Hp'.
    unfold granularStep.
    destruct (lt outputPos (sub (len o) gs)) eqn:Ec; [|discriminate].
    destruct (ge (floor inputPos) (sub (len input) gs)) eqn:Eg; [discriminate|].
    match goal with |- context [iterate fuel ?s ?i] =>
      destruct (iterate fuel s i) as [r'| |] eqn:Ei end; try discriminate.
    cbn [bind]. intros [= <-]. split; cbn [fst snd].
    + apply (grainLoop_finite fuel input gs (floor inputPos) outputPos window Hin Hw)
        with (st := (0%Z, o)); [|cbn; lia|exact Ho'|exact Ei].
      intros H0. destruct gs as [g| | |]; try discriminate H0.
      * assert (Hg : 0 < g).
        { cbn in H0. apply negb_true_iff in H0. apply Qnot_le_lt. intros H.
          apply Qle_bool_iff in H. change (inject_Z 0) with 0 in H0. congruence. }
        destruct (Hp' g eq_refl Hg) as (p & Hpos & Hp0).
        exists g, p. split; [reflexivity|]. split; [exact Hg|].
        split; [apply intValued_floor, Hpos|]. split; [exact Hp0|].
        destruct Hpos as (q & -> & Hq).
        unfold ge, len, ofNat, ofZ in Eg. cbn [floor sub add neg le] in Eg. unfold ofZ in Eg.
        apply Qnot_le_lt. intros H.
        assert (Qle_bool (Qred (inject_Z (Z.of_nat (length input)) + Qred (- g)))
                         (inject_Z (Qfloor q)) = true); [|congruence].
        apply Qle_bool_iff. rewrite !Qred_correct.
        assert (E : Qfloor q = p) by (rewrite Hq; apply Qfloor_Z). rewrite E. lra.
      * unfold len, ofNat, ofZ in Ec. cbn [sub neg add] in Ec.
        rewrite lt_NInf_false in Ec. discriminate.
    + intros g -> Hg. destruct (Hp' g eq_refl Hg) as (p & Hpos & Hp0).
      exists (p + Qfloor (Qred (g * (1 # 4))))%Z. split.
      * apply intValued_add; [exact Hpos|]. unfold hopInOf. rewrite mul_Fin.
        apply intValued_ofZ.
      * assert (0 <= Qfloor (Qred (g * (1 # 4))))%Z; [|lia].
        change 0%Z with (Qfloor 0). apply Qfloor_resp_le. rewrite Qred_correct. lra.
  - intros [[inputPos outputPos] o] s' HP. unfold granularStep.
    destruct (lt _ _).
    + destruct (ge _ _).
      * intros [= <-]. exact HP.
      * match goal with |- context [iterate fuel ?s ?i] =>
          destruct (iterate fuel s i) as [r'| |] end; discriminate.
    + intros [= <-]. exact HP.
Qed.

Lemma warp_mapGet_In {V : Type} (m : list (Z * V)) k v :
  WarpEngine.mapGet m k = Some v -> In (k, v) m.
Proof.
  induction m as [|[k' v'] m IH]; cbn; [discriminate|].
  destruct (k' =? k)%Z eqn:E.
  - apply Z.eqb_eq in E. subst k'. intros [= ->]. left. reflexivity.
  - intros H. right. apply IH, H.
Qed.

Lemma getGrainWindow_ok e sz w : windowsOk e -> getGrainWindow e sz = Some w -> windowOk w.
Proof.
  intros He. unfold getGrainWindow. destruct (sortZ _); [discriminate|].
  intros H. apply warp_mapGet_In in H. eapply He, H.
Qed.

Lemma fillZero_finite a : Forall finite (fillZero a).
Proof. unfold fillZero. apply Forall_map, Forall_true. intros _. eexists. reflexivity. Qed.

Lemma granularSynth_finite fuel e (input output : f32array) ratio out :
  windowsOk e -> Forall finite input ->
  granularSynth fuel e input output ratio = Ret out -> Forall finite out.
Proof.
  intros He Hin. unfold granularSynth.
  match goal with |- context [iterate fuel ?s ?i] =>
    destruct (iterate fuel s i) as [r| |] eqn:Ei end; try discriminate.
  cbn [bind]. intros [= <-].
  eapply (granularLoop_finite fuel input); [exact Hin| | | |exact Ei].
  - intros w Hw. eapply getGrainWindow_ok; eassumption.
  - apply fillZero_finite.
  - intros g _ _. exists 0%Z. split; [apply intValued_ofZ|lia].
Qed.

(** The granular half of the no-clip property: with the windows the engine
    is built with and an input of numbers, a completed [granularStretch]
    leaves every output sample a number of absolute value at most 1. *)
Theorem granularStretch_within1 fuel e (input output : f32array) ratio out :
  windowsOk e -> Forall finite input ->
  granularStretch fuel e input output ratio = Ret out -> Forall within1 out.
Proof.
  intros He Hin. unfold granularStretch.
  destruct (granularSynth fuel e input output ratio) as [pre| |] eqn:E; try discriminate.
  cbn [bind]. intros [= <-]. apply normalizeClip_within1.
  eapply granularSynth_finite; eassumption.
Qed.

Lemma hannWindow_ok (hann : Z -> Z -> Q) (sz : Z) :
  (0 < sz)%Z ->
  windowOk {| data := map (fun i : nat => Fin (hann sz (Z.of_nat i))) (seq 0 (Z.to_nat sz));
              size := ofZ sz |}.
Proof.
  intros Hsz. split; [|split]; cbn [size data].
  - rewrite length_map, length_seq. unfold ofNat. rewrite Z2Nat.id by lia. reflexivity.
  - rewrite length_map, length_seq. lia.
  - apply Forall_map, Forall_true. intros ?. eexists. reflexivity.
Qed.

Lemma windowsOk_new hann : windowsOk (newEngine hann).
Proof.
  intros k w H. unfold newEngine, initializeGrainWindows in H.
  cbn [grainWindows] in H. apply in_map_iff in H as (sz & E & Hsz).
  assert (Hpos : (0 < sz)%Z) by (cbn [In] in Hsz; lia).
  injection E as <- <-. apply hannWindow_ok, Hpos.
Qed.

(** When the peak exceeds 1 every sample is divided by it. *)
Lemma normalizeClip_divides (a : f32array) :
  gt (peak a) (ofZ 1) = true -> normalizeClip a = map (fun x => div x (peak a)) a.
Proof. intros H. unfold normalizeClip. rewrite H. reflexivity. Qed.

(** A run of the granular stretch that needs the normalization: 120 samples
    of 1.0 at ratio 1 with 44-sample grains overlap to a peak of 2 and come
    out with a peak of 1. *)
Lemma granularStretch_within1_example :
  windowsOk (smallGrains flatWindow) /\
  (exists pre, granularSynth 100 (smallGrains flatWindow) (repeat (Fin 1) 120)
                 (repeat (ofZ 0) 120) (ofZ 1) = Ret pre /\ peak pre = ofZ 2) /\
  exists out, granularStretch 100 (smallGrains flatWindow) (repeat (Fin 1) 120)
                (repeat (ofZ 0) 120) (ofZ 1) = Ret out /\
              peak out = ofZ 1 /\ Forall within1 out.
Proof.
  assert (Hw : windowsOk (smallGrains flatWindow)) by apply (windowsOk_new flatWindow).
  split; [exact Hw|]. split.
  - eexists. split; [vm_compute; reflexivity|vm_compute; reflexivity].
  - destruct (granularStretch 100 (smallGrains flatWindow) (repeat (Fin 1) 120)
                (repeat (ofZ 0) 120) (ofZ 1)) as [out| |] eqn:E;
      [|vm_compute in E; discriminate E|vm_compute in E; discriminate E].
    exists out. split; [reflexivity|]. split.
    + assert (E' := E). vm_compute in E'. injection E' as <-. vm_compute. reflexivity.
    + eapply granularStretch_within1; [exact Hw| |exact E].
      apply List.Forall_forall. intros x Hx. apply repeat_spec in Hx. subst x.
      eexists. reflexivity.
Qed.

End GranularFacts.

(** ** NaN out of the texture stretch *)
Section TextureNaN.
Import JS Types WarpEngine.
Local Open Scope Q_scope.

Lemma add_NaN_r x : add x NaN = NaN.
Proof. destruct x; reflexivity. Qed.

Lemma getZ_aset_same (o : f32array) k v :
  getZ o 0 = v -> getZ (aset o k v) 0 = v.
Proof.
  intros H. unfold aset. destruct (toIndex k) as [z|]; [|exact H].
  destruct ((0 <=? z)%Z && (z <? Z.of_nat (length o))%Z) eqn:E; [|exact H].
  apply andb_true_iff in E as [E1 E2]. apply Z.leb_le in E1. apply Z.ltb_lt in E2.
  unfold getZ in *. rewrite length_insert.
  destruct ((0 <=? 0)%Z && (0 <? Z.of_nat (length o))%Z) eqn:E0; [|exact H].
  rewrite !nth_lookup in *. change (Z.to_nat 0) with O in *.
  destruct (decide (Z.to_nat z = O)) as [Ez|Ez].
  - rewrite Ez, list_lookup_insert_eq by lia. reflexivity.
  - rewrite list_lookup_insert_ne by exact Ez. exact H.
Qed.

Lemma getZ_aset_zero (o : f32array) v :
  (0 < length o)%nat -> getZ (aset o (add (ofZ 0) (ofZ 0)) v) 0 = v.
Proof.
  intros Hl. unfold aset. change (add (ofZ 0) (ofZ 0)) with (ofZ 0).
  rewrite toIndex_ofZ.
  replace ((0 <=? 0)%Z && (0 <? Z.of_nat (length o))%Z) with true
    by (symmetry; apply andb_true_iff; split; [reflexivity|apply Z.ltb_lt; lia]).
  unfold getZ. rewrite length_insert.
  replace ((0 <=? 0)%Z && (0 <? Z.of_nat (length o))%Z) with true
    by (symmetry; apply andb_true_iff; split; [reflexivity|apply Z.ltb_lt; lia]).
  rewrite nth_lookup. change (Z.to_nat 0) with O.
  rewrite list_lookup_insert_eq by lia. reflexivity.
Qed.

Lemma getZ_head (x : num) (a : f32array) : getZ (x :: a) 0 = x.
Proof.
  unfold getZ. cbn [length]. rewrite Nat2Z.inj_succ.
  replace (0 <? Z.succ (Z.of_nat (length a)))%Z with true
    by (symmetry; apply Z.ltb_lt; lia).
  reflexivity.
Qed.

Lemma peak_NaN (a : f32array) : getZ a 0 = NaN -> (0 < length a)%nat -> peak a = NaN.
Proof.
  destruct a as [|x a]; cbn [length]; [lia|]. intros H _.
  rewrite getZ_head in H. subst x. unfold peak. cbn [fold_left abs max].
  induction a as [|y a IH]; [reflexivity|exact IH].
Qed.

Lemma normalizeClip_NaN (a : f32array) :
  getZ a 0 = NaN -> (0 < length a)%nat -> normalizeClip a = a.
Proof.
  intros H Hl. unfold normalizeClip. rewrite (peak_NaN a H Hl). reflexivity.
Qed.

(** A grain read at a NaN start writes NaN, and leaves NaN what already is. *)
Lemma textureGrain_NaN fuel (input : f32array) gs outputPos ampVar window (n : nat) :
  forall st r,
  length (snd st) = n ->
  getZ (snd st) 0 = NaN ->
  iterate fuel (textureGrainStep input gs NaN outputPos ampVar window) st = Ret r ->
  length (snd r) = n /\ getZ (snd r) 0 = NaN.
Proof.
  intros st r Hl H0.
  apply (iterate_inv (fun st => length (snd st) = n /\ getZ (snd st) 0 = NaN));
    [| |split; assumption].
  - intros [i o] s' [Hl' H']. cbn [snd] in Hl', H'. unfold textureGrainStep.
    destruct (_ && _); [|discriminate]. destruct window as [w|]; [|discriminate].
    cbn [windowOf bind add aget toIndex mul]. rewrite add_NaN_r.
    intros [= <-]. cbn [snd]. rewrite length_aset. split; [exact Hl'|].
    apply getZ_aset_same, H'.
  - intros [i o] s' HP. unfold textureGrainStep.
    destruct (_ && _); [destruct window; discriminate|]. intros [= <-]. exact HP.
Qed.

Lemma textureGrain_first_NaN fuel (input : f32array) gs ampVar window (o : f32array) r :
  lt (ofZ 0) gs = true -> (0 < length o)%nat ->
  iterate fuel (textureGrainStep input gs NaN (ofZ 0) ampVar window) (0%Z, o) = Ret r ->
  length (snd r) = length o /\ getZ (snd r) 0 = NaN.
Proof.
  intros Hg Hl. destruct fuel as [|fuel]; [discriminate|].
  cbn [iterate]. unfold textureGrainStep at 1. rewrite Hg.
  replace (lt (add (ofZ 0) (ofZ 0)) (len o)) with true.
  2:{ symmetry. unfold len, ofNat. change (add (ofZ 0) (ofZ 0)) with (ofZ 0). cbn.
      apply negb_true_iff, Qle_bool_false. rewrite <- Zlt_Qlt. lia. }
  cbn [andb]. destruct window as [w|]; [|discriminate].
  cbn [windowOf bind aget toIndex mul add]. rewrite add_NaN_r.
  intros H. eapply textureGrain_NaN in H; [exact H| |].
  - cbn [snd]. apply length_aset.
  - cbn [snd]. apply getZ_aset_zero, Hl.
Qed.

Lemma textureLoop_NaN fuel fuel' rnd (input : f32array) gs hopOut window (n : nat) :
  sub (len input) gs = ofZ 0 ->
  forall st r,
  length (snd (fst st)) = n -> getZ (snd (fst st)) 0 = NaN ->
  iterate fuel (textureStep fuel' rnd input gs hopOut window) st = Ret r ->
  length (snd (fst r)) = n /\ getZ (snd (fst r)) 0 = NaN.
Proof.
  intros Hz st r Hl H0.
  apply (iterate_inv (fun st => length (snd (fst st)) = n /\ getZ (snd (fst st)) 0 = NaN));
    [| |split; assumption].
  - intros [[p o] j] s' [Hl' H']. cbn [fst snd] in Hl', H'. unfold textureStep.
    destruct (lt p _); [|discriminate]. rewrite Hz.
    match goal with |- context [rem ?a (ofZ 0)] =>
      replace (rem a (ofZ 0)) with NaN by (destruct a; reflexivity) end.
    cbn [floor].
    change (lt NaN (ofZ 0) || ge NaN (ofZ 0)) with false. cbv iota.
    match goal with |- context [iterate fuel' ?s ?i] =>
      destruct (iterate fuel' s i) as [r'| |] eqn:Ei end; try discriminate.
    cbn [bind]. intros [= <-]. cbn [fst snd].
    eapply textureGrain_NaN; [| |exact Ei]; assumption.
  - intros [[p o] j] s' HP. unfold textureStep.
    destruct (lt p _).
    + destruct (_ || _); [discriminate|].
      match goal with |- context [iterate fuel' ?s ?i] =>
        destruct (iterate fuel' s i) as [r'| |] end; discriminate.
    + intros [= <-]. exact HP.
Qed.

Lemma lt_Fin_true (a b : Q) : lt (Fin a) (Fin b) = true -> a < b.
Proof.
  unfold lt. intros H. apply negb_true_iff in H.
  apply Qnot_le_lt. intros Hle. apply Qle_bool_iff in Hle. congruence.
Qed.

Lemma lt_sub_nonempty (a : list num) gs :
  lt (ofZ 0) gs = true -> lt (ofZ 0) (sub (len a) gs) = true -> (0 < length a)%nat.
Proof.
  destruct gs as [g| | |]; try discriminate.
  unfold len, ofNat, ofZ. rewrite sub_Fin. intros Hg Hs.
  apply lt_Fin_true in Hg, Hs. rewrite !Qred_correct in Hs.
  change (inject_Z 0) with 0 in Hg, Hs.
  assert (H3 : inject_Z 0 < inject_Z (Z.of_nat (length a)))
    by (change (inject_Z 0) with 0; lra).
  rewrite <- Zlt_Qlt in H3. lia.
Qed.

(** Whenever the input is exactly one grain long and the output is longer
    than a grain, a completed texture stretch leaves NaN in [output[0]]:
    the read position is a remainder modulo 0. *)
Theorem texture_NaN_on_one_grain_input (fuel : nat) (e : Engine) (rnd : nat -> Q)
    (input output : f32array) (ratio : num) (k k' : nat) (out : f32array) :
  sub (len input) (grainSamples e) = ofZ 0 ->
  lt (ofZ 0) (grainSamples e) = true ->
  lt (ofZ 0) (sub (len output) (grainSamples e)) = true ->
  textureGranularStretch fuel e rnd input output ratio k = Ret (out, k') ->
  getZ out 0 = NaN.
Proof.
  intros Hz Hg Hlt. unfold textureGranularStretch, textureSynth.
  pose proof (lt_sub_nonempty output _ Hg Hlt) as Hne.
  set (gs := grainSamples e) in *.
  set (window := getGrainWindow e gs).
  set (hopOut := floor (Binary64.mul (hopInOf gs) ratio)).
  destruct fuel as [|fuel]; [discriminate|].
  cbn [iterate]. unfold textureStep at 1.
  assert (Hl0 : length (fillZero output) = length output)
    by (unfold fillZero; apply length_map).
  assert (Hlen : len (fillZero output) = len output) by (unfold len; rewrite Hl0; reflexivity).
  rewrite !Hlen, Hlt, Hz.
  match goal with |- context [rem ?a (ofZ 0)] =>
    replace (rem a (ofZ 0)) with NaN by (destruct a; reflexivity) end.
  cbn [floor].
  change (lt NaN (ofZ 0) || ge NaN (ofZ 0)) with false. cbv iota.
  match goal with |- context [iterate (S fuel) ?s ?i] =>
    destruct (iterate (S fuel) s i) as [r1| |] eqn:E1 end; try discriminate.
  apply textureGrain_first_NaN in E1 as [Hl1 H1]; [|exact Hg|rewrite Hl0; exact Hne].
  cbn [bind].
  match goal with |- context [iterate fuel ?s ?i] =>
    destruct (iterate fuel s i) as [r2| |] eqn:E2 end; try discriminate.
  cbn [bind]. intros [= <- <-].
  apply (textureLoop_NaN fuel (S fuel) rnd input gs hopOut window (length output) Hz) in E2.
  - destruct E2 as [Hl2 H2]. rewrite normalizeClip_NaN; [exact H2|exact H2|lia].
  - cbn [fst snd]. rewrite Hl1. exact Hl0.
  - exact H1.
Qed.

Lemma lt_zero_sub (n g : Z) : (g < n)%Z -> lt (ofZ 0) (sub (ofZ n) (ofZ g)) = true.
Proof.
  intros H. unfold ofZ. rewrite sub_Fin. unfold lt. apply negb_true_iff, Qle_bool_false.
  rewrite !Qred_correct. change (inject_Z 0) with 0.
  rewrite Zlt_Qlt in H. lra.
Qed.

(** The same with the settings a new engine has (50 ms grains, 2205
    samples): any input of exactly 2205 samples, any longer output. *)
Corollary texture_NaN_default_grain (fuel : nat) (hann : Z -> Z -> Q) (rnd : nat -> Q)
    (input output : f32array) (ratio : num) (k k' : nat) (out : f32array) :
  length input = 2205%nat -> (2205 < length output)%nat ->
  textureGranularStretch fuel (newEngine hann) rnd input output ratio k = Ret (out, k') ->
  getZ out 0 = NaN.
Proof.
  intros Hi Ho.
  assert (Hgs : grainSamples (newEngine hann) = ofZ 2205) by reflexivity.
  apply texture_NaN_on_one_grain_input; rewrite Hgs.
  - unfold len. rewrite Hi. reflexivity.
  - reflexivity.
  - unfold len, ofNat. apply lt_zero_sub. lia.
Qed.
End TextureNaN.

(** ** Clip launcher *)
Section LauncherFacts.
Import JS Types ClipLauncher Inputs.
Local Open Scope string_scope.
Local Open Scope list_scope.


Lemma map_alter_same {A B : Type} (g : A -> B) (f : A -> A) (r : nat) (h : list A) :
  (forall x, g (f x) = g x) -> map g (alter f r h) = map g h.
Proof.
  intros Hg. revert r. induction h as [|x h IH]; intros [|r]; cbn; try reflexivity.
  - rewrite Hg. reflexivity.
  - f_equal. apply IH.
Qed.

Lemma launchTimes_mutate l r f :
  (forall x, launchTime (f x) = launchTime x) ->
  launchTimes (mutate l r f) = launchTimes l.
Proof. intros H. unfold launchTimes, mutate. cbn. apply map_alter_same, H. Qed.

Lemma launchTimes_startClip l r : launchTimes (startClip l r) = launchTimes l.
Proof.
  unfold startClip. destruct (heap l !! r); [|reflexivity].
  unfold launchTimes. cbn. apply map_alter_same. reflexivity.
Qed.


Lemma sameTransport_getPosition l l' : sameTransport l l' -> getPosition l' = getPosition l.
Proof. intros (H1 & H2 & H3 & H4 & H5 & H6). unfold getPosition. rewrite H1, H3, H4, H5, H6. reflexivity. Qed.

Lemma sameTransport_startClip l r : sameTransport l (startClip l r).
Proof. unfold startClip. destruct (heap l !! r); repeat split. Qed.


Lemma launchClip_launchTimes l t slot c q :
  launchTimes (launchClip l t slot c q) = launchTimes l ++ [launchBeatOf l t c q].
Proof.
  unfold launchClip, launchBeatOf.
  set (B := getNextQuantizedBeat (getPosition l) (resolveQ l q) (bpm l)).
  assert (H : forall l3, launchTimes l3 = launchTimes l ++
             [match mapGet (playing l) t with Some _ => if isLegato c then getPosition l else B | None => B end] ->
             launchTimes (if isNone (resolveQ l q) || le B (getPosition l) then startClip l3 (length (heap l)) else l3)
             = launchTimes l ++
             [match mapGet (playing l) t with Some _ => if isLegato c then getPosition l else B | None => B end]).
  { intros l3 H3. destruct (_ || _); [rewrite launchTimes_startClip|]; exact H3. }
  cbv zeta. apply H. clear H.
  destruct (mapGet (playing l) t) as [p|]; unfold launchTimes; cbn.
  - rewrite map_alter_same by reflexivity. rewrite map_app. cbn.
    destruct (isLegato c); reflexivity.
  - rewrite map_app. reflexivity.
Qed.

Lemma sameTransport_launchClip l t slot c q : sameTransport l (launchClip l t slot c q).
Proof.
  unfold launchClip. cbv zeta.
  destruct (_ || _).
  - unfold startClip. destruct (_ !! _); destruct (mapGet (playing l) t); repeat split.
  - destruct (mapGet (playing l) t); repeat split.
Qed.


Lemma sameTransport_refl l : sameTransport l l.
Proof. repeat split. Qed.

Lemma sameTransport_trans l1 l2 l3 :
  sameTransport l1 l2 -> sameTransport l2 l3 -> sameTransport l1 l3.
Proof.
  intros (A1 & A2 & A3 & A4 & A5 & A6) (B1 & B2 & B3 & B4 & B5 & B6).
  repeat split; congruence.
Qed.

Lemma sameTransport_launchScene (clips : list SceneClip) (q : LaunchQuantization) :
  forall l, sameTransport l (launchScene l clips q).
Proof.
  induction clips as [|sc clips IH]; intros l; [apply sameTransport_refl|].
  cbn [launchScene fold_left]. eapply sameTransport_trans; [|apply IH].
  apply sameTransport_launchClip.
Qed.

Lemma launchBeatOf_sceneBeat (l0 l : Launcher) (sc : SceneClip) (q : LaunchQuantization) :
  sameTransport l0 l ->
  launchBeatOf l (sceneTrack sc) (sceneClip sc) q
  = sceneBeat (getPosition l0)
      (getNextQuantizedBeat (getPosition l0) (resolveQ l0 q) (bpm l0)) l sc.
Proof.
  intros Ht. pose proof (sameTransport_getPosition _ _ Ht) as Hp.
  destruct Ht as (Hbpm & Hg & _).
  assert (Hr : resolveQ l q = resolveQ l0 q) by (unfold resolveQ; rewrite Hg; reflexivity).
  unfold launchBeatOf, sceneBeat, isPlaying. rewrite Hp, Hr, Hbpm.
  destruct (mapGet (playing l) (sceneTrack sc)); destruct (isLegato (sceneClip sc));
    reflexivity.
Qed.

Lemma launchScene_app (l : Launcher) (xs ys : list SceneClip) (q : LaunchQuantization) :
  launchScene l (xs ++ ys) q = launchScene (launchScene l xs q) ys q.
Proof. unfold launchScene. apply fold_left_app. Qed.

Lemma launchScene_launchTimes (q : LaunchQuantization) (l0 : Launcher)
    (clips : list SceneClip) :
  forall pre,
    launchTimes (launchScene l0 (pre ++ clips) q)
    = launchTimes (launchScene l0 pre q) ++
      imap (fun i sc =>
              sceneBeat (getPosition l0)
                (getNextQuantizedBeat (getPosition l0) (resolveQ l0 q) (bpm l0))
                (launchScene l0 (pre ++ take i clips) q) sc)
           clips.
Proof.
  induction clips as [|sc clips IH]; intros pre.
  - cbn. rewrite !app_nil_r. reflexivity.
  - replace (pre ++ sc :: clips) with ((pre ++ [sc]) ++ clips)
      by (rewrite <- app_assoc; reflexivity).
    rewrite IH. rewrite (launchScene_app l0 pre [sc]). cbn [launchScene fold_left].
    rewrite launchClip_launchTimes, <- app_assoc. f_equal.
    cbn [imap app take]. rewrite app_nil_r. f_equal.
    + apply launchBeatOf_sceneBeat, sameTransport_launchScene.
    + apply imap_ext. intros i x _. cbn.
      rewrite <- app_assoc. reflexivity.
Qed.

(** C3, as amended. Launching a scene with 1-bar quantization computes
    every launch beat from the one transport position of the call: clip
    number [i] gets the next bar boundary at or after that position, the
    same for all, unless it is in legato mode and its track has a playing
    clip when its turn comes (after the first [i] clips of the scene have
    been launched); then it gets that position itself. *)
Theorem scene_launch_snapshot (l : Launcher) (clips : list SceneClip) :
  sceneLaunchBeats l clips Q1Bar
  = imap (fun i sc =>
            sceneBeat (getPosition l) (getNextQuantizedBeat (getPosition l) Q1Bar (bpm l))
              (launchScene l (take i clips) Q1Bar) sc)
         clips.
Proof.
  unfold sceneLaunchBeats.
  pose proof (launchScene_launchTimes Q1Bar l clips []) as H.
  cbn [app] in H. rewrite H.
  replace (length (heap l)) with (length (launchTimes (launchScene l [] Q1Bar)))
    by (unfold launchTimes; apply length_map).
  rewrite drop_app_length. reflexivity.
Qed.

Lemma sceneBeat_plain pos boundary before sc :
  isLegato (sceneClip sc) = false -> sceneBeat pos boundary before sc = boundary.
Proof. unfold sceneBeat. intros ->. reflexivity. Qed.

(** A scene with no legato clip: every launch beat is the bar boundary. *)
Lemma scene_without_legato (l : Launcher) (clips : list SceneClip) :
  Forall (fun sc => isLegato (sceneClip sc) = false) clips ->
  sceneLaunchBeats l clips Q1Bar
  = map (fun _ => getNextQuantizedBeat (getPosition l) Q1Bar (bpm l)) clips.
Proof.
  intros Hplain. unfold sceneLaunchBeats.
  pose proof (launchScene_launchTimes Q1Bar l clips []) as H.
  cbn [app] in H. rewrite H.
  replace (length (heap l)) with (length (launchTimes (launchScene l [] Q1Bar)))
    by (unfold launchTimes; apply length_map).
  rewrite drop_app_length. clear H.
  change (resolveQ l Q1Bar) with Q1Bar.
  rewrite <- (imap_const (fun _ => getNextQuantizedBeat (getPosition l) Q1Bar (bpm l))).
  apply imap_ext. intros i sc Hi. apply sceneBeat_plain.
  exact (Forall_lookup_1 _ _ _ _ Hplain Hi).
Qed.


Lemma In_mapSet (m : jsmap) k v kv : In kv (mapSet m k v) -> kv = (k, v) \/ In kv m.
Proof.
  induction m as [|[k' v'] m IH]; cbn.
  - intros [<-|[]]. left. reflexivity.
  - destruct (String.eqb k' k) eqn:E; cbn.
    + apply String.eqb_eq in E. subst k'. intros [<-|H]; [left; reflexivity|right; right; exact H].
    + intros [<-|H]; [right; left; reflexivity|]. destruct (IH H) as [->|H']; [left; reflexivity|right; right; exact H'].
Qed.

Lemma In_mapDelete (m : jsmap) k kv : In kv (mapDelete m k) -> In kv m /\ fst kv <> k.
Proof.
  unfold mapDelete. rewrite filter_In. intros [H E]. split; [exact H|].
  intros Hk. rewrite Hk, String.eqb_refl in E. discriminate.
Qed.

Lemma mapGet_In (m : jsmap) k v : mapGet m k = Some v -> In (k, v) m.
Proof.
  induction m as [|[k' v'] m IH]; cbn; [discriminate|].
  destruct (String.eqb k' k) eqn:E.
  - apply String.eqb_eq in E. subst k'. intros [= ->]. left. reflexivity.
  - intros H. right. apply IH, H.
Qed.

Lemma mapGet_None (m : jsmap) k : (forall r, ~ In (k, r) m) -> mapGet m k = None.
Proof.
  intros H. destruct (mapGet m k) as [v|] eqn:E; [|reflexivity].
  exfalso. apply (H v), mapGet_In, E.
Qed.

Lemma calm_refl ok l : calm ok l l.
Proof.
  split; [reflexivity|]. split; [auto|]. exists []. split; [rewrite app_nil_r; reflexivity|].
  intros k s [].
Qed.

Lemma calm_trans ok l1 l2 l3 : calm ok l1 l2 -> calm ok l2 l3 -> calm ok l1 l3.
Proof.
  intros (H1 & H2 & e1 & H3 & H4) (G1 & G2 & e2 & G3 & G4).
  split; [congruence|]. split; [auto|].
  exists (e1 ++ e2). split; [rewrite G3, H3, app_assoc; reflexivity|].
  intros k s H. apply in_app_or in H as [H|H]; eauto.
Qed.

Lemma calm_same ok l l' :
  trackIds l' = trackIds l -> triggered l' = triggered l -> events l' = events l ->
  calm ok l l'.
Proof.
  intros H1 H2 H3. split; [exact H1|]. split; [rewrite H2; auto|].
  exists []. split; [rewrite app_nil_r; exact H3|]. intros k s [].
Qed.

Lemma calm_emit (ok : string -> Prop) l ev :
  (forall k s, ev = ClipStarted k s -> ok k) -> calm ok l (emit l ev).
Proof.
  intros H. split; [reflexivity|]. split; [auto|].
  exists [ev]. split; [reflexivity|]. intros k s [->|[]]. eapply H. reflexivity.
Qed.

Lemma calm_mutate ok l r f :
  (forall x, trackId (f x) = trackId x) -> calm ok l (mutate l r f).
Proof.
  intros H. apply calm_same; try reflexivity.
  unfold trackIds, mutate. cbn. apply map_alter_same, H.
Qed.

Lemma calm_untrigger ok l k : calm ok l (withTriggered l (mapDelete (triggered l) k)).
Proof.
  split; [reflexivity|]. split.
  - cbn. intros kv H. apply In_mapDelete in H. tauto.
  - exists []. split; [cbn; rewrite app_nil_r; reflexivity|]. intros ? ? [].
Qed.

Lemma calm_emit_r (ok : string -> Prop) l l' ev :
  (forall k s, ev = ClipStarted k s -> ok k) -> calm ok l l' -> calm ok l (emit l' ev).
Proof. intros H Hc. eapply calm_trans; [exact Hc|apply calm_emit, H]. Qed.

Lemma calm_mutate_r ok l l' r f :
  (forall x, trackId (f x) = trackId x) -> calm ok l l' -> calm ok l (mutate l' r f).
Proof. intros H Hc. eapply calm_trans; [exact Hc|apply calm_mutate, H]. Qed.

Lemma calm_withPlaying_r ok l l' m : calm ok l l' -> calm ok l (withPlaying l' m).
Proof. intros Hc. eapply calm_trans; [exact Hc|apply calm_same; reflexivity]. Qed.

Lemma calm_withStopping_r ok l l' m : calm ok l l' -> calm ok l (withStopping l' m).
Proof. intros Hc. eapply calm_trans; [exact Hc|apply calm_same; reflexivity]. Qed.

Lemma calm_withRandomCalls_r ok l l' n : calm ok l l' -> calm ok l (withRandomCalls l' n).
Proof. intros Hc. eapply calm_trans; [exact Hc|apply calm_same; reflexivity]. Qed.

Lemma calm_untrigger_r ok l l' k :
  calm ok l l' -> calm ok l (withTriggered l' (mapDelete (triggered l') k)).
Proof. intros Hc. eapply calm_trans; [exact Hc|apply calm_untrigger]. Qed.

Lemma calm_stopScheduledClip_r ok l l' r : calm ok l l' -> calm ok l (stopScheduledClip l' r).
Proof.
  intros Hc. unfold stopScheduledClip. destruct (heap l' !! r); [|exact Hc].
  apply calm_emit_r; [discriminate|]. apply calm_mutate_r; [reflexivity|exact Hc].
Qed.

Lemma calm_stopClip_r ok l l' k q : calm ok l l' -> calm ok l (stopClip l' k q).
Proof.
  intros Hc. unfold stopClip. cbv zeta. apply calm_untrigger_r.
  destruct (mapGet (playing l') k) as [p|]; [|exact Hc].
  destruct (_ || _).
  - apply calm_withStopping_r, calm_withPlaying_r, calm_stopScheduledClip_r,
      calm_withStopping_r.
    apply calm_mutate_r; [reflexivity|]. apply calm_mutate_r; [reflexivity|exact Hc].
  - apply calm_withStopping_r.
    apply calm_mutate_r; [reflexivity|]. apply calm_mutate_r; [reflexivity|exact Hc].
Qed.

Lemma calm_startClip_r (ok : string -> Prop) l l' r :
  (forall k, trackIds l' !! r = Some k -> ok k) -> calm ok l l' -> calm ok l (startClip l' r).
Proof.
  intros H Hc. unfold startClip. destruct (heap l' !! r) as [sc|] eqn:E; [|exact Hc].
  apply calm_emit_r.
  - intros k s [= <- _]. apply H. unfold trackIds. rewrite list_lookup_fmap, E. reflexivity.
  - apply calm_withPlaying_r. apply calm_mutate_r; [reflexivity|exact Hc].
Qed.

Lemma calm_processFollowAction_r ok rnd l l' sc fa :
  calm ok l l' -> calm ok l (processFollowAction rnd l' sc fa).
Proof.
  intros Hc. unfold processFollowAction. cbv zeta.
  destruct (action _);
    repeat first
      [ apply calm_stopClip_r
      | apply calm_emit_r; [discriminate|]
      | apply calm_withRandomCalls_r ]; exact Hc.
Qed.

Lemma calm_processPlayingClip_r ok rnd l l' r pos :
  calm ok l l' -> calm ok l (processPlayingClip rnd l' r pos).
Proof.
  intros Hc. unfold processPlayingClip. destruct (heap l' !! r) as [sc|]; [|exact Hc].
  cbv zeta. destruct (loopsOn _).
  - destruct (ge _ _); [|exact Hc].
    destruct (followAction _); [apply calm_processFollowAction_r|];
      (apply calm_emit_r; [discriminate|]); (apply calm_mutate_r; [reflexivity|exact Hc]).
  - destruct (ge _ _); [|exact Hc].
    apply calm_withPlaying_r, calm_stopScheduledClip_r, Hc.
Qed.

Lemma calm_fold {A : Type} ok (f : Launcher -> A -> Launcher) (G : list string -> A -> Prop) :
  (forall l x, G (trackIds l) x -> calm ok l (f l x)) ->
  forall xs l, Forall (G (trackIds l)) xs -> calm ok l (fold_left f xs l).
Proof.
  intros Hf xs. induction xs as [|x xs IH]; intros l H; cbn; [apply calm_refl|].
  inversion H as [|? ? Hx Hxs]; subst.
  pose proof (Hf l x Hx) as Hc.
  eapply calm_trans; [exact Hc|]. apply IH.
  destruct Hc as (-> & _). exact Hxs.
Qed.

Lemma calm_tick (ok : string -> Prop) rnd l :
  keyed l -> (forall k r, In (k, r) (triggered l) -> ok k) -> calm ok l (tick rnd l).
Proof.
  intros Hk Hok. unfold tick. destruct (isTPlaying _); [|apply calm_refl].
  set (pos := getPosition l).
  set (l1 := fold_left (tickTriggered pos) (triggered l) l).
  set (l2 := fold_left (tickStopping pos) (stopping l1) l1).
  apply (calm_trans ok l l1); [|apply (calm_trans ok l1 l2)].
  - apply (calm_fold ok (tickTriggered pos) (fun (tids : list string) (kv : string * nat) =>
              forall k, tids !! snd kv = Some k -> ok k)).
    + intros l0 [k r] H. cbn in H. unfold tickTriggered. cbn [fst snd].
      destruct (heap l0 !! r); [|apply calm_refl].
      destruct (ge _ _); [|apply calm_refl].
      apply calm_untrigger_r, calm_startClip_r; [exact H|apply calm_refl].
    + apply List.Forall_forall. intros [k r] Hin k' Hl. cbn in Hl.
      rewrite (Hk k r Hin) in Hl. injection Hl as <-. eapply Hok, Hin.
  - apply (calm_fold ok (tickStopping pos) (fun (_ : list string) (_ : string * nat) => True)).
    + intros l0 [k r] _. unfold tickStopping. cbn [fst snd].
      destruct (heap l0 !! r) as [sc|]; [|apply calm_refl].
      destruct (stopTime sc); [|apply calm_refl].
      destruct (ge _ _); [|apply calm_refl].
      apply calm_withStopping_r, calm_withPlaying_r, calm_stopScheduledClip_r, calm_refl.
    + apply List.Forall_forall. trivial.
  - apply (calm_fold ok (tickPlaying rnd pos) (fun (_ : list string) (_ : string * nat) => True)).
    + intros l0 [k r] _. unfold tickPlaying. cbn [fst snd].
      destruct (mapGet _ _); [|apply calm_refl].
      destruct (Nat.eqb _ _); [apply calm_processPlayingClip_r|]; apply calm_refl.
    + apply List.Forall_forall. trivial.
Qed.

Lemma calm_keyed ok l l' : calm ok l l' -> keyed l -> keyed l'.
Proof.
  intros (H1 & H2 & _) Hk k r Hin. rewrite H1. apply Hk, H2, Hin.
Qed.



Lemma keyed_launchClip l t slot c q : keyed l -> keyed (launchClip l t slot c q).
Proof.
  intros Hk.
  assert (H : trackIds (launchClip l t slot c q) = trackIds l ++ [t] /\
              forall kv, In kv (triggered (launchClip l t slot c q)) ->
                         kv = (t, length (heap l)) \/ In kv (triggered l)).
  { unfold launchClip. cbv zeta.
    match goal with |- context [if ?b then startClip ?l3 ?r else _] =>
      set (cond := b); set (l3' := l3) end.
    assert (H3 : trackIds l3' = trackIds l ++ [t] /\
                 forall kv, In kv (triggered l3') ->
                            kv = (t, length (heap l)) \/ In kv (triggered l)).
    { unfold l3'. destruct (mapGet (playing l) t) as [p|]; cbn; split.
      - unfold trackIds. cbn. rewrite map_alter_same by reflexivity.
        rewrite map_app. reflexivity.
      - intros kv H. apply In_mapSet in H. exact H.
      - unfold trackIds. cbn. rewrite map_app. reflexivity.
      - intros kv H. apply In_mapSet in H. exact H. }
    destruct cond; [|exact H3].
    destruct (calm_startClip_r anyTrack l3' l3' (length (heap l))) as (E1 & E2 & _);
      [intros; exact I|apply calm_refl|].
    destruct H3 as [H3 H4]. split; [congruence|]. intros kv H. apply H4, E2, H. }
  destruct H as [Ht Hin]. intros k r H. rewrite Ht.
  destruct (Hin _ H) as [[= -> ->]|H'].
  - replace (length (heap l)) with (length (trackIds l))
      by (unfold trackIds; apply length_map).
    apply list_lookup_middle. reflexivity.
  - apply lookup_app_l_Some, Hk, H'.
Qed.

Lemma keyed_fold {A : Type} (f : Launcher -> A -> Launcher) :
  (forall l x, keyed l -> keyed (f l x)) ->
  forall xs l, keyed l -> keyed (fold_left f xs l).
Proof.
  intros Hf xs. induction xs as [|x xs IH]; intros l H; cbn; [exact H|].
  apply IH, Hf, H.
Qed.

Lemma keyed_untriggered l : triggered l = [] -> keyed l.
Proof. intros E k r H. rewrite E in H. destruct H. Qed.

Lemma keyed_same l l' :
  trackIds l' = trackIds l -> triggered l' = triggered l -> keyed l -> keyed l'.
Proof. intros H1 H2 Hk k r H. rewrite H1. apply Hk. rewrite <- H2. exact H. Qed.

Lemma keyed_step rnd l c : keyed l -> keyed (step rnd l c).
Proof.
  intros Hk. destruct c; cbn [step].
  - apply keyed_launchClip, Hk.
  - eapply calm_keyed; [apply (calm_stopClip_r anyTrack), calm_refl|exact Hk].
  - unfold launchScene. apply keyed_fold; [|exact Hk].
    intros l0 x H. apply keyed_launchClip, H.
  - apply keyed_untriggered. reflexivity.
  - unfold start. destruct (isTPlaying _); [exact Hk|].
    revert Hk. apply keyed_same; reflexivity.
  - apply keyed_untriggered. reflexivity.
  - revert Hk. apply keyed_same; reflexivity.
  - revert Hk. apply keyed_same; reflexivity.
  - revert Hk. apply keyed_same; reflexivity.
  - revert Hk. apply keyed_same; reflexivity.
  - eapply calm_keyed; [apply (calm_tick anyTrack); [exact Hk|intros; exact I]|exact Hk].
Qed.

Lemma keyed_run rnd cs : forall l, keyed l -> keyed (run rnd cs l).
Proof.
  unfold run. apply keyed_fold. intros l x. apply keyed_step.
Qed.

Lemma calm_ticksAt rnd t times :
  forall l, keyed l -> (forall r, ~ In (t, r) (triggered l)) ->
  calm (fun k => k <> t) l (ticksAt rnd times l).
Proof.
  induction times as [|c times IH]; intros l Hk Hn; cbn; [apply calm_refl|].
  assert (Hc : calm (fun k => k <> t) l (tick rnd (setClock l c))).
  { apply (calm_trans _ l (setClock l c)); [apply calm_same; reflexivity|].
    apply calm_tick.
    - revert Hk. apply keyed_same; reflexivity.
    - cbn. intros k r H ->. eapply Hn, H. }
  eapply calm_trans; [exact Hc|]. apply IH.
  - eapply calm_keyed; [exact Hc|exact Hk].
  - destruct Hc as (_ & Hsub & _). intros r H. eapply Hn, Hsub, H.
Qed.

(** C4. [stopClip] on a track with a triggered clip, after any calls and
    with any quantization: the clip is out of the triggered map at once, and
    the ticks that follow, at whatever clock readings, emit no
    [clip-started] event for the track. *)
Theorem stop_cancels_pending_trigger (rnd : nat -> Q) (cs : list call) (t : string)
    (q : LaunchQuantization) (r : nat) (times : list num) :
  mapGet (triggered (run rnd cs initial)) t = Some r ->
  let l := stopClip (run rnd cs initial) t q in
  mapGet (triggered l) t = None /\
  ~ In r (map snd (triggered l)) /\
  exists evs, events (ticksAt rnd times l) = events l ++ evs /\
              forall slot, ~ In (ClipStarted t slot) evs.
Proof.
  intros Hr l.
  assert (Hk0 : keyed (run rnd cs initial)) by (apply keyed_run, keyed_untriggered; reflexivity).
  assert (Hc : calm anyTrack (run rnd cs initial) l) by apply calm_stopClip_r, calm_refl.
  assert (Hk : keyed l) by (eapply calm_keyed; eassumption).
  assert (Hn : forall r', ~ In (t, r') (triggered l)).
  { intros r' H. unfold l, stopClip in H. cbv zeta in H. cbn [triggered withTriggered] in H.
    apply In_mapDelete in H as [_ H]. apply H. reflexivity. }
  split; [apply mapGet_None, Hn|]. split.
  - intros H. apply in_map_iff in H as ([k r'] & E & H). cbn in E. subst r'.
    pose proof (Hk k r H) as H1.
    destruct Hc as (Et & Hsub & _).
    pose proof (Hk0 t r (mapGet_In _ _ _ Hr)) as H2.
    rewrite Et in H1. rewrite H1 in H2. injection H2 as ->. eapply Hn, H.
  - destruct (calm_ticksAt rnd t times l Hk Hn) as (_ & _ & evs & He & Hs).
    exists evs. split; [exact He|]. intros slot H. apply (Hs t slot H). reflexivity.
Qed.

Lemma mapGet_mapSet (m : jsmap) k v : mapGet (mapSet m k v) k = Some v.
Proof.
  induction m as [|[k' v'] m IH]; cbn.
  - rewrite String.eqb_refl. reflexivity.
  - destruct (String.eqb k' k) eqn:E; cbn; rewrite E; [reflexivity|exact IH].
Qed.

(** What a legato launch over a playing clip does in general: the new clip
    gets the current beat, the old one goes to the stopping map with the
    quantized boundary as its stop beat. *)
Lemma launchClip_legato (l : Launcher) (t : string) (slot : Z) (c : Clip)
    (q : LaunchQuantization) (p : nat) (sc : ScheduledClip) :
  mapGet (playing l) t = Some p -> heap l !! p = Some sc -> isLegato c = true ->
  let l' := launchClip l t slot c q in
  launchTime <$> heap l' !! length (heap l) = Some (getPosition l) /\
  mapGet (stopping l') t = Some p /\
  stopTime <$> heap l' !! p
  = Some (Some (getNextQuantizedBeat (getPosition l) (resolveQ l q) (bpm l))).
Proof.
  intros Hp Hsc Hleg l'.
  assert (Hlt : (p < length (heap l))%nat) by (eapply lookup_lt_Some; exact Hsc).
  split; [|split].
  - rewrite <- list_lookup_fmap. change (launchTime <$> heap l') with (launchTimes l').
    unfold l'.
    rewrite launchClip_launchTimes. unfold launchBeatOf. rewrite Hp, Hleg.
    replace (length (heap l)) with (length (launchTimes l))
      by (unfold launchTimes; apply length_map).
    apply list_lookup_middle. reflexivity.
  - unfold l', launchClip. cbv zeta. rewrite Hp.
    match goal with |- context [if ?b then startClip ?l3 ?r else _] =>
      set (cond := b); set (l3' := l3) end.
    assert (H3 : mapGet (stopping l3') t = Some p) by apply mapGet_mapSet.
    destruct cond; [|exact H3].
    unfold startClip. destruct (heap l3' !! length (heap l)); exact H3.
  - unfold l', launchClip. cbv zeta. rewrite Hp.
    match goal with |- context [if ?b then startClip ?l3 ?r else _] =>
      set (cond := b); set (l3' := l3) end.
    assert (H3 : stopTime <$> heap l3' !! p
                 = Some (Some (getNextQuantizedBeat (getPosition l) (resolveQ l q) (bpm l)))).
    { unfold l3'. cbn. rewrite list_lookup_alter_eq, lookup_app_l, Hsc by exact Hlt.
      reflexivity. }
    destruct cond; [|exact H3].
    unfold startClip. destruct (heap l3' !! length (heap l)); [|exact H3].
    cbn. destruct (decide (p = length (heap l))) as [->|Hne]; [lia|].
    rewrite list_lookup_alter_ne by congruence. exact H3.
Qed.

Lemma stop_cancels_pending_trigger_witness :
  mapGet (triggered (run noRandom pendingLaunch initial)) "t" = Some O /\
  (let l := stopClip (run noRandom pendingLaunch initial) "t" Q1Bar in
   mapGet (triggered l) "t" = None /\
   ~ In O (map snd (triggered l)) /\
   exists evs, events (ticksAt noRandom [ofZ 2; ofZ 4; ofZ 5] l) = events l ++ evs /\
               forall slot, ~ In (ClipStarted "t" slot) evs).
Proof.
  split; [reflexivity|].
  apply (stop_cancels_pending_trigger noRandom pendingLaunch "t" Q1Bar O
           [ofZ 2; ofZ 4; ofZ 5]).
  reflexivity.
Defined.

(** The scene of two clips launched at beat 1 while track "t" plays: the
    clip on the idle track waits for beat 4, the legato clip gets beat 1. *)
Lemma scene_launch_beats_differ :
  ~ (forall a b,
       In a (sceneLaunchBeats (run noRandom onePlaying initial) mixedScene Q1Bar) ->
       In b (sceneLaunchBeats (run noRandom onePlaying initial) mixedScene Q1Bar) ->
       a = b).
Proof.
  assert (E : sceneLaunchBeats (run noRandom onePlaying initial) mixedScene Q1Bar
              = [ofZ 4; ofZ 1]) by (vm_compute; reflexivity).
  rewrite E. intros H.
  specialize (H (ofZ 4) (ofZ 1) (or_introl eq_refl) (or_intror (or_introl eq_refl))).
  discriminate H.
Qed.

(** C1. Two scheduled clips of one track in state playing at once.  After
    three unquantized launches with a tick after each, B and C both play:
    the tick that stopped A also dropped B from the playing map, so the
    launch of C found nothing to stop.  After a quantized legato launch, A
    (in the stopping map until beat 4) and B (in the playing map) both
    play. *)
Theorem two_clips_playing_on_one_track (rnd : nat -> Q) :
  clipsInState (run rnd threeLaunches initial) "t" Playing = [1; 2]%nat /\
  playing (run rnd threeLaunches initial) = [("t", 2%nat)] /\
  stopping (run rnd threeLaunches initial) = [] /\
  clipsInState (run rnd legatoSwitch initial) "t" Playing = [0; 1]%nat /\
  playing (run rnd legatoSwitch initial) = [("t", 1%nat)] /\
  stopping (run rnd legatoSwitch initial) = [("t", 0%nat)].
Proof. vm_compute. repeat split. Qed.

(** C2. Clip A plays on track "t" at beat 1; legato clip B is launched with
    1-bar quantization.  B gets launch beat 1, the current beat; A goes to
    the stopping map with stop beat 4, the next bar, not 1. *)
Theorem legato_stop_beat_is_quantized (rnd : nat -> Q) :
  let l0 := run rnd onePlaying initial in
  let l := launchClip l0 "t" 1 (legatoClip "B") Q1Bar in
  getPosition l0 = ofZ 1 /\
  mapGet (playing l0) "t" = Some O /\
  state <$> heap l0 !! O = Some Playing /\
  launchTime <$> heap l !! 1%nat = Some (ofZ 1) /\
  mapGet (stopping l) "t" = Some O /\
  stopTime <$> heap l !! O = Some (Some (ofZ 4)).
Proof. vm_compute. repeat split. Qed.

End LauncherFacts.

(** ** The playing map *)
Section PlayingMap.
Import JS Types ClipLauncher.

Lemma keys_mapSet (m : jsmap) k v :
  map fst (mapSet m k v) = map fst m \/
  (~ In k (map fst m) /\ map fst (mapSet m k v) = map fst m ++ [k]).
Proof.
  induction m as [|[k' v'] m IH]; cbn.
  - right. split; [tauto|reflexivity].
  - destruct (String.eqb k' k) eqn:E; cbn.
    + left. reflexivity.
    + apply String.eqb_neq in E. destruct IH as [->|[Hn ->]].
      * left. reflexivity.
      * right. split; [|reflexivity]. intros [H|H]; [congruence|tauto].
Qed.

Lemma NoDup_mapSet (m : jsmap) k v :
  NoDup (map fst m) -> NoDup (map fst (mapSet m k v)).
Proof.
  intros H. destruct (keys_mapSet m k v) as [->|[Hn ->]]; [exact H|].
  apply NoDup_app. split; [exact H|]. split.
  - intros x Hx [->|[]]%list_elem_of_In. apply Hn, list_elem_of_In, Hx.
  - apply NoDup_singleton.
Qed.

Lemma NoDup_mapDelete (m : jsmap) k :
  NoDup (map fst m) -> NoDup (map fst (mapDelete m k)).
Proof.
  unfold mapDelete. induction m as [|[k' v'] m IH]; cbn; [trivial|].
  intros H. apply NoDup_cons in H as [Hn H].
  destruct (negb (String.eqb k' k)); cbn; [|apply IH, H].
  apply NoDup_cons. split; [|apply IH, H].
  intros Hin. apply Hn. apply list_elem_of_In in Hin. apply list_elem_of_In.
  apply in_map_iff in Hin as (kv & E & Hkv). apply filter_In in Hkv as [Hkv _].
  apply in_map_iff. exists kv. split; assumption.
Qed.

Lemma fold_inv {A : Type} (P : Launcher -> Prop) (f : Launcher -> A -> Launcher) :
  (forall l x, P l -> P (f l x)) ->
  forall xs l, P l -> P (fold_left f xs l).
Proof.
  intros Hf xs. induction xs as [|x xs IH]; intros l H; cbn; [exact H|].
  apply IH, Hf, H.
Qed.

Lemma playing_stopScheduledClip l r : playing (stopScheduledClip l r) = playing l.
Proof. unfold stopScheduledClip. destruct (heap l !! r); reflexivity. Qed.

Lemma onePerTrack_startClip l r : onePerTrack l -> onePerTrack (startClip l r).
Proof.
  unfold onePerTrack, startClip. intros H. destruct (heap l !! r); [|exact H].
  cbn. apply NoDup_mapSet, H.
Qed.

Lemma onePerTrack_stopScheduledClip l r : onePerTrack l -> onePerTrack (stopScheduledClip l r).
Proof. unfold onePerTrack. rewrite playing_stopScheduledClip. trivial. Qed.

Lemma onePerTrack_stopClip l k q : onePerTrack l -> onePerTrack (stopClip l k q).
Proof.
  unfold onePerTrack, stopClip. intros H. cbv zeta. cbn [playing withTriggered].
  destruct (mapGet (playing l) k); [|exact H].
  destruct (_ || _); cbn [playing withStopping withPlaying].
  - rewrite playing_stopScheduledClip. cbn. apply NoDup_mapDelete, H.
  - cbn. exact H.
Qed.

Lemma onePerTrack_launchClip l t slot c q : onePerTrack l -> onePerTrack (launchClip l t slot c q).
Proof.
  intros H. unfold launchClip. cbv zeta.
  match goal with |- context [if ?b then startClip ?l3 ?r else _] =>
    set (cond := b); set (l3' := l3) end.
  assert (H3 : onePerTrack l3').
  { unfold l3', onePerTrack. destruct (mapGet (playing l) t); cbn; exact H. }
  destruct cond; [apply onePerTrack_startClip|]; exact H3.
Qed.

Lemma onePerTrack_processPlayingClip rnd l r pos :
  onePerTrack l -> onePerTrack (processPlayingClip rnd l r pos).
Proof.
  intros H. unfold processPlayingClip. destruct (heap l !! r) as [sc|]; [|exact H].
  cbv zeta. destruct (loopsOn _).
  - destruct (ge _ _); [|exact H].
    destruct (followAction _) as [fa|]; [|exact H].
    unfold processFollowAction. cbv zeta.
    destruct (action _); try exact H. apply onePerTrack_stopClip. exact H.
  - destruct (ge _ _); [|exact H].
    unfold onePerTrack. cbn. rewrite playing_stopScheduledClip.
    apply NoDup_mapDelete, H.
Qed.

Lemma onePerTrack_tick rnd l : onePerTrack l -> onePerTrack (tick rnd l).
Proof.
  intros H. unfold tick. destruct (isTPlaying _); [|exact H].
  repeat apply fold_inv; try exact H.
  - intros l0 [k r] H0. unfold tickPlaying. cbn [fst snd].
    destruct (mapGet _ _); [|exact H0].
    destruct (Nat.eqb _ _); [apply onePerTrack_processPlayingClip|]; exact H0.
  - intros l0 [k r] H0. unfold tickStopping. cbn [fst snd].
    destruct (heap l0 !! r) as [sc|]; [|exact H0].
    destruct (stopTime sc); [|exact H0]. destruct (ge _ _); [|exact H0].
    unfold onePerTrack. cbn. rewrite playing_stopScheduledClip.
    apply NoDup_mapDelete, H0.
  - intros l0 [k r] H0. unfold tickTriggered. cbn [fst snd].
    destruct (heap l0 !! r) as [sc|]; [|exact H0].
    destruct (ge _ _); [|exact H0].
    unfold onePerTrack. cbn [playing withTriggered]. apply onePerTrack_startClip, H0.
Qed.

Lemma onePerTrack_step rnd l c : onePerTrack l -> onePerTrack (step rnd l c).
Proof.
  intros H. destruct c; cbn [step].
  - apply onePerTrack_launchClip, H.
  - apply onePerTrack_stopClip, H.
  - unfold launchScene. apply fold_inv; [|exact H].
    intros l0 x H0. apply onePerTrack_launchClip, H0.
  - unfold stopAll. apply (fold_inv onePerTrack); [|exact H].
    intros l0 x H0. apply onePerTrack_stopClip, H0.
  - unfold start. destruct (isTPlaying _); exact H.
  - apply NoDup_nil. trivial.
  - exact H.
  - exact H.
  - exact H.
  - exact H.
  - apply onePerTrack_tick, H.
Qed.

(** Whatever the calls, the playing map never holds two entries for one
    track: exclusivity holds of the map, not of the scheduled clips. *)
Theorem playing_map_one_per_track (rnd : nat -> Q) (cs : list call) :
  onePerTrack (run rnd cs initial).
Proof.
  unfold run. apply fold_inv; [intros l c; apply onePerTrack_step|].
  apply NoDup_nil. trivial.
Qed.
End PlayingMap.

(** ** Quantization *)
Section QuantizeFacts.
Import JS Types.
Local Open Scope Q_scope.

Lemma Qeq_bool_false_ne (q : Q) : ~ q == 0 -> Qeq_bool q 0 = false.
Proof.
  intros H. destruct (Qeq_bool q 0) eqn:E; [|reflexivity].
  apply Qeq_bool_iff in E. contradiction.
Qed.

Lemma grid_positive (q : LaunchQuantization) (bpm : num) :
  q <> QNone -> exists g, launchQuantizationToBeats q bpm = Fin g /\ 0 < g.
Proof.
  intros H. destruct q; try contradiction; cbn; eexists; (split; [reflexivity|]);
    reflexivity.
Qed.

Lemma ceil_grid (b g : Q) :
  0 < g ->
  exists k : Z,
    mul (ceil (div (Fin b) (Fin g))) (Fin g) = Fin (Qred (inject_Z k * g)) /\
    k = Qceiling (Qred (b / g)) /\
    b <= inject_Z k * g /\ inject_Z k * g < b + g.
Proof.
  intros Hg. rewrite div_Fin by (apply Qeq_bool_false_pos, Hg).
  exists (Qceiling (Qred (b / g))). split; [reflexivity|]. split; [reflexivity|].
  assert (Hne : ~ g == 0) by (intros E; rewrite E in Hg; apply (Qlt_irrefl 0), Hg).
  assert (E : b == (b / g) * g) by (field; exact Hne).
  pose proof (Qle_ceiling (Qred (b / g))) as Hle.
  pose proof (Qceiling_lt (Qred (b / g))) as Hlt.
  pose proof (Qred_correct (b / g)) as Hr.
  set (k := Qceiling (Qred (b / g))) in *.
  set (c := Qred (b / g)) in *.
  assert (Hle' : b / g <= inject_Z k) by lra.
  split.
  - rewrite E at 1. apply Qmult_le_compat_r; [exact Hle'|]. apply Qlt_le_weak, Hg.
  - assert (Hk : inject_Z k < b / g + 1).
    { unfold Z.sub in Hlt. rewrite inject_Z_plus in Hlt.
      change (Z.opp 1) with (Zneg 1) in Hlt. change (inject_Z (Zneg 1)) with (-1 # 1) in Hlt. lra. }
    apply (Qmult_lt_compat_r _ _ g Hg) in Hk.
    rewrite E at 1. lra.
Qed.

Lemma Qceiling_inject_Z (k : Z) : Qceiling (inject_Z k) = k.
Proof. unfold Qceiling. rewrite <- inject_Z_opp, Qfloor_Z. lia. Qed.

Lemma grid_pow2 (q : LaunchQuantization) (bpm : num) :
  q <> QNone ->
  exists j, (-3 <= j <= 5)%Z /\ launchQuantizationToBeats q bpm = Fin (2 ^ j).
Proof.
  intros H. destruct q; try contradiction.
  - exists (-3)%Z. split; [lia|reflexivity].
  - exists (-2)%Z. split; [lia|reflexivity].
  - exists (-1)%Z. split; [lia|reflexivity].
  - exists 0%Z. split; [lia|reflexivity].
  - exists 1%Z. split; [lia|reflexivity].
  - exists 2%Z. split; [lia|reflexivity].
  - exists 3%Z. split; [lia|reflexivity].
  - exists 4%Z. split; [lia|reflexivity].
  - exists 5%Z. split; [lia|reflexivity].
  - exists 2%Z. split; [lia|reflexivity].
Qed.

Lemma Qceiling_near (x : Q) : Qabs (inject_Z (Qceiling x)) <= Qabs x + 1.
Proof.
  pose proof (Qle_ceiling x) as H1. pose proof (Qceiling_lt x) as H2.
  unfold Z.sub in H2. rewrite inject_Z_plus in H2.
  change (inject_Z (- (1))) with (- (1)) in H2.
  apply Qabs_Qle_condition. pose proof (Qle_Qabs x) as H3.
  pose proof (Qle_Qabs (- x)) as H4. rewrite Qabs_opp in H4. split; lra.
Qed.

Lemma Qround_int (k : Z) : Qfloor (inject_Z k + (1 # 2)) = k.
Proof.
  pose proof (Qfloor_le (inject_Z k + (1 # 2))) as H1.
  pose proof (Qlt_floor (inject_Z k + (1 # 2))) as H2.
  set (f := Qfloor (inject_Z k + (1 # 2))) in *.
  rewrite inject_Z_plus in H2. change (inject_Z 1) with 1 in H2.
  assert (A : inject_Z f < inject_Z (k + 1)).
  { rewrite inject_Z_plus. change (inject_Z 1) with 1. lra. }
  assert (B : inject_Z (k - 1) < inject_Z f).
  { unfold Z.sub. rewrite inject_Z_plus. change (inject_Z (- (1))) with (- (1)). lra. }
  rewrite <- Zlt_Qlt in A, B. lia.
Qed.

Lemma Qround_near (x : Q) : Qabs (inject_Z (Qfloor (x + (1 # 2)))) <= Qabs x + 1.
Proof.
  pose proof (Qfloor_le (x + (1 # 2))) as H1. pose proof (Qlt_floor (x + (1 # 2))) as H2.
  rewrite inject_Z_plus in H2. change (inject_Z 1) with 1 in H2.
  apply Qabs_Qle_condition. pose proof (Qle_Qabs x) as H3.
  pose proof (Qle_Qabs (- x)) as H4. rewrite Qabs_opp in H4. split; lra.
Qed.

(** X1. For a binary64 beat of moderate size and a grid,
    [getNextQuantizedBeat] rounds nowhere: with every operation rounded and
    with none rounded it returns the same whole multiple of the grid, not
    before the given beat and less than one grid step after it. *)
Theorem next_quantized_beat_on_grid (b : Q) (q : LaunchQuantization) (bpm : num) :
  q <> QNone -> Binary64.moderate b ->
  exists g r : Q,
    launchQuantizationToBeats q bpm = Fin g /\ 0 < g /\
    Binary64.getNextQuantizedBeat (Fin b) q bpm = Fin r /\
    getNextQuantizedBeat (Fin b) q bpm = Fin r /\
    multipleOf g (Fin r) /\ b <= r /\ r < b + g.
Proof.
  intros Hq Hb. destruct (grid_pow2 q bpm Hq) as (j & Hj & Eg).
  pose proof (pow2_positive j) as Hg.
  destruct (ceil_grid b (2 ^ j) Hg) as (k & Ek & Hk & Hle & Hlt).
  destruct (scaled_exact Qceiling b j) as (E1 & E2 & E3);
    [intros x y H; apply Qceiling_comp, H|apply Qceiling_inject_Z|apply Qceiling_near
    |exact Hb|lia|].
  exists (2 ^ j), (Qred (inject_Z k * 2 ^ j)). split; [exact Eg|]. split; [exact Hg|].
  assert (Ex : getNextQuantizedBeat (Fin b) q bpm = Fin (Qred (inject_Z k * 2 ^ j))).
  { unfold getNextQuantizedBeat. rewrite Eg.
    replace (eqb (Fin (2 ^ j)) (ofZ 0)) with false
      by (symmetry; apply (Qeq_bool_false_pos _ Hg)).
    exact Ek. }
  split; [|split; [exact Ex|]].
  - rewrite <- Ex. unfold Binary64.getNextQuantizedBeat, getNextQuantizedBeat. rewrite Eg.
    replace (eqb (Fin (2 ^ j)) (ofZ 0)) with false
      by (symmetry; apply (Qeq_bool_false_pos _ Hg)).
    rewrite E1, E2. cbn [ceil]. exact E3.
  - split.
    + exists (Qred (inject_Z k * 2 ^ j)), k. split; [reflexivity|]. apply Qred_correct.
    + rewrite Qred_correct. split; assumption.
Qed.

Lemma next_quantized_beat_on_grid_witness :
  exists g r : Q,
    launchQuantizationToBeats Q1Bar (ofZ 120) = Fin g /\ 0 < g /\
    Binary64.getNextQuantizedBeat (Fin (5 # 2)) Q1Bar (ofZ 120) = Fin r /\
    getNextQuantizedBeat (Fin (5 # 2)) Q1Bar (ofZ 120) = Fin r /\
    multipleOf g (Fin r) /\ 5 # 2 <= r /\ r < (5 # 2) + g.
Proof.
  apply next_quantized_beat_on_grid; [discriminate|].
  exists 5%Z, (-1)%Z. split; [reflexivity|]. split; [lia|reflexivity].
Defined.

(** X2. Quantizing a beat that is already the result of quantizing changes
    nothing, whatever the beat (finite or not) and the grid. *)
Theorem next_quantized_beat_idempotent (x : num) (q : LaunchQuantization) (bpm : num) :
  getNextQuantizedBeat (getNextQuantizedBeat x q bpm) q bpm
  = getNextQuantizedBeat x q bpm.
Proof.
  assert (Hq : q = QNone \/ q <> QNone)
    by (destruct q; (left; reflexivity) || (right; discriminate)).
  destruct Hq as [->|Hq]; [reflexivity|].
  destruct (grid_positive q bpm Hq) as (g & Eg & Hg).
  unfold getNextQuantizedBeat. rewrite Eg.
  replace (eqb (Fin g) (ofZ 0)) with false
    by (symmetry; apply (Qeq_bool_false_pos g Hg)).
  assert (Hs : Qsgn g = 1%Z).
  { unfold Qsgn. destruct g as [n d]. unfold Qlt in Hg. cbn in Hg |- *. lia. }
  assert (Hle : Qle_bool 0 g = true) by (apply Qle_bool_true, Qlt_le_weak, Hg).
  destruct x as [b| | |].
  - destruct (ceil_grid b g Hg) as (k & Ek & _ & _ & _). rewrite Ek.
    destruct (ceil_grid (Qred (inject_Z k * g)) g Hg) as (k' & Ek' & Hk' & _ & _).
    rewrite Ek'. do 2 f_equal.
    assert (E : k' = k); [|rewrite E; reflexivity].
    rewrite Hk'. rewrite <- (Qceiling_inject_Z k) at 2.
    apply Qceiling_comp. rewrite !Qred_correct. field.
    intros E. rewrite E in Hg. apply (Qlt_irrefl 0), Hg.
  - cbn [div]. rewrite Hle. cbn [ceil mul sgn]. rewrite Hs.
    cbn [infOfSign div]. rewrite Hle. cbn [ceil mul sgn]. rewrite Hs. reflexivity.
  - cbn [div]. rewrite Hle. cbn [ceil mul sgn]. rewrite Hs.
    change (infOfSign (Z.opp 1)) with NInf.
    cbn [div]. rewrite Hle. cbn [ceil mul sgn]. rewrite Hs. reflexivity.
  - reflexivity.
Qed.

Lemma round_grid (b g : Q) :
  ~ g == 0 ->
  exists k : Z,
    quantize (Fin b) (Fin g) = Fin (Qred (inject_Z k * g)) /\
    k = Qfloor (Qred (b / g) + (1 # 2)) /\
    Qabs (inject_Z k - b / g) <= 1 # 2.
Proof.
  intros Hg. unfold quantize. rewrite div_Fin by (apply Qeq_bool_false_ne, Hg).
  exists (Qfloor (Qred (b / g) + (1 # 2))). split; [reflexivity|]. split; [reflexivity|].
  pose proof (Qfloor_le (Qred (b / g) + (1 # 2))) as H1.
  pose proof (Qlt_floor (Qred (b / g) + (1 # 2))) as H2.
  pose proof (Qred_correct (b / g)) as Hr.
  set (k := Qfloor (Qred (b / g) + (1 # 2))) in *.
  set (c := Qred (b / g)) in *.
  rewrite inject_Z_plus in H2. change (inject_Z 1) with 1 in H2.
  apply Qabs_Qle_condition. split; lra.
Qed.

(** X3. For a binary64 beat of moderate size and a grid that is a power
    of two between [2^-20] and [2^20], [quantize] rounds nowhere: with
    every operation rounded and with none rounded it returns the same
    whole multiple of the grid, within half a grid step of the beat. *)
Theorem quantize_nearest_grid_point (b : Q) (j : Z) :
  Binary64.moderate b -> (-20 <= j <= 20)%Z ->
  exists r : Q,
    Binary64.quantize (Fin b) (Fin (2 ^ j)) = Fin r /\
    quantize (Fin b) (Fin (2 ^ j)) = Fin r /\ multipleOf (2 ^ j) (Fin r) /\
    Qabs (r - b) <= 2 ^ j * (1 # 2).
Proof.
  intros Hb Hj. pose proof (pow2_positive j) as Hg.
  assert (Hne : ~ 2 ^ j == 0) by lra.
  destruct (round_grid b (2 ^ j) Hne) as (k & Ek & _ & Hk).
  destruct (scaled_exact (fun x => Qfloor (x + (1 # 2))) b j) as (E1 & E2 & E3);
    [intros x y H; apply Qfloor_comp; rewrite H; reflexivity|apply Qround_int
    |apply Qround_near|exact Hb|exact Hj|].
  exists (Qred (inject_Z k * 2 ^ j)).
  split; [|split; [exact Ek|split]].
  - rewrite <- Ek. unfold Binary64.quantize, quantize. rewrite E1, E2. cbn [round]. exact E3.
  - exists (Qred (inject_Z k * 2 ^ j)), k. split; [reflexivity|]. apply Qred_correct.
  - rewrite Qred_correct.
    assert (E : inject_Z k * 2 ^ j - b == (inject_Z k - b / 2 ^ j) * 2 ^ j)
      by (field; exact Hne).
    rewrite E, Qabs_Qmult, (Qabs_pos (2 ^ j)), (Qmult_comm (2 ^ j)) by lra.
    apply Qmult_le_compat_r; [exact Hk|lra].
Qed.

(** 1.3, as binary64 holds it, on a grid of a quarter: 1.25. *)
Lemma quantize_nearest_grid_point_witness :
  Binary64.quantize (Fin (5854679515581645 # 4503599627370496)) (Fin (1 # 4)) = Fin (5 # 4) /\
  exists r : Q,
    Binary64.quantize (Fin (5854679515581645 # 4503599627370496)) (Fin (2 ^ (-2))) = Fin r /\
    quantize (Fin (5854679515581645 # 4503599627370496)) (Fin (2 ^ (-2))) = Fin r /\
    multipleOf (2 ^ (-2)) (Fin r) /\
    Qabs (r - (5854679515581645 # 4503599627370496)) <= 2 ^ (-2) * (1 # 2).
Proof.
  split; [vm_compute; reflexivity|].
  apply quantize_nearest_grid_point; [|lia].
  exists 5854679515581645%Z, (-52)%Z. split; [reflexivity|]. split; [lia|reflexivity].
Defined.

(** X4. A grid of 0 makes [quantize] return NaN for every beat: the
    division gives an infinity or NaN, and that times 0 is NaN. *)
Theorem quantize_zero_grid (beat : num) : quantize beat (ofZ 0) = NaN.
Proof.
  unfold quantize. destruct beat as [q| | |]; try reflexivity.
  unfold div, ofZ. change (Qeq_bool (inject_Z 0) 0) with true. cbn iota.
  destruct (Qsgn q); reflexivity.
Qed.

End QuantizeFacts.

(** ** Editing the markers *)
Section MarkerFacts.
Import JS Types WarpEngine.
Local Open Scope Q_scope.

Lemma gt_sub_Fin (x y : Q) :
  gt (sub (Fin x) (Fin y)) (ofZ 0) = negb (Qle_bool (Qred (x + Qred (- y))) 0).
Proof. reflexivity. Qed.

Lemma le_not_after (a b : num) : le a b = true -> gt (sub a b) (ofZ 0) = false.
Proof.
  destruct a as [x| | |], b as [y| | |]; try reflexivity; try discriminate.
  rewrite le_Fin, gt_sub_Fin. intros H. apply Qle_bool_iff in H.
  apply Bool.negb_false_iff, Qle_bool_true. rewrite !Qred_correct. lra.
Qed.

Lemma not_after_le (x y : Q) :
  gt (sub (Fin x) (Fin y)) (ofZ 0) = false -> le (Fin x) (Fin y) = true.
Proof.
  rewrite le_Fin, gt_sub_Fin. intros H. apply Bool.negb_false_iff, Qle_bool_iff in H.
  rewrite !Qred_correct in H. apply Qle_bool_true. lra.
Qed.

Lemma after_le (x y : Q) :
  gt (sub (Fin x) (Fin y)) (ofZ 0) = true -> le (Fin y) (Fin x) = true.
Proof.
  rewrite le_Fin, gt_sub_Fin. intros H. apply Bool.negb_true_iff in H.
  apply Qle_bool_true. destruct (Qlt_le_dec x y) as [Hlt|Hle]; [|exact Hle].
  exfalso. assert (Hc : Qle_bool (Qred (x + Qred (- y))) 0 = true).
  { apply Qle_bool_true. rewrite !Qred_correct. lra. }
  rewrite Hc in H. discriminate.
Qed.

Lemma insertMarker_perm x l : Permutation (insertMarker x l) (x :: l).
Proof.
  induction l as [|y l IH]; [reflexivity|]. cbn [insertMarker].
  destruct (comesAfter x y); [|reflexivity].
  rewrite IH. apply perm_swap.
Qed.

Lemma sortMarkers_perm l : Permutation (sortMarkers l) l.
Proof.
  induction l as [|x l IH]; [reflexivity|]. cbn [sortMarkers fold_right].
  rewrite insertMarker_perm. constructor. exact IH.
Qed.

Lemma inOrder_cons a b tl :
  le (sampleTime a) (sampleTime b) = true -> inOrder (b :: tl) -> inOrder (a :: b :: tl).
Proof. intros H1 H2. split; assumption. Qed.

Lemma inOrder_tail a tl : inOrder (a :: tl) -> inOrder tl.
Proof. destruct tl; [trivial|]. intros [_ H]. exact H. Qed.

Lemma insertMarker_inOrder x l :
  finite (sampleTime x) -> Forall (fun m => finite (sampleTime m)) l ->
  inOrder l -> inOrder (insertMarker x l).
Proof.
  intros [qx Ex] Hf. induction l as [|y l IH]; intros Ho; [exact I|].
  cbn [insertMarker]. unfold comesAfter. inversion Hf as [|? ? [qy Ey] Hf']; subst.
  rewrite Ex, Ey.
  destruct (gt (sub (Fin qx) (Fin qy)) (ofZ 0)) eqn:E.
  - specialize (IH Hf' (inOrder_tail _ _ Ho)).
    destruct l as [|z l].
    + cbn [insertMarker]. split; [|exact I]. rewrite Ex, Ey. apply after_le, E.
    + cbn [insertMarker] in IH |- *. destruct (comesAfter x z).
      * split; [apply Ho|exact IH].
      * split; [|exact IH]. rewrite Ex, Ey. apply after_le, E.
  - split; [|exact Ho]. rewrite Ex, Ey. apply not_after_le, E.
Qed.

Lemma sortMarkers_inOrder l :
  Forall (fun m => finite (sampleTime m)) l -> inOrder (sortMarkers l).
Proof.
  induction l as [|x l IH]; intros Hf; [exact I|].
  inversion Hf as [|? ? Hx Hl]; subst. cbn [sortMarkers fold_right].
  apply insertMarker_inOrder; [exact Hx| |apply IH, Hl].
  apply List.Forall_forall. intros m Hm.
  apply (proj1 (List.Forall_forall _ _) Hl).
  apply (Permutation_in _ (sortMarkers_perm l)), Hm.
Qed.

(** X5. After [addMarker] the marker list is in order of sample time and
    holds the old markers and the new one, whatever the order was before,
    as long as the sample times are numbers. *)
Theorem addMarker_sorts (e : Engine) (id : string) (st bt : num) :
  Forall (fun m => finite (sampleTime m)) (markers (settings e)) ->
  finite st ->
  let e' := fst (addMarker e id st bt) in
  inOrder (markers (settings e')) /\
  Permutation (markers (settings e')) (snd (addMarker e id st bt) :: markers (settings e)).
Proof.
  intros Hf Hs. cbn. split.
  - apply sortMarkers_inOrder. apply Forall_app. split; [exact Hf|].
    constructor; [exact Hs|constructor].
  - rewrite sortMarkers_perm. symmetry. apply Permutation_cons_append.
Qed.

Lemma insertMarker_front a l :
  match l with [] => True | h :: _ => le (sampleTime a) (sampleTime h) = true end ->
  insertMarker a l = a :: l.
Proof.
  destruct l as [|h l]; [reflexivity|]. intros H. cbn [insertMarker].
  unfold comesAfter. rewrite (le_not_after _ _ H). reflexivity.
Qed.

Lemma sort_after_push x ms :
  inOrder ms ->
  exists pre post, fold_right insertMarker [x] ms = pre ++ x :: post /\ ms = pre ++ post.
Proof.
  induction ms as [|a ms IH]; intros Ho.
  - exists [], []. split; reflexivity.
  - destruct (IH (inOrder_tail _ _ Ho)) as (pre & post & E1 & E2).
    cbn [fold_right]. rewrite E1. destruct pre as [|h pre].
    + cbn [app] in *. subst ms. cbn [insertMarker].
      destruct (comesAfter a x).
      * exists [], (a :: post). split; [|reflexivity]. cbn [app]. f_equal.
        apply insertMarker_front. destruct post; [exact I|]. apply Ho.
      * exists [a], post. split; reflexivity.
    + cbn [app] in *. subst ms.
      exists (a :: h :: pre), post. split; [|reflexivity].
      rewrite insertMarker_front; [reflexivity|]. apply Ho.
Qed.

(** X6. On an ordered marker list, adding a marker under a fresh id and
    removing that id again gives back the list as it was. *)
Theorem removeMarker_undoes_addMarker (e : Engine) (id : string) (st bt : num) :
  inOrder (markers (settings e)) ->
  ~ In id (map markerId (markers (settings e))) ->
  markers (settings (removeMarker (fst (addMarker e id st bt)) id))
  = markers (settings e).
Proof.
  intros Ho Hid. unfold removeMarker, addMarker, setMarkers.
  cbn [fst settings markers]. unfold sortMarkers. rewrite fold_right_app. cbn [fold_right].
  cbn [insertMarker].
  destruct (sort_after_push {| markerId := id; sampleTime := st; beatTime := bt |} _ Ho)
    as (pre & post & -> & E).
  rewrite List.filter_app. cbn [List.filter markerId]. rewrite String.eqb_refl. cbn [negb].
  rewrite <- List.filter_app, <- E.
  apply List.forallb_filter_id, List.forallb_forall. intros m Hm.
  apply Bool.negb_true_iff, String.eqb_neq. intros Em. apply Hid.
  apply in_map_iff. exists m. split; assumption.
Qed.

Lemma addMarker_sorts_witness :
  let e' := fst (addMarker Inputs.markedEngine "m3" (Fin (1 # 2)) (Fin 1)) in
  inOrder (markers (settings e')) /\
  Permutation (markers (settings e'))
    (snd (addMarker Inputs.markedEngine "m3" (Fin (1 # 2)) (Fin 1))
     :: markers (settings Inputs.markedEngine)).
Proof.
  apply addMarker_sorts.
  - repeat constructor; eexists; reflexivity.
  - eexists; reflexivity.
Defined.

Lemma removeMarker_undoes_addMarker_witness :
  markers (settings (removeMarker
                       (fst (addMarker Inputs.markedEngine "m3" (Fin (1 # 2)) (Fin 1)))
                       "m3"))
  = markers (settings Inputs.markedEngine).
Proof.
  apply removeMarker_undoes_addMarker.
  - cbn. repeat split; reflexivity.
  - cbn. intros [H|[H|[H|[]]]]; discriminate H.
Defined.

End MarkerFacts.

(** ** The warp map on any marker list *)
Section WarpMapGeneral.
Import JS Types WarpEngine.
Local Open Scope Q_scope.

Lemma sampleToBeatLoop_step a b tl t :
  sampleToBeatLoop (a :: b :: tl) t
  = if ge t (sampleTime a) && le t (sampleTime b) then
      Some (add (beatTime a)
                (mul (div (sub t (sampleTime a)) (sub (sampleTime b) (sampleTime a)))
                     (sub (beatTime b) (beatTime a))))
    else sampleToBeatLoop (b :: tl) t.
Proof. reflexivity. Qed.

Lemma lt_not_ge (t s : num) : lt t s = true -> ge t s = false.
Proof.
  destruct t as [x| | |], s as [y| | |]; try reflexivity; try discriminate.
  unfold lt, ge, le. intros H. apply Bool.negb_true_iff in H. exact H.
Qed.

Lemma loop_none_before (ms : list WarpMarker) (t : num) :
  (forall m, In m ms -> lt t (sampleTime m) = true) -> sampleToBeatLoop ms t = None.
Proof.
  induction ms as [|a ms IH]; intros H; [reflexivity|].
  destruct ms as [|b tl]; [reflexivity|].
  rewrite sampleToBeatLoop_step, (lt_not_ge _ _ (H a (or_introl eq_refl))).
  cbn [andb]. apply IH. intros m Hm. apply H. right. exact Hm.
Qed.

(** X9. A sample time before every marker is not extrapolated from the
    first marker: the loop finds no bracket and the result is taken from
    the last marker, at the original tempo. *)
Theorem sampleToBeat_before_first_marker (e : Engine) (t : num) (l : WarpMarker) :
  (2 <= length (markers (settings e)))%nat ->
  (forall m, In m (markers (settings e)) -> lt t (sampleTime m) = true) ->
  last (markers (settings e)) = Some l ->
  sampleToBeat e t
  = add (beatTime l) (secondsToBeats (sub t (sampleTime l)) (originalBPM (settings e))).
Proof.
  intros Hlen Hlt Hl. unfold sampleToBeat.
  replace (length (markers (settings e)) <? 2)%nat with false
    by (symmetry; apply Nat.ltb_ge, Hlen).
  rewrite (loop_none_before _ _ Hlt), Hl. reflexivity.
Qed.

Lemma sampleToBeat_before_first_marker_witness :
  sampleToBeat Inputs.markedEngine (Fin (-1))
  = add (Fin (9 # 2)) (secondsToBeats (sub (Fin (-1)) (Fin 2)) (ofZ 120)).
Proof.
  apply (sampleToBeat_before_first_marker Inputs.markedEngine (Fin (-1))
           {| markerId := "m2"; sampleTime := Fin 2; beatTime := Fin (9 # 2) |}).
  - cbn. lia.
  - intros m [<-|[<-|[<-|[]]]]; reflexivity.
  - reflexivity.
Defined.

End WarpMapGeneral.

(** ** The window table *)
Section WindowFacts.
Import JS Types WarpEngine.
Local Open Scope Q_scope.

Lemma insertZ_In x l y : In y (insertZ x l) <-> y = x \/ In y l.
Proof.
  induction l as [|z l IH]; cbn [insertZ].
  - cbn. intuition.
  - destruct (x <? z)%Z; cbn [In]; [intuition|]. rewrite IH. intuition.
Qed.

Lemma sortZ_In l y : In y (sortZ l) <-> In y l.
Proof.
  induction l as [|x l IH]; [reflexivity|].
  unfold sortZ in *. cbn [fold_right]. rewrite insertZ_In, IH. cbn. intuition.
Qed.

(** The difference of two whole numbers below [2^52] is exact. *)
Lemma sub_int (s z : Z) :
  (Z.abs s < 2 ^ 52)%Z -> (Z.abs z < 2 ^ 52)%Z ->
  Binary64.sub (ofZ s) (ofZ z) = ofZ (s - z).
Proof.
  intros Hs Hz. unfold Binary64.sub, ofZ. rewrite sub_Fin. cbn [Binary64.rnd].
  assert (E : Qred (inject_Z s + Qred (- inject_Z z)) = inject_Z (s - z)).
  { rewrite <- (Qred_inject_Z (s - z)). apply Qred_complete.
    rewrite Qred_correct. unfold Z.sub. rewrite inject_Z_plus, inject_Z_opp. reflexivity. }
  rewrite E. apply round64_int.
  change (2 ^ 53)%Z with (2 ^ 52 + 2 ^ 52)%Z. lia.
Qed.

Lemma closer_int (s c z : Z) :
  (Z.abs s < 2 ^ 52)%Z -> (Z.abs c < 2 ^ 52)%Z -> (Z.abs z < 2 ^ 52)%Z ->
  lt (abs (Binary64.sub (ofZ s) (ofZ z))) (abs (Binary64.sub (ofZ c) (ofZ z))) = true
  <-> (Z.abs (s - z) < Z.abs (c - z))%Z.
Proof.
  intros Hs Hc Hz. rewrite !sub_int by assumption.
  unfold ofZ. cbn [abs lt].
  change (Qabs (inject_Z (s - z))) with (inject_Z (Z.abs (s - z))).
  change (Qabs (inject_Z (c - z))) with (inject_Z (Z.abs (c - z))).
  rewrite Bool.negb_true_iff. rewrite Zlt_Qlt. split.
  - intros H. apply Qnot_le_lt. intros Hle. apply Qle_bool_iff in Hle.
    rewrite Hle in H. discriminate.
  - intros H. apply Qle_bool_false, H.
Qed.

Lemma closest_fold (z : Z) (xs : list Z) :
  (Z.abs z < 2 ^ 52)%Z -> Forall (fun s => (Z.abs s < 2 ^ 52)%Z) xs ->
  forall c0, (Z.abs c0 < 2 ^ 52)%Z ->
  let c := fold_left
             (fun c s =>
                if lt (abs (Binary64.sub (ofZ s) (ofZ z)))
                      (abs (Binary64.sub (ofZ c) (ofZ z))) then s else c)
             xs c0 in
  (c = c0 \/ In c xs) /\ (Z.abs (c - z) <= Z.abs (c0 - z))%Z /\
  forall s, In s xs -> (Z.abs (c - z) <= Z.abs (s - z))%Z.
Proof.
  intros Hz Hxs. induction Hxs as [|x xs Hx Hxs IH]; intros c0 Hc0; cbn [fold_left].
  - split; [left; reflexivity|]. split; [lia|]. intros s [].
  - destruct (lt (abs (Binary64.sub (ofZ x) (ofZ z)))
                 (abs (Binary64.sub (ofZ c0) (ofZ z)))) eqn:E.
    + apply closer_int in E; [|assumption..]. destruct (IH x Hx) as (H1 & H2 & H3).
      split; [destruct H1 as [->|H1]; right; [left; reflexivity|right; exact H1]|].
      split; [lia|]. intros s [<-|Hs]; [exact H2|apply H3, Hs].
    + assert (Hle : (Z.abs (c0 - z) <= Z.abs (x - z))%Z).
      { apply Z.nlt_ge. intros Hlt. apply closer_int in Hlt; [|assumption..].
        rewrite Hlt in E. discriminate. }
      destruct (IH c0 Hc0) as (H1 & H2 & H3).
      split; [destruct H1 as [->|H1]; [left; reflexivity|right; right; exact H1]|].
      split; [exact H2|]. intros s [<-|Hs]; [lia|apply H3, Hs].
Qed.

Lemma warp_mapGet_Some {V : Type} (m : list (Z * V)) (k : Z) :
  In k (map fst m) -> exists v, WarpEngine.mapGet m k = Some v.
Proof.
  induction m as [|[k' v] m IH]; intros H; [destruct H|].
  cbn [WarpEngine.mapGet]. destruct (k' =? k)%Z eqn:E; [eexists; reflexivity|].
  apply IH. destruct H as [H|H]; [|exact H]. cbn in H. subst k'.
  rewrite Z.eqb_refl in E. discriminate.
Qed.

Lemma getGrainWindow_some (e : Engine) (sz : num) :
  grainWindows e <> [] -> exists w, getGrainWindow e sz = Some w.
Proof.
  intros Hne. unfold getGrainWindow.
  destruct (sortZ (map fst (grainWindows e))) as [|s0 sizes] eqn:Es.
  - exfalso. destruct (grainWindows e) as [|[k w] m]; [contradiction|].
    assert (H : In k (sortZ (map fst ((k, w) :: m)))) by (apply sortZ_In; left; reflexivity).
    rewrite Es in H. destruct H.
  - apply warp_mapGet_Some. apply sortZ_In. rewrite Es.
    set (f := fun c s => if lt (abs (Binary64.sub (ofZ s) sz)) (abs (Binary64.sub (ofZ c) sz))
                         then s else c).
    assert (H : forall xs c0, fold_left f xs c0 = c0 \/ In (fold_left f xs c0) xs).
    { induction xs as [|x xs IH]; intros c0; [left; reflexivity|]. cbn [fold_left].
      destruct (IH (f c0 x)) as [H|H]; [|right; right; exact H].
      rewrite H. unfold f. destruct (lt _ _); [right; left|left]; reflexivity. }
    destruct (H (s0 :: sizes) s0) as [->|Hin]; [left; reflexivity|exact Hin].
Qed.

(** X11. For a whole-number size and table sizes all below [2^52] in
    magnitude, where binary64 takes differences exactly, [getGrainWindow]
    returns a window of the table whose size is as close to the size asked
    for as any size the table holds. *)
Theorem getGrainWindow_closest (e : Engine) (z : Z) :
  grainWindows e <> [] ->
  (Z.abs z < 2 ^ 52)%Z ->
  (forall k w, In (k, w) (grainWindows e) -> (Z.abs k < 2 ^ 52)%Z) ->
  exists k w, getGrainWindow e (ofZ z) = Some w /\ In (k, w) (grainWindows e) /\
              forall k' w', In (k', w') (grainWindows e) ->
                            (Z.abs (k - z) <= Z.abs (k' - z))%Z.
Proof.
  intros Hne Hz Hkeys. destruct (getGrainWindow_some e (ofZ z) Hne) as (w & Ew).
  pose proof Ew as Ew'. unfold getGrainWindow in Ew'.
  assert (Hsizes : Forall (fun s => (Z.abs s < 2 ^ 52)%Z) (sortZ (map fst (grainWindows e)))).
  { apply List.Forall_forall. intros s Hs. apply (proj1 (sortZ_In _ _)) in Hs.
    apply in_map_iff in Hs as ([k w0] & <- & Hin). exact (Hkeys k w0 Hin). }
  destruct (sortZ (map fst (grainWindows e))) as [|s0 sizes] eqn:Es; [discriminate|].
  destruct (closest_fold z (s0 :: sizes) Hz Hsizes s0) as (_ & _ & Hmin).
  { inversion Hsizes; assumption. }
  match type of Ew' with WarpEngine.mapGet _ ?c = _ => set (k := c) in * end.
  exists k, w. split; [exact Ew|]. split; [apply warp_mapGet_In, Ew'|].
  intros k' w' Hin. apply Hmin. rewrite <- Es. apply sortZ_In.
  apply in_map_iff. exists (k', w'). split; [reflexivity|exact Hin].
Qed.

(** The default grain of 2205 samples gets the window of 2048. *)
Lemma getGrainWindow_closest_witness :
  size <$> getGrainWindow (newEngine Inputs.flatWindow) (ofZ 2205) = Some (ofZ 2048) /\
  exists k w, getGrainWindow (newEngine Inputs.flatWindow) (ofZ 2205) = Some w /\
              In (k, w) (grainWindows (newEngine Inputs.flatWindow)) /\
              forall k' w', In (k', w') (grainWindows (newEngine Inputs.flatWindow)) ->
                            (Z.abs (k - 2205) <= Z.abs (k' - 2205))%Z.
Proof.
  split; [vm_compute; reflexivity|].
  apply getGrainWindow_closest; [discriminate|reflexivity|].
  intros k w Hin. unfold newEngine, initializeGrainWindows in Hin. cbn [grainWindows] in Hin.
  apply in_map_iff in Hin as (sz & [= <- _] & Hsz).
  repeat (destruct Hsz as [<-|Hsz]; [reflexivity|]). destruct Hsz.
Defined.

End WindowFacts.

(** ** Termination of the overlap-add stretches *)
Section StretchReturns.
Import JS Types WarpEngine.
Local Open Scope Q_scope.

Lemma iterate_terminates {S : Type} (step : S -> outcome (ctl S)) (m : S -> nat)
    (P R : S -> Prop) :
  (forall s, P s ->
     (exists s', step s = Ret (Done s') /\ R s') \/
     (exists s', step s = Ret (Next s') /\ P s' /\ (m s' < m s)%nat)) ->
  forall fuel s, P s -> (m s < fuel)%nat -> exists r, iterate fuel step s = Ret r /\ R r.
Proof.
  intros Hstep. induction fuel as [|fuel IH]; intros s Hs Hm; [lia|].
  cbn [iterate]. destruct (Hstep s Hs) as [(s' & -> & Hr)|(s' & -> & Hp & Hlt)].
  - exists s'. split; [reflexivity|exact Hr].
  - apply IH; [exact Hp|lia].
Qed.

Lemma lt_ofZ_bound (i b : Z) (g : Q) :
  g <= inject_Z b -> lt (ofZ i) (Fin g) = true -> (i < b)%Z.
Proof.
  intros Hg H. apply lt_Fin_true in H. rewrite Zlt_Qlt. lra.
Qed.

(** The frame loop of the phase vocoder runs at most [b] passes. *)
Lemma frameLoop_returns fuel (input : f32array) (g : Q) (b : Z) inStart outputPos w :
  g <= inject_Z b ->
  forall (i : Z) (out : f32array),
  (Z.to_nat (b - i) < fuel)%nat ->
  exists r, iterate fuel (frameStep input (Fin g) inStart outputPos (Some w)) (i, out) = Ret r
            /\ length (snd r) = length out.
Proof.
  intros Hg i out Hfuel.
  apply (iterate_terminates _ (fun st => Z.to_nat (b - fst st))
           (fun st => length (snd st) = length out)
           (fun st => length (snd st) = length out)); [|reflexivity|exact Hfuel].
  intros [j o] Hj. cbn [fst snd] in *. unfold frameStep.
  destruct (lt (ofZ j) (Fin g) && lt (add outputPos (ofZ j)) (len o)) eqn:E.
  - right. cbn [windowOf bind]. eexists. split; [reflexivity|]. cbn [fst snd].
    rewrite length_aset. split; [exact Hj|].
    apply andb_prop in E as [E _]. pose proof (lt_ofZ_bound j b g Hg E). lia.
  - left. eexists. split; [reflexivity|exact Hj].
Qed.

(** The grain loop of the granular stretch, likewise. *)
Lemma grainLoop_returns fuel (input : f32array) (g : Q) (b : Z) inStart outputPos w :
  g <= inject_Z b ->
  forall (i : Z) (out : f32array),
  (Z.to_nat (b - i) < fuel)%nat ->
  exists r, iterate fuel (grainStep input (Fin g) inStart outputPos (Some w)) (i, out) = Ret r
            /\ length (snd r) = length out.
Proof.
  intros Hg i out Hfuel.
  apply (iterate_terminates _ (fun st => Z.to_nat (b - fst st))
           (fun st => length (snd st) = length out)
           (fun st => length (snd st) = length out)); [|reflexivity|exact Hfuel].
  intros [j o] Hj. cbn [fst snd] in *. unfold grainStep.
  destruct (lt (ofZ j) (Fin g) && lt (add outputPos (ofZ j)) (len o)) eqn:E.
  - right. cbn [windowOf bind]. eexists. split; [reflexivity|]. cbn [fst snd].
    rewrite length_aset. split; [exact Hj|].
    apply andb_prop in E as [E _]. pose proof (lt_ofZ_bound j b g Hg E). lia.
  - left. eexists. split; [reflexivity|exact Hj].
Qed.

Lemma intValued_Qfloor (q : Q) (z : Z) : q == inject_Z z -> Qfloor q = z.
Proof. intros H. rewrite (Qfloor_comp _ _ H). apply Qfloor_Z. Qed.

(** One pass of an overlap-add loop whose read position moves on by a
    whole number of frames [h >= 1]: it leaves, or it goes round with
    fewer frames left. *)
Lemma overlapAdd_pass (fuel : nat) (input : f32array) (gz h : Z) hopOut (n : nat)
    (step : num * num * f32array -> outcome (ctl (num * num * f32array)))
    (inner : num -> num -> Z * f32array -> outcome (ctl (Z * f32array))) :
  (0 <= gz)%Z -> (1 <= h)%Z ->
  (forall inputPos outputPos output,
     step (inputPos, outputPos, output)
     = if lt outputPos (sub (len output) (ofZ gz)) then
         if ge (floor inputPos) (sub (len input) (ofZ gz))
         then Ret (Done (inputPos, outputPos, output))
         else iterate fuel (inner (floor inputPos) outputPos) (0%Z, output)
              >>= fun r => Ret (Next (add inputPos (ofZ h), add outputPos hopOut, snd r))
       else Ret (Done (inputPos, outputPos, output))) ->
  (forall inStart outputPos out,
     exists r, iterate fuel (inner inStart outputPos) (0%Z, out) = Ret r /\
               length (snd r) = length out) ->
  forall st,
  (exists p, intValued (fst (fst st)) p) /\ length (snd st) = n ->
  (exists s', step st = Ret (Done s') /\ length (snd s') = n) \/
  (exists s', step st = Ret (Next s') /\
              ((exists p, intValued (fst (fst s')) p) /\ length (snd s') = n) /\
              (framesLeft input s' < framesLeft input st)%nat).
Proof.
  intros Hg Hh Hstep Hinner [[ip op] out] [(p & Hp) Hn]. cbn [fst snd] in *.
  rewrite Hstep.
  destruct (lt op (sub (len out) (ofZ gz))); [|left; eexists; split; [reflexivity|exact Hn]].
  destruct (ge (floor ip) (sub (len input) (ofZ gz))) eqn:E;
    [left; eexists; split; [reflexivity|exact Hn]|].
  right. destruct (Hinner (floor ip) op out) as (r & -> & Hr). cbn [bind].
  eexists. split; [reflexivity|]. cbn [fst snd]. split.
  - split; [|congruence]. exists (p + h)%Z. apply intValued_add; [exact Hp|apply intValued_ofZ].
  - destruct Hp as (q & -> & Hq). unfold framesLeft. cbn [fst add ofZ].
    rewrite (intValued_Qfloor q p Hq).
    rewrite (intValued_Qfloor (Qred (q + inject_Z h)) (p + h));
      [|rewrite Qred_correct, Hq, inject_Z_plus; reflexivity].
    unfold floor, len, ofNat, ofZ in E. rewrite sub_Fin, ge_Fin in E.
    rewrite (intValued_Qfloor q p Hq) in E.
    assert (Hlt : inject_Z p < inject_Z (Z.of_nat (length input)) - inject_Z gz).
    { apply Qnot_le_lt. intros Hle. rewrite Qle_bool_true in E; [discriminate|].
      rewrite !Qred_correct. lra. }
    assert (Hz : (p < Z.of_nat (length input) - gz)%Z).
    { rewrite Zlt_Qlt. unfold Z.sub. rewrite inject_Z_plus, inject_Z_opp. lra. }
    lia.
Qed.

Lemma vocoderLoop_returns (fuel : nat) (input output : f32array) (hopOut : num)
    (w : GrainWindow) :
  (2048 < fuel)%nat -> (length input < fuel)%nat ->
  exists r,
    iterate fuel
      (vocoderStep fuel input (ofZ 2048) (div (ofZ 2048) (ofZ 4)) hopOut (Some w))
      (ofZ 0, ofZ 0, fillZero output) = Ret r /\
    length (snd r) = length output.
Proof.
  intros Hf1 Hf2.
  apply (iterate_terminates _ (framesLeft input)
           (fun st => (exists p, intValued (fst (fst st)) p) /\
                      length (snd st) = length output)
           (fun st => length (snd st) = length output)).
  - apply (overlapAdd_pass fuel input 2048 512 hopOut (length output) _
             (fun inStart outputPos => frameStep input (ofZ 2048) inStart outputPos (Some w)));
      [lia|lia| |].
    + intros ip op out. reflexivity.
    + intros inStart op out.
      apply (frameLoop_returns fuel input (inject_Z 2048) 2048); [apply Qle_refl|lia].
  - split; [exists 0%Z; apply intValued_ofZ|]. unfold fillZero. apply length_map.
  - unfold framesLeft. cbn [fst ofZ]. rewrite Qfloor_Z. lia.
Qed.

(** X12. The phase vocoder stretch returns for every input, output and
    ratio once the fuel covers one frame and the input, and the output
    keeps its length: the read position moves on by 512 frames a pass. *)
Theorem phaseVocoderStretch_returns (fuel : nat) (e : Engine) (input output : f32array)
    (ratio : num) :
  grainWindows e <> [] -> (2048 < fuel)%nat -> (length input < fuel)%nat ->
  exists out, phaseVocoderStretch fuel e input output ratio = Ret out /\
              length out = length output.
Proof.
  intros Hne Hf1 Hf2. unfold phaseVocoderStretch.
  destruct (getGrainWindow_some e (ofZ 2048) Hne) as (w & ->).
  destruct (vocoderLoop_returns fuel input output
              (floor (Binary64.mul (div (ofZ 2048) (ofZ 4)) ratio)) w Hf1 Hf2) as (r & -> & Hr).
  cbn [bind]. eexists. split; [reflexivity|].
  unfold normalizeFull. destruct (gt _ _); [rewrite length_map|]; exact Hr.
Qed.

(** 4000 samples stretched to twice the time into 4000: two frames are
    read, at 0 and 512, and added at 0 and 1024. *)
Lemma phaseVocoderStretch_returns_witness :
  exists out, phaseVocoderStretch 4001 (newEngine Inputs.flatWindow)
                (repeat (Fin (1 # 2)) 4000) (repeat (ofZ 0) 4000) (ofZ 2) = Ret out /\
              length out = length (repeat (ofZ 0) 4000).
Proof.
  apply phaseVocoderStretch_returns; [discriminate|lia|rewrite repeat_length; lia].
Defined.

Lemma hopIn_positive (g : Z) :
  (4 <= g)%Z -> exists h, hopInOf (ofZ g) = ofZ h /\ (1 <= h)%Z.
Proof.
  intros H4. exists (Qfloor (Qred (inject_Z g * (1 # 4)))). split; [reflexivity|].
  assert (H1 : inject_Z 1 <= Qred (inject_Z g * (1 # 4))).
  { rewrite Qred_correct. change (inject_Z 1) with 1.
    assert (inject_Z 4 <= inject_Z g) by (rewrite <- Zle_Qle; exact H4).
    change (inject_Z 4) with 4 in *. lra. }
  apply Qfloor_resp_le in H1. rewrite Qfloor_Z in H1. exact H1.
Qed.

Lemma granularLoop_returns (fuel : nat) (input output : f32array) (hopOut : num)
    (w : GrainWindow) (g h : Z) :
  (0 <= g)%Z -> (1 <= h)%Z -> (Z.to_nat g < fuel)%nat -> (length input < fuel)%nat ->
  exists r,
    iterate fuel (granularStep fuel input (ofZ g) (ofZ h) hopOut (Some w))
      (ofZ 0, ofZ 0, fillZero output) = Ret r /\
    length (snd r) = length output.
Proof.
  intros Hg Hh Hf1 Hf2.
  apply (iterate_terminates _ (framesLeft input)
           (fun st => (exists p, intValued (fst (fst st)) p) /\
                      length (snd st) = length output)
           (fun st => length (snd st) = length output)).
  - apply (overlapAdd_pass fuel input g h hopOut (length output) _
             (fun inStart outputPos => grainStep input (ofZ g) inStart outputPos (Some w)));
      [lia|lia| |].
    + intros ip op out. reflexivity.
    + intros inStart op out.
      apply (grainLoop_returns fuel input (inject_Z g) g); [apply Qle_refl|].
      rewrite Z.sub_0_r. exact Hf1.
  - split; [exists 0%Z; apply intValued_ofZ|]. unfold fillZero. apply length_map.
  - unfold framesLeft. cbn [fst ofZ]. rewrite Qfloor_Z. lia.
Qed.

(** X13. The granular stretch returns for every input, output and ratio
    when the grain is at least 4 samples long, so that the read position
    moves on by at least one frame a pass, and the fuel covers one grain
    and the input. *)
Theorem granularStretch_returns (fuel : nat) (e : Engine) (input output : f32array)
    (ratio : num) (g : Z) :
  grainWindows e <> [] -> grainSamples e = ofZ g -> (4 <= g)%Z ->
  (Z.to_nat g < fuel)%nat -> (length input < fuel)%nat ->
  exists out, granularStretch fuel e input output ratio = Ret out /\
              length out = length output.
Proof.
  intros Hne Hg H4 Hf1 Hf2. unfold granularStretch, granularSynth. rewrite Hg.
  destruct (getGrainWindow_some e (ofZ g) Hne) as (w & ->).
  destruct (hopIn_positive g H4) as (h & -> & Hh).
  destruct (granularLoop_returns fuel input output (floor (Binary64.mul (ofZ h) ratio)) w g h)
    as (r & -> & Hr); [lia|exact Hh|exact Hf1|exact Hf2|].
  cbn [bind]. eexists. split; [reflexivity|].
  unfold normalizeClip. destruct (gt _ _); [rewrite length_map|]; exact Hr.
Qed.

(** 4000 samples stretched to twice the time into 4000, with the default
    grain of 2205 samples: two grains are read, at 0 and 551, and added at
    0 and 1102. *)
Lemma granularStretch_returns_witness :
  exists out, granularStretch 4001 (newEngine Inputs.flatWindow)
                (repeat (Fin (1 # 2)) 4000) (repeat (ofZ 0) 4000) (ofZ 2) = Ret out /\
              length out = length (repeat (ofZ 0) 4000).
Proof.
  apply (granularStretch_returns 4001 (newEngine Inputs.flatWindow) _ _ _ 2205);
    [discriminate|reflexivity|lia|lia|rewrite repeat_length; lia].
Defined.

End StretchReturns.

(** ** Output of the phase vocoder and of tones mode *)
Section VocoderFacts.
Import JS Types WarpEngine.
Local Open Scope Q_scope.

Lemma frameLoop_finite fuel (input : f32array) gs inStart outputPos window :
  Forall finite input ->
  (forall w, window = Some w -> windowOk w) ->
  (lt (ofZ 0) gs = true -> grainFacts input gs inStart) ->
  forall st r, (0 <= fst st)%Z -> Forall finite (snd st) ->
  iterate fuel (frameStep input gs inStart outputPos window) st = Ret r ->
  Forall finite (snd r).
Proof.
  intros Hin Hw Hf st r Hi Ho Hr.
  assert (H : (0 <= fst r)%Z /\ Forall finite (snd r)); [|apply H].
  revert Hr. apply (iterate_inv (fun st => (0 <= fst st)%Z /\ Forall finite (snd st)));
    [| |split; assumption].
  - intros [i o] s' [Hi' Ho']. cbn [fst snd] in Hi', Ho'. unfold frameStep.
    destruct (lt (ofZ i) gs && lt (add outputPos (ofZ i)) (len o)) eqn:E; [|discriminate].
    apply andb_true_iff in E as [E _].
    destruct window as [w|]; [|discriminate]. cbn [windowOf bind].
    intros [= <-]. cbn [fst snd]. split; [lia|].
    destruct (Hf (lt_ofZ_zero i gs Hi' E)) as (g & s & -> & Hg & Hs & Hs0 & Hlen).
    assert (Hig : inject_Z i < g) by (apply lt_Fin_true, E).
    apply aset_add_finite; [exact Ho'|]. apply finite_mul.
    + apply (aget_finite input _ (s + i)).
      * exact Hin.
      * apply intValued_add; [exact Hs|apply intValued_ofZ].
      * assert (Hl : (s + i < Z.of_nat (length input))%Z).
        { rewrite Zlt_Qlt, inject_Z_plus. lra. }
        lia.
    + destruct (winIdx_in_range i g w (Hw w eq_refl) Hi' Hig) as (z & Hz & Hrange).
      apply (aget_finite (data w) _ z); [apply (Hw w eq_refl)|exact Hz|exact Hrange].
  - intros [i o] s' [Hi' Ho']. unfold frameStep.
    destruct (_ && _); [destruct window; discriminate|].
    intros [= <-]. split; assumption.
Qed.

Lemma vocoderLoop_finite fuel (input : f32array) hopOut window :
  Forall finite input ->
  (forall w, window = Some w -> windowOk w) ->
  forall st r,
  Forall finite (snd st) ->
  (exists p, intValued (fst (fst st)) p /\ (0 <= p)%Z) ->
  iterate fuel (vocoderStep fuel input (ofZ 2048) (div (ofZ 2048) (ofZ 4)) hopOut window) st
  = Ret r ->
  Forall finite (snd r).
Proof.
  intros Hin Hw st r Ho Hp Hr.
  set (P := fun st : num * num * f32array =>
              Forall finite (snd st) /\
              exists p, intValued (fst (fst st)) p /\ (0 <= p)%Z).
  assert (H : P r); [|apply H].
  revert Hr. apply (iterate_inv P); [| |split; assumption].
  - intros [[inputPos outputPos] o] s' [Ho' Hp']. cbn [fst snd] in Ho', Hp'.
    unfold vocoderStep.
    destruct (lt outputPos (sub (len o) (ofZ 2048))) eqn:Ec; [|discriminate].
    destruct (ge (floor inputPos) (sub (len input) (ofZ 2048))) eqn:Eg; [discriminate|].
    match goal with |- context [iterate fuel ?s ?i] =>
      destruct (iterate fuel s i) as [r'| |] eqn:Ei end; try discriminate.
    cbn [bind]. intros [= <-]. destruct Hp' as (p & Hpos & Hp0). split; cbn [fst snd].
    + apply (frameLoop_finite fuel input (ofZ 2048) (floor inputPos) outputPos window Hin Hw)
        with (st := (0%Z, o)); [|cbn; lia|exact Ho'|exact Ei].
      intros _. exists (inject_Z 2048), p. split; [reflexivity|]. split; [reflexivity|].
      split; [apply intValued_floor, Hpos|]. split; [exact Hp0|].
      destruct Hpos as (q & -> & Hq).
      unfold floor, len, ofNat, ofZ in Eg. rewrite sub_Fin, ge_Fin in Eg.
      rewrite (intValued_Qfloor q p Hq) in Eg.
      apply Qnot_le_lt. intros Hle. rewrite Qle_bool_true in Eg; [discriminate|].
      rewrite !Qred_correct. lra.
    + exists (p + 512)%Z. split; [|lia].
      apply intValued_add; [exact Hpos|]. exists (Qred (inject_Z 2048 / inject_Z 4)).
      split; [reflexivity|]. rewrite Qred_correct. reflexivity.
  - intros [[inputPos outputPos] o] s' HP. unfold vocoderStep.
    destruct (lt _ _).
    + destruct (ge _ _).
      * intros [= <-]. exact HP.
      * match goal with |- context [iterate fuel ?s ?i] =>
          destruct (iterate fuel s i) as [r'| |] end; discriminate.
    + intros [= <-]. exact HP.
Qed.

(** The peak of an array of numbers is 0 or the absolute value of one of
    them. *)
Lemma peak_attained (a : f32array) :
  Forall finite a ->
  forall m, exists M, fold_left (fun m x => max m (abs x)) a (Fin m) = Fin M /\
                      (M = m \/ exists q, In (Fin q) a /\ M = Qabs q).
Proof.
  induction 1 as [|x a [q ->] Ha IH]; intros m.
  - exists m. split; [reflexivity|left; reflexivity].
  - cbn [fold_left abs max lt]. destruct (Qle_bool (Qabs q) m); cbn [negb].
    + destruct (IH m) as (M & HM & [->|(q' & Hin & ->)]).
      * exists m. split; [exact HM|left; reflexivity].
      * eexists. split; [exact HM|]. right. exists q'. split; [right; exact Hin|reflexivity].
    + destruct (IH (Qabs q)) as (M & HM & [->|(q' & Hin & ->)]).
      * eexists. split; [exact HM|]. right. exists q. split; [left|]; reflexivity.
      * eexists. split; [exact HM|]. right. exists q'. split; [right; exact Hin|reflexivity].
Qed.

Lemma normalizeFull_peak (a : f32array) :
  Forall finite a ->
  Forall within1 (normalizeFull a) /\
  exists M, peak (normalizeFull a) = Fin M /\ (M == 1 \/ M <= 1 # 100).
Proof.
  intros Ha. unfold normalizeFull.
  destruct (peak_from a Ha 0) as (M & HM & HM0 & Hall); [lra|].
  change (peak a = Fin M) in HM. rewrite HM.
  unfold gt, lt. destruct (Qle_bool M (1 # 100)) eqn:E; cbn [negb].
  - apply Qle_bool_iff in E. split.
    + eapply Forall_impl; [exact Hall|].
      intros x (q & -> & Hq). exists q. split; [reflexivity|lra].
    + exists M. split; [exact HM|right; exact E].
  - assert (HM1 : 1 # 100 < M).
    { apply Qnot_le_lt. intros H. apply Qle_bool_iff in H. congruence. }
    assert (HMne : ~ M == 0) by lra.
    unfold ofZ. rewrite div_Fin by (apply Qeq_bool_false_pos; lra).
    set (norm := Qred (inject_Z 1 / M)).
    assert (Hnorm : norm == / M).
    { unfold norm. rewrite Qred_correct. change (inject_Z 1) with 1. field. exact HMne. }
    set (a' := map (fun x => mul x (Fin norm)) a).
    assert (Hscaled : Forall (fun x => exists q, x = Fin q /\ Qabs q <= 1) a').
    { apply Forall_map. eapply Forall_impl; [exact Hall|].
      intros x (q & -> & Hq). rewrite mul_Fin. eexists. split; [reflexivity|].
      rewrite Qred_correct, Hnorm, Qabs_Qmult, (Qabs_pos (/ M)).
      - apply Qle_shift_div_r; lra.
      - apply Qlt_le_weak, Qinv_lt_0_compat. lra. }
    split; [exact Hscaled|].
    assert (Hfin : Forall finite a').
    { eapply Forall_impl; [exact Hscaled|]. intros x (q & -> & _). eexists. reflexivity. }
    destruct (peak_from a' Hfin 0) as (M' & HM' & HM0' & Hall'); [lra|].
    exists M'. split; [exact HM'|]. left.
    apply Qle_antisym.
    + destruct (peak_attained a' Hfin 0) as (M2 & HM2 & Hatt).
      rewrite HM' in HM2. injection HM2 as <-.
      destruct Hatt as [->|(q & Hin & ->)]; [lra|].
      rewrite List.Forall_forall in Hscaled.
      destruct (Hscaled _ Hin) as (q' & [= <-] & Hq'). exact Hq'.
    + destruct (peak_attained a Ha 0) as (M2 & HM2 & Hatt).
      change (peak a = Fin M2) in HM2. rewrite HM in HM2. injection HM2 as <-.
      destruct Hatt as [->|(q & Hin & ->)]; [lra|].
      assert (Hin' : In (mul (Fin q) (Fin norm)) a')
        by exact (in_map (fun x => mul x (Fin norm)) a (Fin q) Hin).
      rewrite List.Forall_forall in Hall'.
      destruct (Hall' _ Hin') as (q' & Eq' & Hq'). rewrite mul_Fin in Eq'.
      injection Eq' as <-.
      rewrite Qred_correct, Hnorm, Qabs_Qmult, (Qabs_pos (/ Qabs q)) in Hq'.
      * assert (E1 : Qabs q * / Qabs q == 1) by (field; exact HMne). lra.
      * apply Qlt_le_weak, Qinv_lt_0_compat. lra.
Qed.

Lemma within1_finite (a : f32array) : Forall within1 a -> Forall finite a.
Proof.
  intros H. eapply Forall_impl; [exact H|]. intros x (q & -> & _). exists q. reflexivity.
Qed.

Lemma repeat_within1 (q : Q) (n : nat) :
  (Qabs q <= 1)%Q -> Forall within1 (repeat (Fin q) n).
Proof.
  intros Hq. apply List.Forall_forall. intros x Hx. apply repeat_spec in Hx. subst x.
  exists q. split; [reflexivity|exact Hq].
Qed.

Lemma flatWindow_unit : unitWindows (newEngine Inputs.flatWindow).
Proof.
  intros k w Hin. unfold newEngine, initializeGrainWindows in Hin.
  cbn [grainWindows] in Hin. apply in_map_iff in Hin as (sz & [= _ <-] & _).
  cbn [data]. apply List.Forall_forall. intros x Hx.
  apply in_map_iff in Hx as (i & <- & _). exists (1 # 2). split; [reflexivity|].
  discriminate.
Qed.

(** The phase vocoder stretch returns once the fuel covers a frame and the
    input. *)
Lemma vocoder_total (fuel : nat) (e : Engine) (input output : f32array) (ratio : num) :
  grainWindows e <> [] -> (2048 < fuel)%nat -> (length input < fuel)%nat ->
  exists out, phaseVocoderStretch fuel e input output ratio = Ret out.
Proof.
  intros Hne Hf1 Hf2. unfold phaseVocoderStretch.
  destruct (getGrainWindow_some e (ofZ 2048) Hne) as (w & ->).
  destruct (vocoderLoop_returns fuel input output
              (floor (Binary64.mul (div (ofZ 2048) (ofZ 4)) ratio)) w Hf1 Hf2) as (r & -> & _).
  cbn [bind]. eexists. reflexivity.
Qed.

(** X14. With the windows as built, window coefficients and input samples
    within [-1, 1], a completed phase vocoder stretch leaves every sample
    within [-1, 1], and its peak is exactly 1 unless it is at most 0.01:
    quiet material is left alone, everything else is scaled to full
    level.  (Sample values are kept exact; within this range float32
    cannot overflow.) *)
Theorem phaseVocoderStretch_normalized (fuel : nat) (e : Engine)
    (input output : f32array) (ratio : num) (out : f32array) :
  windowsOk e -> unitWindows e -> Forall within1 input ->
  phaseVocoderStretch fuel e input output ratio = Ret out ->
  Forall within1 out /\
  exists M, peak out = Fin M /\ (M == 1 \/ M <= 1 # 100).
Proof.
  intros He _ Hin. apply within1_finite in Hin. unfold phaseVocoderStretch.
  match goal with |- context [iterate fuel ?s ?i] =>
    destruct (iterate fuel s i) as [r| |] eqn:Ei end; try discriminate.
  cbn [bind]. intros [= <-]. apply normalizeFull_peak.
  eapply (vocoderLoop_finite fuel input); [exact Hin| | | |exact Ei].
  - intros w Hw. eapply getGrainWindow_ok; eassumption.
  - apply fillZero_finite.
  - exists 0%Z. split; [apply intValued_ofZ|lia].
Qed.

(** 4000 samples of 0.5 stretched to twice the time: two frames are added
    into the output, at 0 and 1024, and the result is normalized. *)
Lemma phaseVocoderStretch_normalized_witness :
  exists out,
    phaseVocoderStretch 4001 (newEngine Inputs.flatWindow)
      (repeat (Fin (1 # 2)) 4000) (repeat (ofZ 0) 4000) (ofZ 2) = Ret out /\
    Forall within1 out /\
    exists M, peak out = Fin M /\ (M == 1 \/ M <= 1 # 100).
Proof.
  destruct (vocoder_total 4001 (newEngine Inputs.flatWindow)
              (repeat (Fin (1 # 2)) 4000) (repeat (ofZ 0) 4000) (ofZ 2))
    as (out & E); [discriminate|lia|rewrite repeat_length; lia|].
  exists out. split; [exact E|].
  apply (phaseVocoderStretch_normalized 4001 (newEngine Inputs.flatWindow)
           (repeat (Fin (1 # 2)) 4000) (repeat (ofZ 0) 4000) (ofZ 2) out).
  - apply windowsOk_new.
  - apply flatWindow_unit.
  - apply repeat_within1. discriminate.
  - exact E.
Defined.

Lemma forEach_returns {A S : Type} (P : S -> Prop) (xs : list A)
    (body : S -> A -> outcome S) :
  (forall s x, In x xs -> P s -> exists s', body s x = Ret s' /\ P s') ->
  forall s, P s -> exists r, forEach xs body s = Ret r /\ P r.
Proof.
  induction xs as [|x xs IH]; intros Hb s Hs.
  - exists s. split; [reflexivity|exact Hs].
  - cbn [forEach]. destruct (Hb s x (or_introl eq_refl) Hs) as (s' & -> & Hs').
    cbn [bind]. apply IH; [|exact Hs']. intros s0 y Hy. apply Hb. right. exact Hy.
Qed.

(** Every channel is stretched by a body that returns an output of the
    same length. *)
Lemma eachChannel_returns (src out : AudioBuffer) (n : nat)
    (body : f32array -> f32array -> outcome f32array) :
  length (channelData out) = numberOfChannels src ->
  Forall (fun c => length c = n) (channelData out) ->
  (forall input output, In input (channelData src) -> length output = n ->
     exists o, body input output = Ret o /\ length o = n) ->
  exists b, eachChannel src out body = Ret b /\
            sampleRate b = sampleRate out /\ bufLength b = bufLength out /\
            length (channelData b) = numberOfChannels src /\
            Forall (fun c => length c = n) (channelData b).
Proof.
  intros Hlen Hout Hbody. unfold eachChannel.
  destruct (forEach_returns
              (fun chans : list f32array =>
                 length chans = numberOfChannels src /\
                 Forall (fun c => length c = n) chans)
              (seq 0 (numberOfChannels src))
              (fun (chans : list f32array) (ch : nat) =>
                 body (nth ch (channelData src) []) (nth ch chans [])
                 >>= fun o => Ret (<[ch := o]> chans)))
    with (s := channelData out) as (chans & -> & Hc1 & Hc2).
  - intros chans ch Hch [Hl Hall]. apply in_seq in Hch.
    destruct (Hbody (nth ch (channelData src) []) (nth ch chans [])) as (o & -> & Ho).
    + apply nth_In. unfold numberOfChannels in Hch. lia.
    + rewrite List.Forall_forall in Hall. apply Hall, nth_In. lia.
    + cbn [bind]. eexists. split; [reflexivity|]. split.
      * rewrite length_insert. exact Hl.
      * apply Forall_insert; assumption.
  - split; assumption.
  - cbn [bind]. eexists. split; [reflexivity|]. cbn. repeat split; assumption.
Qed.

Lemma createBuffer_channels (channels : nat) (n : Z) (rate : num) :
  (1 <= n)%Z -> (1 <= channels)%nat ->
  exists b, createBuffer channels (ofZ n) rate = Ret b /\
            sampleRate b = rate /\ bufLength b = n /\
            length (channelData b) = channels /\
            Forall (fun c => length c = Z.to_nat n) (channelData b).
Proof.
  intros Hn Hc. unfold createBuffer. rewrite toIndex_ofZ.
  replace (1 <=? n)%Z with true by (symmetry; apply Z.leb_le; exact Hn).
  replace (1 <=? Z.of_nat channels)%Z with true by (symmetry; apply Z.leb_le; lia).
  cbn [andb]. eexists. split; [reflexivity|]. cbn [sampleRate bufLength channelData].
  split; [reflexivity|]. split; [reflexivity|]. split; [apply repeat_length|].
  apply List.Forall_forall. intros c Hc'. apply repeat_spec in Hc'. subst c.
  apply repeat_length.
Qed.

(** X15. Tones mode: with a source loaded and a target of [n >= 1] frames,
    [n] being the floor of the rounded product of target duration and
    sample rate, [process] returns a buffer at the source's sample rate
    with [n] frames in every channel and as many channels as the source,
    whatever the samples, once the fuel covers a frame and the longest
    source channel. *)
Theorem process_tones_returns (fuel : nat) (rnd : nat -> Q) (e : Engine)
    (src : AudioBuffer) (d : num) (n : Z) :
  sourceBuffer e = Some src ->
  enabled (settings e) = true ->
  mode (settings e) = ModeTones ->
  grainWindows e <> [] ->
  channelData src <> [] ->
  Forall (fun c => (length c < fuel)%nat) (channelData src) ->
  floor (Binary64.mul d (sampleRate src)) = ofZ n -> (1 <= n)%Z ->
  (2048 < fuel)%nat ->
  exists b, process fuel rnd e d = Ret (Some b) /\
            sampleRate b = sampleRate src /\ bufLength b = n /\
            length (channelData b) = numberOfChannels src /\
            Forall (fun c => length c = Z.to_nat n) (channelData b).
Proof.
  intros Hsrc Hen Hmode Hne Hch Hall Hn Hn1 Hfuel.
  unfold process. rewrite Hsrc, Hen, Hmode. cbn [negb].
  unfold processTonesMode. rewrite Hsrc, Hn.
  destruct (createBuffer_channels (numberOfChannels src) n (sampleRate src) Hn1)
    as (ob & -> & Hr & Hb & Hl & Hz).
  { unfold numberOfChannels. destruct (channelData src); [contradiction|cbn; lia]. }
  cbn [bind].
  destruct (eachChannel_returns src ob (Z.to_nat n)
              (fun inputData outputData =>
                 phaseVocoderStretch fuel e inputData outputData
                   (Binary64.div d (duration src))) Hl Hz)
    as (b & -> & H1 & H2 & H3 & H4).
  - intros input output Hin Hlen. rewrite List.Forall_forall in Hall.
    pose proof (Hall _ Hin) as Hlt. unfold phaseVocoderStretch.
    destruct (getGrainWindow_some e (ofZ 2048) Hne) as (w & ->).
    destruct (vocoderLoop_returns fuel input output
                (floor (Binary64.mul (div (ofZ 2048) (ofZ 4))
                          (Binary64.div d (duration src)))) w Hfuel Hlt)
      as (r & -> & Hlr).
    cbn [bind]. eexists. split; [reflexivity|].
    unfold normalizeFull. destruct (gt _ _); [rewrite length_map|]; congruence.
  - cbn [bind]. exists b. split; [reflexivity|]. repeat split; congruence.
Qed.

(** 4000 frames of 0.5 at 44.1 kHz stretched to 0.06 s: 2646 frames; two
    frames of 2048 samples are added into the output channel, at 0 and
    338. *)
Lemma process_tones_returns_witness :
  exists b, process 4001 Inputs.noRandom (Inputs.toneEngine ModeTones) Inputs.sixtyMs
            = Ret (Some b) /\
            sampleRate b = sampleRate Inputs.toneSource /\ bufLength b = 2646%Z /\
            length (channelData b) = numberOfChannels Inputs.toneSource /\
            Forall (fun c => length c = Z.to_nat 2646) (channelData b).
Proof.
  apply (process_tones_returns 4001 Inputs.noRandom (Inputs.toneEngine ModeTones)
           Inputs.toneSource Inputs.sixtyMs 2646).
  - reflexivity.
  - reflexivity.
  - reflexivity.
  - discriminate.
  - discriminate.
  - constructor; [|constructor]. rewrite repeat_length. lia.
  - vm_compute. reflexivity.
  - lia.
  - lia.
Defined.

(** X16. Beats mode with fewer than two markers stretches each channel as
    one piece: with grains of at least 4 samples and a target of [n >= 1]
    frames, [n] being the floor of the rounded product of target duration
    and sample rate, [process] returns a buffer at the source's sample rate
    with [n] frames in every channel and as many channels as the source,
    whatever the samples. *)
Theorem process_beats_unmarked_returns (fuel : nat) (rnd : nat -> Q) (e : Engine)
    (src : AudioBuffer) (d : num) (n g : Z) :
  sourceBuffer e = Some src ->
  enabled (settings e) = true ->
  mode (settings e) = ModeBeats ->
  (length (markers (settings e)) < 2)%nat ->
  grainWindows e <> [] ->
  grainSamples e = ofZ g -> (4 <= g)%Z ->
  channelData src <> [] ->
  Forall (fun c => (length c < fuel)%nat) (channelData src) ->
  floor (Binary64.mul d (sampleRate src)) = ofZ n -> (1 <= n)%Z ->
  (Z.to_nat g < fuel)%nat ->
  exists b, process fuel rnd e d = Ret (Some b) /\
            sampleRate b = sampleRate src /\ bufLength b = n /\
            length (channelData b) = numberOfChannels src /\
            Forall (fun c => length c = Z.to_nat n) (channelData b).
Proof.
  intros Hsrc Hen Hmode Hms Hne Hg Hg4 Hch Hall Hn Hn1 Hfuel.
  unfold process. rewrite Hsrc, Hen, Hmode. cbn [negb].
  unfold processBeatsMode. rewrite Hsrc, Hn.
  destruct (createBuffer_channels (numberOfChannels src) n (sampleRate src) Hn1)
    as (ob & -> & Hr & Hb & Hl & Hz).
  { unfold numberOfChannels. destruct (channelData src); [contradiction|cbn; lia]. }
  cbn [bind].
  destruct (eachChannel_returns src ob (Z.to_nat n)
              (beatsChannel fuel e (sampleRate src) (Binary64.div d (duration src)) (ofZ n)) Hl Hz)
    as (b & -> & H1 & H2 & H3 & H4).
  - intros input output Hin Hlen. rewrite List.Forall_forall in Hall.
    pose proof (Hall _ Hin) as Hlt. unfold beatsChannel.
    replace (length (markers (settings e)) <? 2)%nat with true
      by (symmetry; apply Nat.ltb_lt, Hms).
    unfold granularStretch, granularSynth. rewrite Hg.
    destruct (getGrainWindow_some e (ofZ g) Hne) as (w & ->).
    destruct (hopIn_positive g Hg4) as (h & -> & Hh).
    destruct (granularLoop_returns fuel input output
                (floor (Binary64.mul (ofZ h) (Binary64.div d (duration src)))) w g h)
      as (r & -> & Hlr); [lia|exact Hh|exact Hfuel|exact Hlt|].
    cbn [bind]. eexists. split; [reflexivity|].
    unfold normalizeClip. destruct (gt _ _); [rewrite length_map|]; congruence.
  - cbn [bind]. exists b. split; [reflexivity|]. repeat split; congruence.
Qed.

(** The same source and target in beats mode, with no markers and the
    default grain of 2205 samples: two grains are added into the output
    channel, at 0 and 364. *)
Lemma process_beats_unmarked_returns_witness :
  exists b, process 4001 Inputs.noRandom (Inputs.toneEngine ModeBeats) Inputs.sixtyMs
            = Ret (Some b) /\
            sampleRate b = sampleRate Inputs.toneSource /\ bufLength b = 2646%Z /\
            length (channelData b) = numberOfChannels Inputs.toneSource /\
            Forall (fun c => length c = Z.to_nat 2646) (channelData b).
Proof.
  apply (process_beats_unmarked_returns 4001 Inputs.noRandom
           (Inputs.toneEngine ModeBeats) Inputs.toneSource Inputs.sixtyMs 2646 2205).
  - reflexivity.
  - reflexivity.
  - reflexivity.
  - cbn. lia.
  - discriminate.
  - reflexivity.
  - lia.
  - discriminate.
  - constructor; [|constructor]. rewrite repeat_length. lia.
  - vm_compute. reflexivity.
  - lia.
  - lia.
Defined.

End VocoderFacts.

(** ** Transient detection *)
Section TransientFacts.
Import JS Types WarpEngine.
Local Open Scope Q_scope.

Lemma spaced_snoc (ts : list num) (x y : Q) :
  spaced (ts ++ [Fin x]) -> x + (1 # 20) < y -> spaced ((ts ++ [Fin x]) ++ [Fin y]).
Proof.
  intros Hs Hxy. induction ts as [|a ts IH].
  - cbn. split; [|exact I]. exists x, y. repeat split. exact Hxy.
  - destruct ts as [|b ts].
    + cbn in Hs |- *. split; [apply Hs|]. split; [|exact I].
      exists x, y. repeat split. exact Hxy.
    + cbn [app] in Hs, IH |- *. destruct Hs as [H1 H2]. split; [exact H1|].
      apply IH, H2.
Qed.

Lemma frameStarts_multiples (fuel : nat) (limit : Z) :
  forall k i, (0 <= k)%Z -> In i (frameStarts fuel (128 * k) limit) ->
              exists f, (k <= f)%Z /\ i = (128 * f)%Z.
Proof.
  induction fuel as [|fuel IH]; intros k i Hk Hin; [destruct Hin|].
  cbn [frameStarts] in Hin. destruct (128 * k <? limit)%Z; [|destruct Hin].
  destruct Hin as [<-|Hin]; [exists k; split; [lia|reflexivity]|].
  replace (128 * k + 128)%Z with (128 * (k + 1))%Z in Hin by lia.
  destruct (IH (k + 1)%Z i ltac:(lia) Hin) as (f & Hf & ->). exists f. split; [lia|reflexivity].
Qed.

(** The fuel that [detectTransients] gives the loop covers every pass. *)
Lemma frameStarts_complete (fuel : nat) (limit : Z) :
  forall j k, (0 <= j <= k)%Z -> (128 * k < limit)%Z -> (Z.to_nat (k - j) < fuel)%nat ->
              In (128 * k)%Z (frameStarts fuel (128 * j) limit).
Proof.
  induction fuel as [|fuel IH]; intros j k Hjk Hk Hf; [lia|].
  cbn [frameStarts]. replace (128 * j <? limit)%Z with true by (symmetry; apply Z.ltb_lt; lia).
  destruct (Z.eq_dec j k) as [->|Hne]; [left; reflexivity|]. right.
  replace (128 * j + 128)%Z with (128 * (j + 1))%Z by lia. apply IH; lia.
Qed.

Lemma frameStarts_covers_loop (data : f32array) (k : Z) :
  (0 <= k)%Z -> (128 * k < Z.of_nat (length data) - 512)%Z ->
  In (128 * k)%Z (frameStarts (length data) 0 (Z.of_nat (length data) - 512)).
Proof.
  intros Hk Hlt. apply (frameStarts_complete _ _ 0%Z k); lia.
Qed.

Lemma frameIndex_of (f : Z) : floor (div (ofZ (128 * f)) (ofZ 128)) = ofZ f.
Proof.
  unfold ofZ. rewrite div_Fin by reflexivity. cbn [floor]. unfold ofZ. do 2 f_equal.
  apply intValued_Qfloor. rewrite Qred_correct, inject_Z_mult.
  change (inject_Z 128) with 128. field.
Qed.

(** The loop keeps the list non-empty and spaced, and the last frame index
    it remembers belongs to the last time of the list. *)
Lemma detect_fold sqrt (data : f32array) (rho : Q) (threshold : num) (xs : list Z) :
  0 < rho ->
  (forall i, In i xs -> exists f, (0 <= f)%Z /\ i = (128 * f)%Z) ->
  forall ts prev (L : Z) (t : Q),
  spaced (ts ++ [Fin t]) -> t == inject_Z (128 * L) / rho ->
  let minFrames := floor (div (mul (Fin rho) (Fin (1 # 20))) (ofZ 128)) in
  let r := fold_left (detectStep sqrt data (Fin rho) threshold minFrames) xs
             (ts ++ [Fin t], prev, ofZ L) in
  exists rest, fst (fst r) = (ts ++ [Fin t]) ++ rest /\ spaced (fst (fst r)).
Proof.
  intros Hrho. induction xs as [|i xs IH]; intros Hxs ts prev L t Hs Ht; cbv zeta.
  - exists []. cbn. rewrite app_nil_r. split; [reflexivity|exact Hs].
  - cbn [fold_left]. destruct (Hxs i (or_introl eq_refl)) as (f & Hf & ->).
    assert (Hxs' : forall i, In i xs -> exists f, (0 <= f)%Z /\ i = (128 * f)%Z)
      by (intros j Hj; apply Hxs; right; exact Hj).
    match goal with |- context [fold_left ?F xs ?s] => remember s as st' eqn:Est end.
    unfold detectStep in Est. rewrite frameIndex_of in Est.
    match type of Est with context [if ?c then _ else _] => destruct c eqn:Ec end;
      subst st'.
    + apply andb_prop in Ec as [_ Ec].
      change (div (ofZ (128 * f)) (Fin rho))
        with (div (Fin (inject_Z (128 * f))) (Fin rho)).
      rewrite div_Fin by (apply Qeq_bool_false_pos, Hrho).
      assert (Hsp : t + (1 # 20) < Qred (inject_Z (128 * f) / rho)).
      { rewrite Qred_correct, Ht. unfold ofZ in Ec.
        rewrite mul_Fin, div_Fin, sub_Fin in Ec by reflexivity. cbn [floor] in Ec.
        apply lt_Fin_true in Ec.
        assert (Hc : Qred (Qred (rho * (1 # 20)) / inject_Z 128) == rho * (1 # 20) / 128).
        { rewrite !Qred_correct. reflexivity. }
        pose proof (Qlt_floor (Qred (Qred (rho * (1 # 20)) / inject_Z 128))) as Hfl.
        set (c := Qred (Qred (rho * (1 # 20)) / inject_Z 128)) in *.
        set (m := Qfloor c) in *.
        rewrite !Qred_correct in Ec. rewrite inject_Z_plus in Hfl.
        change (inject_Z 1) with 1 in Hfl.
        assert (Hm : (m < f - L)%Z).
        { rewrite Zlt_Qlt. unfold Z.sub. rewrite inject_Z_plus, inject_Z_opp. lra. }
        assert (Hm1 : inject_Z (m + 1) <= inject_Z (f - L)) by (rewrite <- Zle_Qle; lia).
        unfold Z.sub in Hm1. rewrite !inject_Z_plus, inject_Z_opp in Hm1.
        change (inject_Z 1) with 1 in Hm1.
        assert (Hgap : rho * (1 # 20) < 128 * (inject_Z f - inject_Z L)).
        { assert (H1 : rho * (1 # 20) / 128 < inject_Z f - inject_Z L) by lra.
          apply (Qmult_lt_compat_r _ _ 128) in H1; [|reflexivity].
          assert (E : rho * (1 # 20) / 128 * 128 == rho * (1 # 20)) by field.
          rewrite E in H1. lra. }
        rewrite !inject_Z_mult. change (inject_Z 128) with 128.
        assert (E : 128 * inject_Z f / rho
                    == 128 * inject_Z L / rho + 128 * (inject_Z f - inject_Z L) / rho)
          by (field; lra).
        rewrite E.
        assert (H2 : (1 # 20) < 128 * (inject_Z f - inject_Z L) / rho).
        { apply Qlt_shift_div_l; [exact Hrho|]. lra. }
        lra. }
      destruct (IH Hxs' (ts ++ [Fin t]) (frameEnergy sqrt data (128 * f)) f
                  (Qred (inject_Z (128 * f) / rho)))
        as (rest & E & Hsp').
      * apply spaced_snoc; assumption.
      * apply Qred_correct.
      * cbv zeta in E, Hsp'. exists (Fin (Qred (inject_Z (128 * f) / rho)) :: rest).
        split; [|exact Hsp']. rewrite E, <- app_assoc. reflexivity.
    + apply (IH Hxs' ts (frameEnergy sqrt data (128 * f)) L t Hs Ht).
Qed.

(** X17. With a sample rate of a whole number of hertz, the detected
    transients start with time 0 and every further one lies more than
    50 ms after the one before, whatever the samples and the sensitivity. *)
Theorem transients_keep_apart (sqrt : Q -> Q) (e : Engine) (data : f32array) (r : Z) :
  (1 <= r)%Z ->
  exists rest, detectTransients sqrt e data (ofZ r) = ofZ 0 :: rest /\
               spaced (detectTransients sqrt e data (ofZ r)).
Proof.
  intros Hr. assert (Hrho : 0 < inject_Z r).
  { change 0 with (inject_Z 0). rewrite <- Zlt_Qlt. lia. }
  unfold detectTransients, ofZ at 1 2 3 4.
  destruct (detect_fold sqrt data (inject_Z r)
              (mul (Fin (1 # 10)) (transientSensitivity (settings e)))
              (frameStarts (length data) 0 (Z.of_nat (length data) - 512)) Hrho)
    with (ts := @nil num) (prev := ofZ 0) (L := 0%Z) (t := inject_Z 0)
    as (rest & E & Hs).
  - intros i Hi. apply (frameStarts_multiples _ _ 0%Z i) in Hi; [|lia].
    destruct Hi as (f & Hf & ->). exists f. split; [exact Hf|reflexivity].
  - exact I.
  - change (inject_Z (128 * 0)) with 0. change (inject_Z 0) with 0. field. lra.
  - cbv zeta in E, Hs. exists rest. split; [exact E|exact Hs].
Qed.

(** The two bursts at 8 kHz: the frames that first reach into a burst
    start at samples 640 and 2176, so the transients are 0, 0.08 s and
    0.272 s. *)
Lemma transients_keep_apart_witness :
  detectTransients Inputs.sqrt6 Inputs.burstEngine Inputs.twoBursts (ofZ 8000)
  = [ofZ 0; Fin (2 # 25); Fin (34 # 125)] /\
  exists rest,
    detectTransients Inputs.sqrt6 Inputs.burstEngine Inputs.twoBursts (ofZ 8000)
    = ofZ 0 :: rest /\
    spaced (detectTransients Inputs.sqrt6 Inputs.burstEngine Inputs.twoBursts (ofZ 8000)).
Proof.
  split; [vm_compute; reflexivity|].
  apply (transients_keep_apart Inputs.sqrt6 Inputs.burstEngine Inputs.twoBursts 8000). lia.
Defined.

Lemma spaced_ascending (ts : list num) (t0 : Q) :
  spaced (Fin t0 :: ts) ->
  exists xs, Fin t0 :: ts = map Fin (t0 :: xs) /\ ascending (t0 :: xs).
Proof.
  revert t0. induction ts as [|b ts IH]; intros t0 Hs.
  - exists []. split; [reflexivity|exact I].
  - destruct Hs as [(x & y & [= <-] & -> & Hxy) Hs].
    destruct (IH y Hs) as (xs & E & Ha).
    exists (y :: xs). split; [cbn [map] in E |- *; rewrite E; reflexivity|].
    split; [lra|exact Ha].
Qed.

Lemma transients_ascending (sqrt : Q -> Q) (e : Engine) (data : f32array) (rho : Q) :
  0 < rho ->
  exists xs, detectTransients sqrt e data (Fin rho) = map Fin (inject_Z 0 :: xs) /\
             ascending (inject_Z 0 :: xs).
Proof.
  intros Hrho. unfold detectTransients.
  destruct (detect_fold sqrt data rho
              (mul (Fin (1 # 10)) (transientSensitivity (settings e)))
              (frameStarts (length data) 0 (Z.of_nat (length data) - 512)) Hrho)
    with (ts := @nil num) (prev := ofZ 0) (L := 0%Z) (t := inject_Z 0)
    as (rest & E & Hs).
  - intros i Hi. apply (frameStarts_multiples _ _ 0%Z i) in Hi; [|lia].
    destruct Hi as (f & Hf & ->). exists f. split; [exact Hf|reflexivity].
  - exact I.
  - change (inject_Z (128 * 0)) with 0. change (inject_Z 0) with 0. field. lra.
  - cbv zeta in E, Hs. cbn [app] in E.
    destruct (spaced_ascending rest (inject_Z 0)) as (xs & Ex & Ha);
      [rewrite <- E; exact Hs|].
    exists xs. split; [|exact Ha]. etransitivity; [exact E|exact Ex].
Qed.

Lemma map_imap_const {A B C : Type} (g : B -> C) (h : A -> C) (l : list A) :
  forall F : nat -> A -> B,
  (forall i x, g (F i x) = h x) -> map g (imap F l) = map h l.
Proof.
  induction l as [|x l IH]; intros F H; [reflexivity|].
  cbn [imap map]. rewrite H. f_equal. apply IH. intros i y. apply H.
Qed.

Lemma ascending_scaled (xs : list Q) (q : Q) :
  0 < q -> ascending xs ->
  ascending (map (fun x => Qred (Qred (x / inject_Z 60) * q)) xs).
Proof.
  intros Hq. induction xs as [|a xs IH]; intros Ha; [exact I|].
  destruct xs as [|b xs]; [exact I|]. destruct Ha as [Hab Ha].
  cbn [map]. split; [|apply IH, Ha].
  rewrite !Qred_correct. change (inject_Z 60) with 60.
  apply Qmult_lt_compat_r; [exact Hq|].
  unfold Qdiv. apply Qmult_lt_compat_r; [reflexivity|exact Hab].
Qed.

(** X18. With a source loaded, a sample rate of a whole number of hertz
    and a tempo between 1 and 1000 bpm, the markers that
    [autoDetectMarkers] creates start at sample time 0 and beat 0 and
    increase strictly in sample time and in beat time. *)
Theorem detected_markers_increase (sqrt : Q -> Q) (ids : nat -> string) (e : Engine)
    (b : AudioBuffer) (r : Z) (q : Q) :
  sourceBuffer e = Some b ->
  sampleRate b = ofZ r -> (1 <= r)%Z ->
  originalBPM (settings e) = Fin q -> 1 <= q -> q <= 1000 ->
  exists b0 rest,
    placed (markers (settings (autoDetectMarkers sqrt ids e))) ((0, b0) :: rest) /\
    b0 == 0 /\
    ascending (map fst ((0, b0) :: rest)) /\ ascending (map snd ((0, b0) :: rest)).
Proof.
  intros Hb Hr Hr1 Hq Hq1 _. assert (Hrho : 0 < inject_Z r).
  { change 0 with (inject_Z 0). rewrite <- Zlt_Qlt. lia. }
  assert (Hq0 : 0 < q) by lra.
  unfold autoDetectMarkers. rewrite Hb.
  unfold setMarkers. cbn [settings markers]. rewrite Hr, Hq. unfold ofZ at 1.
  destruct (transients_ascending sqrt e (nth 0 (channelData b) []) (inject_Z r) Hrho)
    as (xs & -> & Ha).
  set (beat := fun x : Q => Qred (Qred (x / inject_Z 60) * q)).
  exists (beat (inject_Z 0)), (map (fun x => (x, beat x)) xs).
  split; [|split; [|split]].
  - unfold placed.
    rewrite (map_imap_const _ (fun t => (t, secondsToBeats t (Fin q)))) by reflexivity.
    change ((0, beat (inject_Z 0)) :: map (fun x => (x, beat x)) xs)
      with (map (fun x => (x, beat x)) (inject_Z 0 :: xs)).
    rewrite !List.map_map. apply map_ext. intros x. reflexivity.
  - unfold beat. rewrite !Qred_correct. change (inject_Z 0) with 0.
    change (inject_Z 60) with 60. field.
  - change ((0, beat (inject_Z 0)) :: map (fun x => (x, beat x)) xs)
      with (map (fun x => (x, beat x)) (inject_Z 0 :: xs)).
    rewrite List.map_map. cbn [fst]. rewrite map_id. exact Ha.
  - change ((0, beat (inject_Z 0)) :: map (fun x => (x, beat x)) xs)
      with (map (fun x => (x, beat x)) (inject_Z 0 :: xs)).
    rewrite List.map_map. cbn [snd]. apply ascending_scaled; assumption.
Qed.

(** The two bursts at 8 kHz and 120 bpm: three markers, at 0 s, 0.08 s and
    0.272 s, on beats 0, 0.16 and 0.544. *)
Lemma detected_markers_increase_witness :
  placed (markers (settings (autoDetectMarkers Inputs.sqrt6 (fun _ => "m"%string)
                               Inputs.burstEngine)))
         [(0, 0); (2 # 25, 4 # 25); (34 # 125, 68 # 125)] /\
  exists b0 rest,
    placed (markers (settings (autoDetectMarkers Inputs.sqrt6 (fun _ => "m"%string)
                                 Inputs.burstEngine)))
           ((0, b0) :: rest) /\
    b0 == 0 /\
    ascending (map fst ((0, b0) :: rest)) /\ ascending (map snd ((0, b0) :: rest)).
Proof.
  split; [vm_compute; reflexivity|].
  apply (detected_markers_increase Inputs.sqrt6 (fun _ => "m"%string)
           Inputs.burstEngine Inputs.burstSource 8000 120);
    try reflexivity; try lia; discriminate.
Defined.

End TransientFacts.

(** ** Scheduled clips and the events of a tick *)
Section SchedulerFacts.
Import JS Types ClipLauncher Inputs.
Local Open Scope string_scope.
Local Open Scope list_scope.

Lemma identities_lookup l l' r sc :
  identities l' = identities l -> heap l !! r = Some sc ->
  exists sc', heap l' !! r = Some sc' /\ identity sc' = identity sc.
Proof.
  intros Hi Hr. assert (H : identities l' !! r = Some (identity sc)).
  { rewrite Hi. unfold identities. rewrite list_lookup_fmap, Hr. reflexivity. }
  unfold identities in H. rewrite list_lookup_fmap in H.
  destruct (heap l' !! r) as [sc'|]; [|discriminate H].
  exists sc'. split; [reflexivity|]. cbn in H. congruence.
Qed.

Lemma quiet_refl ok l : quiet ok l l.
Proof.
  split; [reflexivity|]. exists []. split; [rewrite app_nil_r; reflexivity|].
  intros k s [].
Qed.

Lemma quiet_trans ok l1 l2 l3 : quiet ok l1 l2 -> quiet ok l2 l3 -> quiet ok l1 l3.
Proof.
  intros (H1 & e1 & H3 & H4) (G1 & e2 & G3 & G4).
  split; [congruence|].
  exists (e1 ++ e2). split; [rewrite G3, H3, app_assoc; reflexivity|].
  intros k s H. apply in_app_or in H as [H|H]; eauto.
Qed.

Lemma quiet_weaken (ok ok' : string -> Z -> Prop) l l' :
  (forall k s, ok k s -> ok' k s) -> quiet ok l l' -> quiet ok' l l'.
Proof.
  intros H (H1 & evs & H2 & H3). split; [exact H1|]. exists evs. split; [exact H2|].
  intros k s Hin. apply H, H3, Hin.
Qed.

Lemma quiet_same ok l l' :
  identities l' = identities l -> events l' = events l -> quiet ok l l'.
Proof.
  intros H1 H3. split; [exact H1|].
  exists []. split; [rewrite app_nil_r; exact H3|]. intros k s [].
Qed.

Lemma quiet_emit_r (ok : string -> Z -> Prop) l l' ev :
  (forall k s, ev = ClipStarted k s -> ok k s) -> quiet ok l l' -> quiet ok l (emit l' ev).
Proof.
  intros H Hc. eapply quiet_trans; [exact Hc|]. split; [reflexivity|].
  exists [ev]. split; [reflexivity|]. intros k s [->|[]]. apply H. reflexivity.
Qed.

Lemma quiet_mutate_r ok l l' r f :
  (forall x, identity (f x) = identity x) -> quiet ok l l' -> quiet ok l (mutate l' r f).
Proof.
  intros H Hc. eapply quiet_trans; [exact Hc|]. apply quiet_same; [|reflexivity].
  unfold identities, mutate. cbn. apply map_alter_same, H.
Qed.

Lemma quiet_withPlaying_r ok l l' m : quiet ok l l' -> quiet ok l (withPlaying l' m).
Proof. intros Hc. eapply quiet_trans; [exact Hc|apply quiet_same; reflexivity]. Qed.

Lemma quiet_withStopping_r ok l l' m : quiet ok l l' -> quiet ok l (withStopping l' m).
Proof. intros Hc. eapply quiet_trans; [exact Hc|apply quiet_same; reflexivity]. Qed.

Lemma quiet_withTriggered_r ok l l' m : quiet ok l l' -> quiet ok l (withTriggered l' m).
Proof. intros Hc. eapply quiet_trans; [exact Hc|apply quiet_same; reflexivity]. Qed.

Lemma quiet_withRandomCalls_r ok l l' n : quiet ok l l' -> quiet ok l (withRandomCalls l' n).
Proof. intros Hc. eapply quiet_trans; [exact Hc|apply quiet_same; reflexivity]. Qed.

Lemma quiet_withTransport_r ok l l' ts p s :
  quiet ok l l' -> quiet ok l (withTransport l' ts p s).
Proof. intros Hc. eapply quiet_trans; [exact Hc|apply quiet_same; reflexivity]. Qed.

Lemma quiet_stopScheduledClip_r ok l l' r :
  quiet ok l l' -> quiet ok l (stopScheduledClip l' r).
Proof.
  intros Hc. unfold stopScheduledClip. destruct (heap l' !! r); [|exact Hc].
  apply quiet_emit_r; [discriminate|]. apply quiet_mutate_r; [reflexivity|exact Hc].
Qed.

Lemma quiet_stopClip_r ok l l' k q : quiet ok l l' -> quiet ok l (stopClip l' k q).
Proof.
  intros Hc. unfold stopClip. cbv zeta. apply quiet_withTriggered_r.
  destruct (mapGet (playing l') k) as [p|]; [|exact Hc].
  destruct (_ || _).
  - apply quiet_withStopping_r, quiet_withPlaying_r, quiet_stopScheduledClip_r,
      quiet_withStopping_r.
    apply quiet_mutate_r; [reflexivity|]. apply quiet_mutate_r; [reflexivity|exact Hc].
  - apply quiet_withStopping_r.
    apply quiet_mutate_r; [reflexivity|]. apply quiet_mutate_r; [reflexivity|exact Hc].
Qed.

Lemma quiet_startClip_r (ok : string -> Z -> Prop) l l' r :
  (forall sc, heap l' !! r = Some sc -> ok (trackId sc) (slotIndex sc)) ->
  quiet ok l l' -> quiet ok l (startClip l' r).
Proof.
  intros H Hc. unfold startClip. destruct (heap l' !! r) as [sc|] eqn:E; [|exact Hc].
  apply quiet_emit_r.
  - intros k s [= <- <-]. apply H. reflexivity.
  - apply quiet_withPlaying_r. apply quiet_mutate_r; [reflexivity|exact Hc].
Qed.

Lemma quiet_processFollowAction_r ok rnd l l' sc fa :
  quiet ok l l' -> quiet ok l (processFollowAction rnd l' sc fa).
Proof.
  intros Hc. unfold processFollowAction. cbv zeta.
  destruct (action _);
    repeat first
      [ apply quiet_stopClip_r
      | apply quiet_emit_r; [discriminate|]
      | apply quiet_withRandomCalls_r ]; exact Hc.
Qed.

Lemma quiet_processPlayingClip_r ok rnd l l' r pos :
  quiet ok l l' -> quiet ok l (processPlayingClip rnd l' r pos).
Proof.
  intros Hc. unfold processPlayingClip. destruct (heap l' !! r) as [sc|]; [|exact Hc].
  cbv zeta. destruct (loopsOn _).
  - destruct (ge _ _); [|exact Hc].
    destruct (followAction _); [apply quiet_processFollowAction_r|];
      (apply quiet_emit_r; [discriminate|]); (apply quiet_mutate_r; [reflexivity|exact Hc]).
  - destruct (ge _ _); [|exact Hc].
    apply quiet_withPlaying_r, quiet_stopScheduledClip_r, Hc.
Qed.

Lemma quiet_fold {A : Type} ok (f : Launcher -> A -> Launcher) :
  (forall l0 l x, quiet ok l0 l -> quiet ok l0 (f l x)) ->
  forall xs l0 l, quiet ok l0 l -> quiet ok l0 (fold_left f xs l).
Proof.
  intros Hf xs. induction xs as [|x xs IH]; intros l0 l H; cbn; [exact H|].
  apply IH, Hf, H.
Qed.

Lemma quiet_tickTriggered_any pos l0 l kv :
  quiet anyStart l0 l -> quiet anyStart l0 (tickTriggered pos l kv).
Proof.
  intros Hc. unfold tickTriggered. destruct (heap l !! snd kv); [|exact Hc].
  destruct (ge _ _); [|exact Hc].
  apply quiet_withTriggered_r, quiet_startClip_r; [intros; exact I|exact Hc].
Qed.

Lemma quiet_tickStopping ok pos l0 l kv :
  quiet ok l0 l -> quiet ok l0 (tickStopping pos l kv).
Proof.
  intros Hc. unfold tickStopping. destruct (heap l !! snd kv) as [sc|]; [|exact Hc].
  destruct (stopTime sc); [|exact Hc]. destruct (ge _ _); [|exact Hc].
  apply quiet_withStopping_r, quiet_withPlaying_r, quiet_stopScheduledClip_r, Hc.
Qed.

Lemma quiet_tickPlaying ok rnd pos l0 l kv :
  quiet ok l0 l -> quiet ok l0 (tickPlaying rnd pos l kv).
Proof.
  intros Hc. unfold tickPlaying. destruct (mapGet _ _); [|exact Hc].
  destruct (Nat.eqb _ _); [apply quiet_processPlayingClip_r|]; exact Hc.
Qed.

(** The first loop of a tick starts only what is due. *)
Lemma quiet_tickTriggered_due pos l0 l kv :
  In kv (triggered l0) ->
  quiet (due l0 pos) l0 l -> quiet (due l0 pos) l0 (tickTriggered pos l kv).
Proof.
  intros Hin Hc. unfold tickTriggered. destruct (heap l !! snd kv) as [sc|] eqn:E; [|exact Hc].
  destruct (ge pos (launchTime sc)) eqn:Eg; [|exact Hc].
  apply quiet_withTriggered_r, quiet_startClip_r; [|exact Hc].
  intros sc' Hsc'. rewrite E in Hsc'. injection Hsc' as <-.
  exists (fst kv), (snd kv), (clip sc), (launchTime sc).
  split; [destruct kv; exact Hin|]. split; [|exact Eg].
  destruct Hc as (Hi & _). rewrite <- Hi. unfold identities.
  rewrite list_lookup_fmap, E. reflexivity.
Qed.

Lemma quiet_fold_in {A : Type} ok (f : Launcher -> A -> Launcher) (xs : list A) :
  forall l0,
  (forall l x, In x xs -> quiet ok l0 l -> quiet ok l0 (f l x)) ->
  forall l, quiet ok l0 l -> quiet ok l0 (fold_left f xs l).
Proof.
  induction xs as [|x xs IH]; intros l0 Hf l H; cbn; [exact H|].
  apply IH.
  - intros l' y Hy. apply Hf. right. exact Hy.
  - apply Hf; [left; reflexivity|exact H].
Qed.

Lemma quiet_tick_any (rnd : nat -> Q) (l : Launcher) : quiet anyStart l (tick rnd l).
Proof.
  unfold tick. destruct (isTPlaying _); [|apply quiet_refl].
  apply quiet_fold; [intros; apply quiet_tickPlaying; assumption|].
  apply quiet_fold; [intros; apply quiet_tickStopping; assumption|].
  apply quiet_fold; [intros; apply quiet_tickTriggered_any; assumption|].
  apply quiet_refl.
Qed.

(** X19. Every [clip-started] event of a tick belongs to a clip that was
    waiting in the triggered map with its launch beat reached: a tick
    starts no clip early, and none that was not triggered. *)
Theorem tick_starts_only_due_clips (rnd : nat -> Q) (l : Launcher) :
  exists evs, events (tick rnd l) = events l ++ evs /\
              forall k s, In (ClipStarted k s) evs -> due l (getPosition l) k s.
Proof.
  assert (H : quiet (due l (getPosition l)) l (tick rnd l)); [|apply H].
  unfold tick. destruct (isTPlaying _); [|apply quiet_refl].
  apply quiet_fold; [intros; apply quiet_tickPlaying; assumption|].
  apply quiet_fold; [intros; apply quiet_tickStopping; assumption|].
  apply quiet_fold_in; [|apply quiet_refl].
  intros l' kv Hin Hq. apply quiet_tickTriggered_due; assumption.
Qed.

Lemma tickTriggered_fold_starts pos (xs : list (string * nat)) :
  forall l k r sc,
  In (k, r) xs -> heap l !! r = Some sc -> ge pos (launchTime sc) = true ->
  exists evs, events (fold_left (tickTriggered pos) xs l) = events l ++ evs /\
              In (ClipStarted (trackId sc) (slotIndex sc)) evs.
Proof.
  induction xs as [|x xs IH]; intros l k r sc Hin Hr Hge; [destruct Hin|].
  cbn [fold_left]. destruct Hin as [->|Hin].
  - assert (Hq : quiet anyStart (tickTriggered pos l (k, r))
                   (fold_left (tickTriggered pos) xs (tickTriggered pos l (k, r)))).
    { apply quiet_fold; [intros; apply quiet_tickTriggered_any; assumption|].
      apply quiet_refl. }
    destruct Hq as (_ & evs & -> & _).
    unfold tickTriggered. cbn [fst snd]. rewrite Hr, Hge.
    unfold startClip. rewrite Hr. cbn [events withTriggered emit].
    exists (ClipStarted (trackId sc) (slotIndex sc) :: evs).
    split; [rewrite <- app_assoc; reflexivity|left; reflexivity].
  - assert (Hq : quiet anyStart l (tickTriggered pos l x))
      by (apply quiet_tickTriggered_any, quiet_refl).
    destruct Hq as (Hi & e1 & He1 & _).
    destruct (identities_lookup l _ r sc Hi Hr) as (sc' & Hr' & Hid).
    injection Hid as Ht Hs _ Hl.
    destruct (IH (tickTriggered pos l x) k r sc' Hin Hr') as (evs & -> & Hev).
    { rewrite Hl. exact Hge. }
    exists (e1 ++ evs). split; [rewrite He1, app_assoc; reflexivity|].
    apply in_or_app. right. rewrite <- Ht, <- Hs. exact Hev.
Qed.

(** The events of a tick begin with those of its first loop. *)
Lemma tick_events_split (rnd : nat -> Q) (l : Launcher) :
  isTPlaying (transportState l) = true ->
  exists evs,
    events (tick rnd l)
    = events (fold_left (tickTriggered (getPosition l)) (triggered l) l) ++ evs.
Proof.
  intros Ht. unfold tick. rewrite Ht.
  set (pos := getPosition l).
  set (l1 := fold_left (tickTriggered pos) (triggered l) l).
  assert (Hq : quiet anyStart l1
                 (fold_left (tickPlaying rnd pos)
                    (playing (fold_left (tickStopping pos) (stopping l1) l1))
                    (fold_left (tickStopping pos) (stopping l1) l1))).
  { apply quiet_fold; [intros; apply quiet_tickPlaying; assumption|].
    apply quiet_fold; [intros; apply quiet_tickStopping; assumption|].
    apply quiet_refl. }
  destruct Hq as (_ & e2 & -> & _). exists e2. reflexivity.
Qed.

(** X20. While the transport plays, a tick starts every clip that waits in
    the triggered map with its launch beat reached: a [clip-started] event
    for its track and slot is emitted. *)
Theorem tick_starts_due_clip (rnd : nat -> Q) (l : Launcher) (k : string) (r : nat)
    (sc : ScheduledClip) :
  isTPlaying (transportState l) = true ->
  In (k, r) (triggered l) -> heap l !! r = Some sc ->
  ge (getPosition l) (launchTime sc) = true ->
  exists evs, events (tick rnd l) = events l ++ evs /\
              In (ClipStarted (trackId sc) (slotIndex sc)) evs.
Proof.
  intros Ht Hin Hr Hge.
  destruct (tickTriggered_fold_starts (getPosition l) (triggered l) l k r sc Hin Hr Hge)
    as (e1 & He1 & Hev).
  destruct (tick_events_split rnd l Ht) as (e2 & ->).
  exists (e1 ++ e2). split; [rewrite He1, app_assoc; reflexivity|].
  apply in_or_app. left. exact Hev.
Qed.

Lemma tick_starts_due_clip_witness :
  let l := setClock (run noRandom pendingLaunch initial) (ofZ 4) in
  exists evs, events (tick noRandom l) = events l ++ evs /\
              In (ClipStarted "t" 0) evs.
Proof.
  apply (tick_starts_due_clip noRandom
           (setClock (run noRandom pendingLaunch initial) (ofZ 4)) "t" O
           {| trackId := "t"; slotIndex := 0; clip := plainClip "A"; state := Triggered;
              launchTime := ofZ 4; stopTime := None; loopCount := 0 |}).
  - reflexivity.
  - left. reflexivity.
  - reflexivity.
  - reflexivity.
Defined.

(** *** What [launchClip] leaves behind *)

Lemma startClip_at l r sc :
  heap l !! r = Some sc ->
  startClip l r
  = emit (withPlaying (mutate l r (setState Playing)) (mapSet (playing l) (trackId sc) r))
         (ClipStarted (trackId sc) (slotIndex sc)).
Proof. intros H. unfold startClip. rewrite H. reflexivity. Qed.

(** The launcher as [launchClip] has it just before it decides whether to
    start the clip at once. *)
Lemma launchClip_scheduled l t s c q :
  exists l3 sc3,
    launchClip l t s c q
    = (if isNone (resolveQ l q)
          || le (getNextQuantizedBeat (getPosition l) (resolveQ l q) (bpm l)) (getPosition l)
       then startClip l3 (length (heap l)) else l3) /\
    heap l3 !! length (heap l) = Some sc3 /\
    trackId sc3 = t /\ slotIndex sc3 = s /\ state sc3 = Triggered /\
    launchTime sc3 = launchBeatOf l t c q /\
    playing l3 = playing l /\
    triggered l3 = mapSet (triggered l) t (length (heap l)) /\
    stopping l3 = match mapGet (playing l) t with
                  | Some p => mapSet (stopping l) t p
                  | None => stopping l
                  end /\
    events l3 = events l /\ sameTransport l l3.
Proof.
  unfold launchClip, launchBeatOf. cbv zeta.
  destruct (mapGet (playing l) t) as [p|] eqn:Ep.
  - destruct (decide (p = length (heap l))) as [->|Hne].
    + eexists. eexists. split; [reflexivity|]. split.
      { cbn [heap withTriggered withStopping mutate withHeap].
        rewrite list_lookup_alter_eq, list_lookup_middle by reflexivity. reflexivity. }
      cbn. repeat split; reflexivity.
    + eexists. eexists. split; [reflexivity|]. split.
      { cbn [heap withTriggered withStopping mutate withHeap].
        rewrite list_lookup_alter_ne by exact Hne.
        apply list_lookup_middle. reflexivity. }
      cbn. repeat split; reflexivity.
  - eexists. eexists. split; [reflexivity|]. split.
    { cbn [heap withTriggered withHeap]. apply list_lookup_middle. reflexivity. }
    cbn. repeat split; reflexivity.
Qed.

Lemma getNextQuantizedBeat_none pos bpm : getNextQuantizedBeat pos QNone bpm = pos.
Proof. reflexivity. Qed.

Lemma launchClip_none_facts l t s c :
  let l' := launchClip l t s c QNone in
  exists sc,
    heap l' !! length (heap l) = Some sc /\
    trackId sc = t /\ slotIndex sc = s /\ state sc = Playing /\
    launchTime sc = getPosition l /\
    mapGet (playing l') t = Some (length (heap l)) /\
    mapGet (triggered l') t = Some (length (heap l)) /\
    events l' = events l ++ [ClipStarted t s] /\
    sameTransport l l'.
Proof.
  cbv zeta. destruct (launchClip_scheduled l t s c QNone)
    as (l3 & sc3 & -> & H3 & Ht & Hs & _ & Hl & Hp & Htr & _ & Hev & Hsame).
  cbn [resolveQ isNone orb]. rewrite (startClip_at l3 _ sc3 H3), Ht, Hs.
  exists (setState Playing sc3). split.
  { cbn [heap emit withPlaying mutate withHeap].
    rewrite list_lookup_alter_eq, H3. reflexivity. }
  cbn [trackId slotIndex state launchTime setState].
  split; [exact Ht|]. split; [exact Hs|]. split; [reflexivity|]. split.
  { rewrite Hl. unfold launchBeatOf. cbn [resolveQ].
    rewrite getNextQuantizedBeat_none. destruct (mapGet _ _); [destruct (isLegato c)|];
      reflexivity. }
  split; [cbn [playing emit withPlaying]; apply mapGet_mapSet|].
  split; [cbn [triggered emit withPlaying mutate withHeap]; rewrite Htr; apply mapGet_mapSet|].
  split; [cbn [events emit withPlaying mutate withHeap]; rewrite Hev; reflexivity|].
  destruct Hsame as (S1 & S2 & S3 & S4 & S5 & S6). repeat split; assumption.
Qed.

(** X21. An unquantized launch takes effect at once: the track reports
    playing, the slot's state is [playing], exactly one [clip-started]
    event is emitted, and the clip's launch beat is the current beat. *)
Theorem launch_unquantized_plays (l : Launcher) (t : string) (s : Z) (c : Clip) :
  let l' := launchClip l t s c QNone in
  isPlaying l' t = true /\ getClipState l' t s = Playing /\
  events l' = events l ++ [ClipStarted t s] /\
  launchTime <$> heap l' !! length (heap l) = Some (getPosition l).
Proof.
  cbv zeta. destruct (launchClip_none_facts l t s c)
    as (sc & Hh & Ht & Hs & Hst & Hl & Hp & _ & Hev & _).
  split; [unfold isPlaying; rewrite Hp; reflexivity|].
  split; [|split; [exact Hev|rewrite Hh; cbn; rewrite Hl; reflexivity]].
  unfold getClipState. rewrite Hp, Hh, Hs, Z.eqb_refl. exact Hst.
Qed.

(** X22. A clip started at once by an unquantized launch stays in the
    triggered map, so while the transport plays the next tick starts it a
    second time: a second [clip-started] event for the same slot follows. *)
Theorem immediate_launch_starts_twice (rnd : nat -> Q) (l : Launcher) (t : string)
    (s : Z) (c : Clip) (p : Q) :
  isTPlaying (transportState l) = true -> getPosition l = Fin p ->
  exists evs, events (tick rnd (launchClip l t s c QNone))
              = events l ++ ClipStarted t s :: evs /\
              In (ClipStarted t s) evs.
Proof.
  intros Hplay Hpos. destruct (launchClip_none_facts l t s c)
    as (sc & Hh & Ht & Hs & _ & Hl & _ & Htr & Hev & Hsame).
  cbv zeta in *.
  set (l' := launchClip l t s c QNone) in *.
  assert (Hplay' : isTPlaying (transportState l') = true).
  { destruct Hsame as (_ & _ & -> & _). exact Hplay. }
  destruct (tickTriggered_fold_starts (getPosition l') (triggered l') l' t
              (length (heap l)) sc) as (e1 & He1 & Hin).
  - apply mapGet_In, Htr.
  - exact Hh.
  - rewrite (sameTransport_getPosition _ _ Hsame), Hl, Hpos.
    rewrite ge_Fin. apply Qle_bool_iff, Qle_refl.
  - destruct (tick_events_split rnd l' Hplay') as (e2 & ->).
    exists (e1 ++ e2). rewrite He1, Hev, <- !app_assoc. split; [rewrite Ht, Hs in *; reflexivity|].
    apply in_or_app. left. rewrite <- Ht at 1. rewrite <- Hs. exact Hin.
Qed.

Lemma immediate_launch_starts_twice_witness :
  let l := run noRandom [CallSetBPM (ofZ 60); CallStart (ofZ 0)] initial in
  exists evs, events (tick noRandom (launchClip l "t" 0 (plainClip "A") QNone))
              = events l ++ ClipStarted "t" 0 :: evs /\
              In (ClipStarted "t" 0) evs.
Proof.
  apply (immediate_launch_starts_twice noRandom
           (run noRandom [CallSetBPM (ofZ 60); CallStart (ofZ 0)] initial)
           "t" 0 (plainClip "A") 0); reflexivity.
Defined.

(** X23. A quantized launch off the grid on an idle track only waits: the
    slot's state is [triggered], the track does not report playing, no
    event is emitted, and the launch beat is the next grid point. *)
Theorem launch_quantized_waits (l : Launcher) (t : string) (s : Z) (c : Clip)
    (q : LaunchQuantization) :
  isNone (resolveQ l q) = false ->
  le (getNextQuantizedBeat (getPosition l) (resolveQ l q) (bpm l)) (getPosition l) = false ->
  mapGet (playing l) t = None ->
  let l' := launchClip l t s c q in
  getClipState l' t s = Triggered /\ isPlaying l' t = false /\
  events l' = events l /\
  launchTime <$> heap l' !! length (heap l)
  = Some (getNextQuantizedBeat (getPosition l) (resolveQ l q) (bpm l)).
Proof.
  intros Hq Hle Hidle. cbv zeta.
  destruct (launchClip_scheduled l t s c q)
    as (l3 & sc3 & -> & H3 & Ht & Hs & _ & Hl & Hp & Htr & _ & Hev & _).
  rewrite Hq, Hle. cbn [orb].
  split; [|split; [|split; [exact Hev|]]].
  - unfold getClipState. rewrite Hp, Hidle, Htr, mapGet_mapSet, H3, Hs, Z.eqb_refl.
    reflexivity.
  - unfold isPlaying. rewrite Hp, Hidle. reflexivity.
  - rewrite H3. cbn. rewrite Hl. unfold launchBeatOf. rewrite Hidle. reflexivity.
Qed.

Lemma launch_quantized_waits_witness :
  let l := run noRandom [CallSetBPM (ofZ 60); CallStart (ofZ 0); Clock (ofZ 1)] initial in
  let l' := launchClip l "t" 0 (plainClip "A") Q1Bar in
  getClipState l' "t" 0 = Triggered /\ isPlaying l' "t" = false /\
  events l' = events l /\
  launchTime <$> heap l' !! length (heap l)
  = Some (getNextQuantizedBeat (getPosition l) (resolveQ l Q1Bar) (bpm l)).
Proof.
  apply (launch_quantized_waits
           (run noRandom [CallSetBPM (ofZ 60); CallStart (ofZ 0); Clock (ofZ 1)] initial)
           "t" 0 (plainClip "A") Q1Bar); reflexivity.
Defined.

End SchedulerFacts.

(** ** Stopping, pausing and the other tracks *)
Section StopFacts.
Import JS Types ClipLauncher Inputs.
Local Open Scope string_scope.
Local Open Scope list_scope.

Lemma mapDelete_absent (m : jsmap) k : mapGet m k = None -> mapDelete m k = m.
Proof.
  induction m as [|[k' v] m IH]; [reflexivity|]. cbn [mapGet].
  destruct (String.eqb k' k) eqn:E; [discriminate|]. intros H.
  unfold mapDelete in *. cbn [List.filter fst]. rewrite E. cbn [negb].
  f_equal. apply IH, H.
Qed.

Lemma mapGet_mapSet_ne (m : jsmap) k k' v : k <> k' -> mapGet (mapSet m k v) k' = mapGet m k'.
Proof.
  intros Hne. induction m as [|[k0 v0] m IH]; cbn [mapSet mapGet].
  - replace (String.eqb k k') with false; [reflexivity|].
    symmetry. apply String.eqb_neq, Hne.
  - destruct (String.eqb k0 k) eqn:E; cbn [mapGet].
    + apply String.eqb_eq in E. subst k0.
      replace (String.eqb k k') with false; [reflexivity|].
      symmetry. apply String.eqb_neq, Hne.
    + destruct (String.eqb k0 k'); [reflexivity|exact IH].
Qed.

Lemma mapGet_mapDelete_ne (m : jsmap) k k' : k <> k' -> mapGet (mapDelete m k) k' = mapGet m k'.
Proof.
  intros Hne. induction m as [|[k0 v0] m IH]; [reflexivity|].
  unfold mapDelete in *. cbn [List.filter fst mapGet].
  destruct (String.eqb k0 k) eqn:E; cbn [negb mapGet].
  - apply String.eqb_eq in E. subst k0.
    replace (String.eqb k k') with false; [exact IH|].
    symmetry. apply String.eqb_neq, Hne.
  - destruct (String.eqb k0 k'); [reflexivity|exact IH].
Qed.

Lemma withTriggered_same l : withTriggered l (triggered l) = l.
Proof. destruct l. reflexivity. Qed.

(** X24. Stopping a track that has nothing playing and nothing triggered
    changes nothing at all, whatever the quantization. *)
Theorem stopClip_idle_track (l : Launcher) (t : string) (q : LaunchQuantization) :
  mapGet (playing l) t = None -> mapGet (triggered l) t = None ->
  stopClip l t q = l.
Proof.
  intros Hp Ht. unfold stopClip. cbv zeta. rewrite Hp, (mapDelete_absent _ _ Ht).
  apply withTriggered_same.
Qed.

Lemma stopClip_idle_track_witness :
  stopClip (run noRandom onePlaying initial) "u" Q1Bar = run noRandom onePlaying initial.
Proof. apply stopClip_idle_track; reflexivity. Defined.

(** X25. [launchClip] and [stopClip] on one track leave the entries of
    every other track in the three maps as they were. *)
Theorem other_tracks_untouched (l : Launcher) (t u : string) (s : Z) (c : Clip)
    (q : LaunchQuantization) :
  u <> t ->
  (mapGet (playing (launchClip l t s c q)) u = mapGet (playing l) u /\
   mapGet (triggered (launchClip l t s c q)) u = mapGet (triggered l) u /\
   mapGet (stopping (launchClip l t s c q)) u = mapGet (stopping l) u) /\
  (mapGet (playing (stopClip l t q)) u = mapGet (playing l) u /\
   mapGet (triggered (stopClip l t q)) u = mapGet (triggered l) u /\
   mapGet (stopping (stopClip l t q)) u = mapGet (stopping l) u).
Proof.
  intros Hne. assert (Hne' : t <> u) by congruence. split.
  - destruct (launchClip_scheduled l t s c q)
      as (l3 & sc3 & -> & H3 & Ht & _ & _ & _ & Hp & Htr & Hst & _ & _).
    assert (Hs : mapGet (stopping l3) u = mapGet (stopping l) u).
    { rewrite Hst. destruct (mapGet (playing l) t); [apply mapGet_mapSet_ne, Hne'|reflexivity]. }
    destruct (_ || _).
    + rewrite (startClip_at l3 _ sc3 H3), Ht.
      cbn [playing triggered stopping emit withPlaying mutate withHeap].
      rewrite Hp, Htr, !mapGet_mapSet_ne by exact Hne'. repeat split. exact Hs.
    + rewrite Hp, Htr, mapGet_mapSet_ne by exact Hne'. repeat split. exact Hs.
  - unfold stopClip. cbv zeta. cbn [playing triggered stopping withTriggered].
    rewrite mapGet_mapDelete_ne by exact Hne'.
    destruct (mapGet (playing l) t) as [p|]; [|repeat split].
    destruct (_ || _).
    + unfold stopScheduledClip.
      cbn [heap playing triggered stopping withStopping withPlaying mutate withHeap].
      destruct (_ !! p);
        cbn [playing triggered stopping withStopping withPlaying mutate withHeap emit];
        rewrite !mapGet_mapDelete_ne, mapGet_mapSet_ne by exact Hne'; repeat split.
    + cbn [playing triggered stopping withStopping withPlaying mutate withHeap].
      rewrite mapGet_mapSet_ne by exact Hne'. repeat split.
Qed.

Lemma other_tracks_untouched_witness :
  let l := run noRandom onePlaying initial in
  (mapGet (playing (launchClip l "u" 0 (plainClip "B") QNone)) "t" = mapGet (playing l) "t" /\
   mapGet (triggered (launchClip l "u" 0 (plainClip "B") QNone)) "t"
   = mapGet (triggered l) "t" /\
   mapGet (stopping (launchClip l "u" 0 (plainClip "B") QNone)) "t"
   = mapGet (stopping l) "t") /\
  (mapGet (playing (stopClip l "u" QNone)) "t" = mapGet (playing l) "t" /\
   mapGet (triggered (stopClip l "u" QNone)) "t" = mapGet (triggered l) "t" /\
   mapGet (stopping (stopClip l "u" QNone)) "t" = mapGet (stopping l) "t").
Proof.
  apply (other_tracks_untouched (run noRandom onePlaying initial) "u" "t" 0
           (plainClip "B") QNone).
  discriminate.
Defined.

(** X26. [pause] reads the position after it has left the playing state,
    so the beats elapsed since [start] are dropped: after a start at [p]
    and any time on the host clock, the position read after [pause] is [p]
    again. *)
Theorem pause_drops_elapsed_time (l : Launcher) (p t : num) :
  isTPlaying (transportState l) = false ->
  let l1 := setClock (start l p) t in
  getPosition l1 = add p (secondsToBeats (sub t (currentTime l)) (bpm l)) /\
  getPosition (pause l1) = p /\ position (pause l1) = p.
Proof.
  intros H. unfold start. rewrite H. repeat split.
Qed.

Lemma pause_drops_elapsed_time_witness :
  let l1 := setClock (start (setBPM initial (ofZ 60)) (ofZ 8)) (ofZ 3) in
  getPosition l1 = add (ofZ 8) (secondsToBeats (sub (ofZ 3) (ofZ 0)) (ofZ 60)) /\
  getPosition (pause l1) = ofZ 8 /\ position (pause l1) = ofZ 8.
Proof. apply (pause_drops_elapsed_time (setBPM initial (ofZ 60))). reflexivity. Defined.

Lemma state_mutate_eq l r f sc :
  heap l !! r = Some sc -> heap (mutate l r f) !! r = Some (f sc).
Proof. intros H. cbn. rewrite list_lookup_alter_eq, H. reflexivity. Qed.

Lemma stopScheduledClip_state l r r' :
  (r' = r /\ heap l !! r <> None) \/ state <$> heap l !! r' = Some Stopped ->
  state <$> heap (stopScheduledClip l r) !! r' = Some Stopped.
Proof.
  intros H. unfold stopScheduledClip. destruct (heap l !! r) as [sc|] eqn:E.
  - cbn [heap emit mutate withHeap]. destruct (decide (r' = r)) as [->|Hne].
    + rewrite list_lookup_alter_eq, E. reflexivity.
    + rewrite list_lookup_alter_ne by congruence.
      destruct H as [[H _]|H]; [contradiction|exact H].
  - destruct H as [[_ H]|H]; [contradiction|exact H].
Qed.

Lemma stopScheduledClip_heap_some l r r' :
  heap l !! r' <> None -> heap (stopScheduledClip l r) !! r' <> None.
Proof.
  intros H. unfold stopScheduledClip. destruct (heap l !! r) as [sc|] eqn:E; [|exact H].
  cbn [heap emit mutate withHeap]. destruct (decide (r' = r)) as [->|Hne].
  - rewrite list_lookup_alter_eq, E. discriminate.
  - rewrite list_lookup_alter_ne by congruence. exact H.
Qed.

Lemma stopEvents_fold (xs : jsmap) :
  forall l,
  events (fold_left (fun acc kv => stopScheduledClip acc (snd kv)) xs l)
  = events l ++ stopEvents (identities l) xs.
Proof.
  induction xs as [|[k r] xs IH]; intros l; cbn [fold_left stopEvents flat_map snd].
  - rewrite app_nil_r. reflexivity.
  - rewrite IH. pose proof (quiet_stopScheduledClip_r anyStart l l r (quiet_refl _ _)) as Hq.
    destruct Hq as (Hi & _). rewrite Hi.
    change (flat_map _ xs) with (stopEvents (identities l) xs).
    unfold stopScheduledClip, identities. rewrite list_lookup_fmap.
    destruct (heap l !! r) as [sc|]; cbn [fmap option_fmap option_map].
    + cbn [events emit mutate withHeap identity]. rewrite <- app_assoc. reflexivity.
    + reflexivity.
Qed.

Lemma stopped_fold (xs : jsmap) :
  forall l r',
  (exists k, In (k, r') xs /\ heap l !! r' <> None) \/
  state <$> heap l !! r' = Some Stopped ->
  state <$> heap (fold_left (fun acc kv => stopScheduledClip acc (snd kv)) xs l) !! r'
  = Some Stopped.
Proof.
  induction xs as [|[k r] xs IH]; intros l r' H; cbn [fold_left snd].
  - destruct H as [(k & [] & _)|H]. exact H.
  - apply IH. destruct H as [(k' & [[= -> ->]|Hin] & Hv)|H].
    + right. apply stopScheduledClip_state. left. split; [reflexivity|exact Hv].
    + left. exists k'. split; [exact Hin|]. apply stopScheduledClip_heap_some, Hv.
    + right. apply stopScheduledClip_state. right. exact H.
Qed.

Lemma stopScheduledClip_transport l r :
  transportState (stopScheduledClip l r) = transportState l /\
  position (stopScheduledClip l r) = position l.
Proof. unfold stopScheduledClip. destruct (heap l !! r); split; reflexivity. Qed.

Lemma stop_fold_transport (xs : jsmap) :
  forall l,
  transportState (fold_left (fun acc kv => stopScheduledClip acc (snd kv)) xs l)
  = transportState l /\
  position (fold_left (fun acc kv => stopScheduledClip acc (snd kv)) xs l) = position l.
Proof.
  induction xs as [|x xs IH]; intros l; cbn [fold_left]; [split; reflexivity|].
  destruct (IH (stopScheduledClip l (snd x))) as [-> ->]. apply stopScheduledClip_transport.
Qed.

(** X27. [stop] empties the three maps and leaves the transport stopped
    at the position it had; every scheduled clip of the playing map ends
    in state [stopped], and the events emitted are one [clip-stopped] per
    entry of the playing map, in map order. *)
Theorem stop_stops_everything (l : Launcher) :
  let l' := stop l in
  playing l' = [] /\ triggered l' = [] /\ stopping l' = [] /\
  transportState l' = TStopped /\ position l' = position l /\
  events l' = events l ++ stopEvents (identities l) (playing l) /\
  forall k r, In (k, r) (playing l) -> heap l !! r <> None ->
              state <$> heap l' !! r = Some Stopped.
Proof.
  cbv zeta. unfold stop. cbv zeta.
  cbn [playing triggered stopping transportState position events heap
       withStopping withTriggered withPlaying].
  split; [reflexivity|]. split; [reflexivity|]. split; [reflexivity|].
  set (l1 := withTransport l TStopped (position l) (startTime l)).
  change (playing l1) with (playing l).
  destruct (stop_fold_transport (playing l) l1) as [-> ->].
  split; [reflexivity|]. split; [reflexivity|]. split.
  - rewrite stopEvents_fold. reflexivity.
  - intros k r Hin Hv. apply stopped_fold. left. exists k. split; [exact Hin|exact Hv].
Qed.

Lemma stopClip_none_playing l k : playing (stopClip l k QNone) = mapDelete (playing l) k.
Proof.
  unfold stopClip. cbv zeta. cbn [resolveQ isNone orb playing withTriggered].
  destruct (mapGet (playing l) k) as [p|] eqn:E.
  - unfold stopScheduledClip.
    cbn [heap playing withStopping withPlaying mutate withHeap].
    destruct (_ !! p); reflexivity.
  - symmetry. apply mapDelete_absent, E.
Qed.

Lemma stopClip_none_state l k r' :
  (exists p, mapGet (playing l) k = Some p /\ r' = p /\ heap l !! p <> None) \/
  state <$> heap l !! r' = Some Stopped ->
  state <$> heap (stopClip l k QNone) !! r' = Some Stopped.
Proof.
  intros H. unfold stopClip. cbv zeta. cbn [resolveQ isNone orb heap withTriggered].
  destruct (mapGet (playing l) k) as [p|] eqn:E.
  - cbn [heap withStopping withPlaying].
    apply stopScheduledClip_state.
    cbn [heap withStopping mutate withHeap].
    destruct (decide (r' = p)) as [Heq|Hne].
    + subst r'. destruct (heap l !! p) as [sc|] eqn:Ep.
      * left. split; [reflexivity|]. rewrite !list_lookup_alter_eq, Ep. discriminate.
      * right. destruct H as [(p' & [= <-] & _ & Hv)|H]; [contradiction|].
        discriminate H.
    + right. rewrite !list_lookup_alter_ne by congruence.
      destruct H as [(p' & [= <-] & -> & _)|H]; [contradiction|exact H].
  - destruct H as [(p' & Hp & _)|H]; [discriminate Hp|exact H].
Qed.

Lemma stopClip_none_heap_some l k r' :
  heap l !! r' <> None -> heap (stopClip l k QNone) !! r' <> None.
Proof.
  intros H. unfold stopClip. cbv zeta. cbn [resolveQ isNone orb heap withTriggered].
  destruct (mapGet (playing l) k) as [p|]; [|exact H].
  cbn [heap withStopping withPlaying]. apply stopScheduledClip_heap_some.
  cbn [heap withStopping mutate withHeap].
  destruct (decide (r' = p)) as [Heq|Hne].
  - subst r'. destruct (heap l !! p) eqn:Ep; [|contradiction].
    rewrite !list_lookup_alter_eq, Ep. discriminate.
  - rewrite !list_lookup_alter_ne by congruence. exact H.
Qed.

Lemma mapGet_NoDup (m : jsmap) k r :
  NoDup (map fst m) -> In (k, r) m -> mapGet m k = Some r.
Proof.
  induction m as [|[k' v] m IH]; intros Hnd Hin; [destruct Hin|].
  cbn [map fst] in Hnd. inversion Hnd as [|? ? Hnot Hnd']; subst.
  cbn [mapGet]. destruct Hin as [[= -> ->]|Hin].
  - rewrite String.eqb_refl. reflexivity.
  - destruct (String.eqb k' k) eqn:E; [|apply IH; assumption].
    apply String.eqb_eq in E. subst k'. exfalso. apply Hnot.
    apply list_elem_of_In, in_map_iff. exists (k, r). split; [reflexivity|exact Hin].
Qed.

Lemma stopAll_fold (xs : jsmap) :
  forall l,
  NoDup (map fst xs) ->
  (forall k r, In (k, r) xs -> mapGet (playing l) k = Some r) ->
  let l' := fold_left (fun acc kv => stopClip acc (fst kv) QNone) xs l in
  (forall kv, In kv (playing l') -> In kv (playing l) /\ ~ In (fst kv) (map fst xs)) /\
  forall r', (exists k, In (k, r') xs /\ heap l !! r' <> None) \/
             state <$> heap l !! r' = Some Stopped ->
             state <$> heap l' !! r' = Some Stopped.
Proof.
  induction xs as [|[k r] xs IH]; intros l Hnd Hall; cbv zeta; cbn [fold_left fst].
  - split; [intros kv H; split; [exact H|intros []]|].
    intros r' [(k & [] & _)|H]. exact H.
  - cbn [map fst] in Hnd. inversion Hnd as [|? ? Hnot Hnd']; subst.
    destruct (IH (stopClip l k QNone) Hnd') as [IH1 IH2].
    { intros k' r' Hin. rewrite stopClip_none_playing, mapGet_mapDelete_ne.
      - apply Hall. right. exact Hin.
      - intros ->. apply Hnot. apply list_elem_of_In, in_map_iff.
        exists (k', r'). split; [reflexivity|exact Hin]. }
    cbv zeta in IH1, IH2. split.
    + intros kv Hkv. destruct (IH1 kv Hkv) as [H1 H2].
      rewrite stopClip_none_playing in H1. apply In_mapDelete in H1 as [H1 H3].
      split; [exact H1|]. intros [E|H4]; [apply H3; symmetry; exact E|apply H2, H4].
    + intros r' H. apply IH2. destruct H as [(k' & [[= -> ->]|Hin] & Hv)|H].
      * right. apply stopClip_none_state. left. exists r'.
        split; [apply Hall; left; reflexivity|]. split; [reflexivity|exact Hv].
      * left. exists k'. split; [exact Hin|]. apply stopClip_none_heap_some, Hv.
      * right. apply stopClip_none_state. right. exact H.
Qed.

(** X28. [stopAll] with its default quantization leaves no track playing
    and nothing triggered, and every scheduled clip of the playing map ends
    in state [stopped]. *)
Theorem stopAll_silences (l : Launcher) :
  onePerTrack l ->
  let l' := stopAll l QNone in
  playing l' = [] /\ triggered l' = [] /\
  forall k r, In (k, r) (playing l) -> heap l !! r <> None ->
              state <$> heap l' !! r = Some Stopped.
Proof.
  intros Hnd. cbv zeta. unfold stopAll. cbv zeta.
  cbn [playing triggered heap withTriggered].
  destruct (stopAll_fold (playing l) l Hnd) as [H1 H2].
  { intros k r Hin. apply mapGet_NoDup; assumption. }
  cbv zeta in H1, H2. split; [|split; [reflexivity|]].
  - destruct (playing (fold_left _ (playing l) l)) as [|kv m] eqn:E; [reflexivity|].
    destruct (H1 kv (or_introl eq_refl)) as [Hin Hnot]. exfalso. apply Hnot.
    apply in_map, Hin.
  - intros k r Hin Hv. apply H2. left. exists k. split; [exact Hin|exact Hv].
Qed.

Lemma stopAll_silences_witness :
  let l' := stopAll (run noRandom onePlaying initial) QNone in
  playing l' = [] /\ triggered l' = [] /\
  forall k r, In (k, r) (playing (run noRandom onePlaying initial)) ->
              heap (run noRandom onePlaying initial) !! r <> None ->
              state <$> heap l' !! r = Some Stopped.
Proof.
  apply stopAll_silences. unfold onePerTrack. cbn. apply NoDup_singleton.
Defined.

End StopFacts.

(** ** What never changes in a scheduled clip *)
Section IdentityFacts.
Import JS Types ClipLauncher Inputs.
Local Open Scope string_scope.
Local Open Scope list_scope.

Lemma quiet_identities ok l l' : quiet ok l l' -> identities l' = identities l ++ [].
Proof. intros (H & _). rewrite app_nil_r. exact H. Qed.

Lemma launchClip_identities l t s c q :
  identities (launchClip l t s c q) = identities l ++ [(t, s, c, launchBeatOf l t c q)].
Proof.
  assert (H : forall l3 r, identities (startClip l3 r) = identities l3).
  { intros l3 r. apply (quiet_startClip_r anyStart l3 l3 r); [intros; exact I|].
    apply quiet_refl. }
  unfold launchClip, launchBeatOf. cbv zeta.
  destruct (_ || _); [rewrite H|];
    (destruct (mapGet (playing l) t) as [p|]; unfold identities; cbn;
     [rewrite map_alter_same by reflexivity|]; rewrite map_app; reflexivity).
Qed.

Lemma launchScene_identities (clips : list SceneClip) (q : LaunchQuantization) :
  forall l, exists ext, identities (launchScene l clips q) = identities l ++ ext.
Proof.
  induction clips as [|sc clips IH]; intros l; cbn [launchScene fold_left].
  - exists []. rewrite app_nil_r. reflexivity.
  - destruct (IH (launchClip l (sceneTrack sc) (sceneSlot sc) (sceneClip sc) q)) as (ext & E).
    unfold launchScene in E. rewrite E, launchClip_identities, <- app_assoc.
    eexists. reflexivity.
Qed.

Lemma step_identities rnd l c :
  exists ext, identities (step rnd l c) = identities l ++ ext.
Proof.
  destruct c; cbn [step].
  - eexists. apply launchClip_identities.
  - exists []. apply (quiet_identities anyStart), quiet_stopClip_r, quiet_refl.
  - apply launchScene_identities.
  - exists []. apply (quiet_identities anyStart). unfold stopAll. cbv zeta.
    apply quiet_withTriggered_r. apply quiet_fold; [|apply quiet_refl].
    intros l0 l1 x H. apply quiet_stopClip_r, H.
  - exists []. rewrite app_nil_r. unfold start. destruct (isTPlaying _); reflexivity.
  - exists []. apply (quiet_identities anyStart). unfold stop. cbv zeta.
    apply quiet_withStopping_r, quiet_withTriggered_r, quiet_withPlaying_r.
    apply quiet_fold; [|apply quiet_same; reflexivity].
    intros l0 l1 x H. apply quiet_stopScheduledClip_r, H.
  - exists []. rewrite app_nil_r. reflexivity.
  - exists []. rewrite app_nil_r. reflexivity.
  - exists []. rewrite app_nil_r. reflexivity.
  - exists []. rewrite app_nil_r. reflexivity.
  - exists []. apply (quiet_identities anyStart), quiet_tick_any.
Qed.

Lemma run_identities rnd cs :
  forall l, exists ext, identities (run rnd cs l) = identities l ++ ext.
Proof.
  induction cs as [|c cs IH]; intros l; cbn [run fold_left].
  - exists []. rewrite app_nil_r. reflexivity.
  - destruct (step_identities rnd l c) as (e1 & E1).
    destruct (IH (step rnd l c)) as (e2 & E2). unfold run in E2.
    rewrite E2, E1, <- app_assoc. eexists. reflexivity.
Qed.

(** X29. No call changes the track, the slot, the clip or the launch beat
    of a scheduled clip once it exists, and none removes it: after any
    sequence of calls the clip is found under the same reference with
    these four fields as they were. *)
Theorem scheduled_clip_keeps_identity (rnd : nat -> Q) (cs : list call) (l : Launcher)
    (r : nat) (sc : ScheduledClip) :
  heap l !! r = Some sc ->
  exists sc', heap (run rnd cs l) !! r = Some sc' /\
              trackId sc' = trackId sc /\ slotIndex sc' = slotIndex sc /\
              clip sc' = clip sc /\ launchTime sc' = launchTime sc.
Proof.
  intros Hr. destruct (run_identities rnd cs l) as (ext & E).
  assert (H : identities (run rnd cs l) !! r = Some (identity sc)).
  { rewrite E. apply lookup_app_l_Some. unfold identities.
    rewrite list_lookup_fmap, Hr. reflexivity. }
  unfold identities in H. rewrite list_lookup_fmap in H.
  destruct (heap (run rnd cs l) !! r) as [sc'|]; [|discriminate H].
  exists sc'. split; [reflexivity|]. cbn in H. injection H as H1 H2 H3 H4.
  repeat split; assumption.
Qed.

Lemma scheduled_clip_keeps_identity_witness :
  exists sc', heap (run noRandom
                      [CallLaunchClip "t" 1 (legatoClip "B") Q1Bar; Clock (ofZ 5); Tick;
                       CallStopAll QNone; CallStop]
                      (run noRandom onePlaying initial)) !! O = Some sc' /\
              trackId sc' = "t" /\ slotIndex sc' = 0%Z /\
              clip sc' = plainClip "A" /\ launchTime sc' = ofZ 0.
Proof.
  apply (scheduled_clip_keeps_identity noRandom _ (run noRandom onePlaying initial) O
           {| trackId := "t"; slotIndex := 0; clip := plainClip "A"; state := Playing;
              launchTime := ofZ 0; stopTime := None; loopCount := 0 |}).
  reflexivity.
Defined.

End IdentityFacts.

(** ** The playing map holds live clips *)
Section LiveFacts.
Import JS Types ClipLauncher Inputs.
Local Open Scope string_scope.
Local Open Scope list_scope.

Lemma live_onTrack h k r : live h k r -> onTrack h k r.
Proof. intros (sc & H & Ht & _). unfold onTrack. rewrite H. cbn. congruence. Qed.

Lemma onTrack_alter h k r r' f :
  (forall x, trackId (f x) = trackId x) -> onTrack h k r -> onTrack (alter f r' h) k r.
Proof.
  intros Hf H. unfold onTrack in *. rewrite <- list_lookup_fmap in *.
  change (map trackId (alter f r' h) !! r = Some k).
  rewrite map_alter_same by exact Hf. exact H.
Qed.

Lemma onTrack_app h k r x : onTrack h k r -> onTrack (h ++ [x]) k r.
Proof.
  unfold onTrack. intros H. destruct (h !! r) as [sc|] eqn:E; [|discriminate H].
  rewrite (lookup_app_l_Some _ _ _ _ E). exact H.
Qed.

(** A mutation that keeps the track and leaves the state alone, or sets it
    to [playing] or [stopping], keeps a clip live. *)
Lemma live_alter h k r r' f :
  (forall x, trackId (f x) = trackId x /\
             (state (f x) = state x \/ state (f x) = Playing \/ state (f x) = Stopping)) ->
  live h k r -> live (alter f r' h) k r.
Proof.
  intros Hf (sc & H & Ht & Hs). destruct (decide (r = r')) as [E|E].
  - subst r'. exists (f sc). rewrite list_lookup_alter_eq, H. split; [reflexivity|].
    destruct (Hf sc) as [H1 H2]. split; [congruence|].
    destruct H2 as [H2|[H2|H2]]; [rewrite H2; exact Hs|left; exact H2|right; exact H2].
  - exists sc. rewrite list_lookup_alter_ne by congruence. repeat split; assumption.
Qed.

(** Any mutation of another track's clip keeps a clip live. *)
Lemma live_alter_other h k k' r r' f :
  (forall x, trackId (f x) = trackId x) ->
  k <> k' -> onTrack h k' r' -> live h k r -> live (alter f r' h) k r.
Proof.
  intros Hf Hne Hon (sc & H & Ht & Hs). destruct (decide (r = r')) as [E|E].
  - subst r'. unfold onTrack in Hon. rewrite H in Hon. cbn in Hon. congruence.
  - exists sc. rewrite list_lookup_alter_ne by congruence. repeat split; assumption.
Qed.

Lemma live_app h k r x : live h k r -> live (h ++ [x]) k r.
Proof.
  intros (sc & H & Ht & Hs). exists sc. split; [apply lookup_app_l_Some, H|].
  split; assumption.
Qed.

Lemma wellFiled_startClip l r : wellFiled l -> wellFiled (startClip l r).
Proof.
  intros [H1 H2]. unfold startClip. destruct (heap l !! r) as [sc|] eqn:E; [|split; assumption].
  split; cbn [playing stopping heap emit withPlaying mutate withHeap].
  - intros k r' Hin. apply In_mapSet in Hin as [[= -> ->]|Hin].
    + exists (setState Playing sc). rewrite list_lookup_alter_eq, E.
      split; [reflexivity|]. split; [reflexivity|left; reflexivity].
    + apply live_alter; [|apply H1, Hin]. intros x. split; [reflexivity|right; left; reflexivity].
  - intros k r' Hin. apply onTrack_alter; [reflexivity|apply H2, Hin].
Qed.

(** Stopping the clip that the playing map holds for a track and deleting
    the track's entries. *)
Lemma wellFiled_stop_and_delete l k r :
  onTrack (heap l) k r ->
  wellFiled l ->
  wellFiled (withStopping
               (withPlaying (stopScheduledClip l r)
                  (mapDelete (playing (stopScheduledClip l r)) k))
               (mapDelete (stopping (stopScheduledClip l r)) k)).
Proof.
  intros Hon [H1 H2]. unfold stopScheduledClip.
  destruct (heap l !! r) as [sc|] eqn:E;
    cbn [playing stopping heap emit withPlaying withStopping mutate withHeap]; split.
  - intros k' r' Hin. apply In_mapDelete in Hin as [Hin Hne]. cbn [fst] in Hne.
    apply (live_alter_other _ k' k); [reflexivity|exact Hne|exact Hon|apply H1, Hin].
  - intros k' r' Hin. apply In_mapDelete in Hin as [Hin _].
    apply onTrack_alter; [reflexivity|apply H2, Hin].
  - intros k' r' Hin. apply In_mapDelete in Hin as [Hin _]. apply H1, Hin.
  - intros k' r' Hin. apply In_mapDelete in Hin as [Hin _]. apply H2, Hin.
Qed.

Lemma wellFiled_withTriggered l m : wellFiled l -> wellFiled (withTriggered l m).
Proof. intros H. exact H. Qed.

Lemma wellFiled_stopClip l t q : wellFiled l -> wellFiled (stopClip l t q).
Proof.
  intros Hw. unfold stopClip. cbv zeta. apply wellFiled_withTriggered.
  destruct (mapGet (playing l) t) as [p|] eqn:Ep; [|exact Hw].
  pose proof Hw as [H1 H2]. pose proof (H1 t p (mapGet_In _ _ _ Ep)) as Hlive.
  set (stopT := getNextQuantizedBeat (getPosition l) (resolveQ l q) (bpm l)).
  set (l1 := mutate (mutate l p (setState Stopping)) p (setStopTime (Some stopT))).
  assert (Hw2 : wellFiled (withStopping l1 (mapSet (stopping l1) t p))).
  { split; cbn [playing stopping heap withStopping mutate withHeap l1].
    - intros k r Hin. apply live_alter; [intros x; split; [reflexivity|left; reflexivity]|].
      apply live_alter; [intros x; split; [reflexivity|right; right; reflexivity]|].
      apply H1, Hin.
    - intros k r Hin. apply onTrack_alter; [reflexivity|].
      apply onTrack_alter; [reflexivity|].
      apply In_mapSet in Hin as [[= -> ->]|Hin]; [apply live_onTrack, Hlive|apply H2, Hin]. }
  destruct (_ || _); [|exact Hw2].
  apply (wellFiled_stop_and_delete _ t p); [|exact Hw2].
  cbn [heap withStopping mutate withHeap l1].
  apply onTrack_alter; [reflexivity|]. apply onTrack_alter; [reflexivity|].
  apply live_onTrack, Hlive.
Qed.

Lemma wellFiled_launchClip l t s c q : wellFiled l -> wellFiled (launchClip l t s c q).
Proof.
  intros [H1 H2]. unfold launchClip. cbv zeta.
  match goal with |- context [if ?b then startClip ?l3 ?r else _] =>
    set (cond := b); set (l3' := l3) end.
  assert (Hw : wellFiled l3').
  { unfold l3'. apply wellFiled_withTriggered.
    destruct (mapGet (playing l) t) as [p|] eqn:Ep.
    - split; cbn [playing stopping heap withStopping mutate withHeap].
      + intros k r Hin. apply live_alter; [intros x; split; [reflexivity|left; reflexivity]|].
        apply live_app, H1, Hin.
      + intros k r Hin. apply onTrack_alter; [reflexivity|]. apply onTrack_app.
        apply In_mapSet in Hin as [[= -> ->]|Hin]; [|apply H2, Hin].
        apply live_onTrack, H1, mapGet_In, Ep.
    - split; cbn [playing stopping heap withHeap].
      + intros k r Hin. apply live_app, H1, Hin.
      + intros k r Hin. apply onTrack_app, H2, Hin. }
  destruct cond; [apply wellFiled_startClip|]; exact Hw.
Qed.

Lemma wellFiled_processFollowAction rnd l sc fa :
  wellFiled l -> wellFiled (processFollowAction rnd l sc fa).
Proof.
  intros Hw. unfold processFollowAction. cbv zeta.
  destruct (action _); try exact Hw. apply wellFiled_stopClip. exact Hw.
Qed.

Lemma wellFiled_processPlayingClip rnd l k r pos :
  mapGet (playing l) k = Some r ->
  wellFiled l -> wellFiled (processPlayingClip rnd l r pos).
Proof.
  intros Hg Hw. pose proof Hw as [H1 H2].
  destruct (H1 k r (mapGet_In _ _ _ Hg)) as (sc & E & Ht & Hs).
  unfold processPlayingClip. rewrite E. cbv zeta. destruct (loopsOn _).
  - destruct (ge _ _); [|exact Hw].
    assert (Hw' : wellFiled (emit (mutate l r incLoopCount)
                               (ClipLooped (trackId sc) (slotIndex sc) (loopCount sc + 1)))).
    { split; cbn [playing stopping heap emit mutate withHeap].
      - intros k' r' Hin. apply live_alter; [intros x; split; [reflexivity|left; reflexivity]|].
        apply H1, Hin.
      - intros k' r' Hin. apply onTrack_alter; [reflexivity|apply H2, Hin]. }
    destruct (followAction _); [apply wellFiled_processFollowAction|]; exact Hw'.
  - destruct (ge _ _); [|exact Hw].
    assert (Hon : onTrack (heap l) (trackId sc) r).
    { unfold onTrack. rewrite E. reflexivity. }
    destruct (wellFiled_stop_and_delete l (trackId sc) r Hon Hw) as [G1 G2].
    split; [exact G1|].
    intros k' r' Hin.
    cbn [playing stopping heap withPlaying withStopping] in G1, G2 |- *.
    unfold stopScheduledClip in *. rewrite E in *.
    cbn [playing stopping heap emit mutate withHeap] in *.
    apply onTrack_alter; [reflexivity|apply H2, Hin].
Qed.

Lemma wellFiled_tickTriggered pos l kv : wellFiled l -> wellFiled (tickTriggered pos l kv).
Proof.
  intros Hw. unfold tickTriggered. destruct (heap l !! snd kv); [|exact Hw].
  destruct (ge _ _); [|exact Hw]. apply wellFiled_withTriggered, wellFiled_startClip, Hw.
Qed.

Lemma wellFiled_tickStopping pos l kv :
  onTrack (heap l) (fst kv) (snd kv) -> wellFiled l -> wellFiled (tickStopping pos l kv).
Proof.
  intros Hon Hw. unfold tickStopping. destruct (heap l !! snd kv) as [sc|]; [|exact Hw].
  destruct (stopTime sc); [|exact Hw]. destruct (ge _ _); [|exact Hw].
  apply wellFiled_stop_and_delete; assumption.
Qed.

Lemma wellFiled_tickPlaying rnd pos l kv : wellFiled l -> wellFiled (tickPlaying rnd pos l kv).
Proof.
  intros Hw. unfold tickPlaying. destruct (mapGet (playing l) (fst kv)) as [r|] eqn:E; [|exact Hw].
  destruct (Nat.eqb _ _); [|exact Hw]. apply (wellFiled_processPlayingClip rnd l (fst kv)); assumption.
Qed.

Lemma trackIds_tickStopping pos l kv : trackIds (tickStopping pos l kv) = trackIds l.
Proof.
  pose proof (quiet_tickStopping anyStart pos l l kv (quiet_refl _ _)) as (H & _).
  unfold identities in H. unfold trackIds.
  apply (f_equal (map (fun i : string * Z * Clip * num => fst (fst (fst i))))) in H.
  rewrite !List.map_map in H. exact H.
Qed.

Lemma wellFiled_tick rnd l : wellFiled l -> wellFiled (tick rnd l).
Proof.
  intros Hw. unfold tick. destruct (isTPlaying _); [|exact Hw].
  set (pos := getPosition l).
  set (l1 := fold_left (tickTriggered pos) (triggered l) l).
  assert (Hw1 : wellFiled l1).
  { apply fold_inv; [|exact Hw]. intros; apply wellFiled_tickTriggered; assumption. }
  apply fold_inv; [intros; apply wellFiled_tickPlaying; assumption|].
  assert (H : forall xs l0,
             wellFiled l0 ->
             (forall kv, In kv xs -> onTrack (heap l0) (fst kv) (snd kv)) ->
             wellFiled (fold_left (tickStopping pos) xs l0)).
  { induction xs as [|x xs IH]; intros l0 Hw0 Hon; cbn [fold_left]; [exact Hw0|].
    apply IH.
    - apply wellFiled_tickStopping; [apply Hon; left; reflexivity|exact Hw0].
    - intros kv Hin. unfold onTrack. rewrite <- list_lookup_fmap.
      change (trackIds (tickStopping pos l0 x) !! snd kv = Some (fst kv)).
      rewrite trackIds_tickStopping. unfold trackIds. rewrite list_lookup_fmap.
      apply Hon. right. exact Hin. }
  apply H; [exact Hw1|]. intros [k r] Hin. apply Hw1, Hin.
Qed.

Lemma wellFiled_step rnd l c : wellFiled l -> wellFiled (step rnd l c).
Proof.
  intros Hw. destruct c; cbn [step].
  - apply wellFiled_launchClip, Hw.
  - apply wellFiled_stopClip, Hw.
  - unfold launchScene. apply fold_inv; [|exact Hw].
    intros; apply wellFiled_launchClip; assumption.
  - unfold stopAll. cbv zeta. apply wellFiled_withTriggered.
    apply fold_inv; [|exact Hw]. intros; apply wellFiled_stopClip; assumption.
  - unfold start. destruct (isTPlaying _); exact Hw.
  - split; intros k r [].
  - exact Hw.
  - exact Hw.
  - exact Hw.
  - exact Hw.
  - apply wellFiled_tick, Hw.
Qed.

Lemma wellFiled_run rnd cs : forall l, wellFiled l -> wellFiled (run rnd cs l).
Proof.
  induction cs as [|c cs IH]; intros l Hw; [exact Hw|].
  apply IH, wellFiled_step, Hw.
Qed.

(** X30. After any sequence of calls on a new launcher, every entry of the
    playing map refers to a scheduled clip of the track it is filed under
    whose state is [playing] or [stopping]: a stopped clip is never left in
    the playing map. *)
Theorem playing_entries_are_live (rnd : nat -> Q) (cs : list call) (k : string) (r : nat) :
  In (k, r) (playing (run rnd cs initial)) ->
  exists sc, heap (run rnd cs initial) !! r = Some sc /\ trackId sc = k /\
             (state sc = Playing \/ state sc = Stopping).
Proof.
  intros Hin. assert (Hw : wellFiled (run rnd cs initial)).
  { apply wellFiled_run. split; intros k' r' []. }
  apply Hw, Hin.
Qed.

Lemma playing_entries_are_live_witness :
  exists sc, heap (run noRandom onePlaying initial) !! O = Some sc /\ trackId sc = "t" /\
             (state sc = Playing \/ state sc = Stopping).
Proof. apply (playing_entries_are_live noRandom onePlaying "t" O). left. reflexivity. Defined.

End LiveFacts.
